(** * ghtar: the Grey Hack bundle assembler and its nybble compressor

    A shallow embedding of [src/ghtar.py].  Python values are modelled as
    follows:
    - [bytes] is a list of integers, each meant to lie in [0, 256);
    - [str] is a list of Unicode code points;
    - a [dict] is an association list in insertion order, which is the
      iteration order of a Python dictionary;
    - an exception that nobody catches ends the run: functions that can
      raise return a [result]. *)

From Stdlib Require Import Ascii String DecimalString.
From Stdlib Require Import ZArith List Bool Lia Permutation.
From Stdlib Require Import Sorting.Sorted.
Import ListNotations.

Local Open Scope Z_scope.

(* ------------------------------------------------------------------ *)
(** ** Python values *)

Definition bytes := list Z.
Definition str := list Z.

(** A string literal of the source, as code points. *)
Definition py (s : string) : str :=
  map (fun a => Z.of_N (N_of_ascii a)) (list_ascii_of_string s).

Definition len {A} (l : list A) : Z := Z.of_nat (length l).

Definition is_byte (b : Z) : Prop := 0 <= b < 256.
Definition is_bytes (b : bytes) : Prop := Forall is_byte b.
Definition is_code_point (c : Z) : Prop := 0 <= c <= 1114111.
Definition is_str (s : str) : Prop := Forall is_code_point s.

Inductive exn : Type :=
| AssertionError
| RuntimeError
| UnicodeEncodeError
| KeyError
| IndexError
| AttributeError
| TypeError
| OutOfFuel.

Inductive result (A : Type) : Type :=
| Ok (a : A)
| Raise (e : exn).
Arguments Ok {A} a.
Arguments Raise {A} e.

Definition rbind {A B} (r : result A) (k : A -> result B) : result B :=
  match r with
  | Ok a => k a
  | Raise e => Raise e
  end.

Declare Scope result_scope.
Delimit Scope result_scope with result.
Notation "x <- r ;; k" := (rbind r (fun x => k))
  (at level 61, r at next level, right associativity) : result_scope.
Notation "r1 ;;; k" := (rbind r1 (fun _ => k))
  (at level 61, right associativity) : result_scope.
Local Open Scope result_scope.

Definition str_eqb (a b : list Z) : bool :=
  if list_eq_dec Z.eq_dec a b then true else false.

(** [s[lo:hi]] for [0 <= lo]; Python clamps both ends to the length. *)
Definition slice {A} (s : list A) (lo hi : nat) : list A :=
  firstn (hi - lo) (skipn lo s).

(* ------------------------------------------------------------------ *)
(** ** Low level data converters *)

Definition mk_uint8 (value : Z) : result bytes :=
  if (0 <=? value) && (value <=? 255) then Ok [value]
  else Raise AssertionError.

(** [value.to_bytes(2, "big")] *)
Definition mk_uint16 (value : Z) : result bytes :=
  if (0 <=? value) && (value <=? 65535)
  then Ok [Z.shiftr value 8; Z.land value 255]
  else Raise AssertionError.

Definition mk_bool (value : bool) : result bytes :=
  mk_uint8 (if value then 1 else 0).

Definition mk_ref (index : Z) : result bytes := mk_uint16 index.

Definition mk_chunk (chunk_id : Z) (chunk_data : bytes) : result bytes :=
  if (0 <=? chunk_id) && (chunk_id <=? 255) then
    l <- mk_uint16 (len chunk_data) ;;
    Ok ([chunk_id] ++ l ++ chunk_data)
  else Raise AssertionError.

(* ------------------------------------------------------------------ *)
(** ** Low level block creators *)

Definition BLOCK_HEADER := 0.
Definition BLOCK_ASCII := 1.
Definition BLOCK_UTF16 := 2.
Definition BLOCK_REL_HOME := 3.
Definition BLOCK_ASCII_REPLACED_HOME := 4.
Definition BLOCK_UTF16_REPLACED_HOME := 5.
Definition BLOCK_FOLDER := 20.
Definition BLOCK_FILE := 21.
Definition BLOCK_CHMOD := 24.
Definition BLOCK_CHOWN := 25.
Definition BLOCK_CHGROUP := 26.
Definition BLOCK_NEW_USER := 40.
Definition BLOCK_NEW_GROUP := 41.
Definition BLOCK_RM_USER := 42.
Definition BLOCK_RM_GROUP := 43.
Definition BLOCK_BUILD := 80.
Definition BLOCK_TEST := 81.
Definition BLOCK_LAUNCH := 82.
Definition BLOCK_COPY := 83.
Definition BLOCK_MOVE := 84.
Definition BLOCK_DELETE := 85.

Definition FILE_VERSION__UNCOMPRESSED := 1.
Definition FILE_VERSION__COMPRESSED := 2.
Definition TEMP_DIR : str := Eval cbv in py "~/.tmp".
Definition REPLACED_WITH_HOME : str := Eval cbv in py "<[HOME]>".

Definition mk_block_header (version : Z) : result bytes :=
  v <- mk_uint16 version ;;
  z <- mk_uint16 0 ;;
  mk_chunk BLOCK_HEADER (v ++ z).

(** [text.encode("ascii")]: fails on the first code point above 127. *)
Definition encode_ascii (text : str) : result bytes :=
  if forallb (fun c => c <? 128) text then Ok text
  else Raise UnicodeEncodeError.

(** One code point in UTF-16, low byte first.  A lone surrogate cannot be
    encoded; a code point above U+FFFF becomes a surrogate pair. *)
Definition utf16_le_units (c : Z) : result bytes :=
  if c <? 65536 then
    if (55296 <=? c) && (c <=? 57343) then Raise UnicodeEncodeError
    else Ok [Z.land c 255; Z.shiftr c 8]
  else
    let c' := c - 65536 in
    let hi := 55296 + Z.shiftr c' 10 in
    let lo := 56320 + Z.land c' 1023 in
    Ok [Z.land hi 255; Z.shiftr hi 8; Z.land lo 255; Z.shiftr lo 8].

Fixpoint utf16_le_body (text : str) : result bytes :=
  match text with
  | [] => Ok []
  | c :: rest =>
      u <- utf16_le_units c ;;
      r <- utf16_le_body rest ;;
      Ok (u ++ r)
  end.

(** [text.encode("utf-16")]: the byte order mark, then the code units in
    the byte order of the host.  The source expects the mark [\xff \xfe]
    (see the comment in [mk_block_string]), that is a little-endian host. *)
Definition encode_utf_16 (text : str) : result bytes :=
  r <- utf16_le_body text ;;
  Ok ([255; 254] ++ r).

(** The loop [for i in range(0, len(encoded), 2)] of [mk_block_string]. *)
Fixpoint utf16_data (encoded : bytes) : result bytes :=
  match encoded with
  | [] => Ok []
  | [_] => Raise IndexError
  | e0 :: e1 :: rest =>
      w <- mk_uint16 (Z.shiftl e0 8 + e1) ;;
      r <- utf16_data rest ;;
      Ok (w ++ r)
  end.

Definition mk_block_string (index : Z) (text : str)
  (needs_home_replacement : bool) : result bytes :=
  match encode_ascii text with
  | Ok encoded =>
      r <- mk_ref index ;;
      l <- mk_uint16 (len text) ;;
      mk_chunk
        (if needs_home_replacement then BLOCK_ASCII_REPLACED_HOME
         else BLOCK_ASCII)
        (r ++ l ++ encoded)
  | Raise UnicodeEncodeError =>
      e <- encode_utf_16 text ;;
      let encoded := skipn 2 e in
      if negb (len encoded =? len text * 2) then Raise RuntimeError
      else
        data <- utf16_data encoded ;;
        r <- mk_ref index ;;
        l <- mk_uint16 (len text) ;;
        mk_chunk
          (if needs_home_replacement then BLOCK_UTF16_REPLACED_HOME
           else BLOCK_UTF16)
          (r ++ l ++ data)
  | Raise e => Raise e
  end.

Definition mk_block_rel_home (index : Z) (text : str) : result bytes :=
  r <- mk_ref index ;;
  l <- mk_uint16 (len text) ;;
  e <- encode_ascii text ;;
  mk_chunk BLOCK_REL_HOME (r ++ l ++ e).

Definition mk_block_folder (parent_index name_index : Z) : result bytes :=
  p <- mk_ref parent_index ;;
  n <- mk_ref name_index ;;
  mk_chunk BLOCK_FOLDER (p ++ n).

Definition mk_block_file (dirname_index filename_index contents_index : Z)
  : result bytes :=
  d <- mk_ref dirname_index ;;
  f <- mk_ref filename_index ;;
  c <- mk_ref contents_index ;;
  mk_chunk BLOCK_FILE (d ++ f ++ c).

Definition mk_block_chmod (file_name_index perms_index : Z)
  (recursive : bool) : result bytes :=
  f <- mk_ref file_name_index ;;
  p <- mk_ref perms_index ;;
  r <- mk_bool recursive ;;
  mk_chunk BLOCK_CHMOD (f ++ p ++ r).

Definition mk_block_chown (file_name_index username_index : Z)
  (recursive : bool) : result bytes :=
  f <- mk_ref file_name_index ;;
  u <- mk_ref username_index ;;
  r <- mk_bool recursive ;;
  mk_chunk BLOCK_CHOWN (f ++ u ++ r).

(** The source passes [BLOCK_CHOWN] here, not [BLOCK_CHGROUP]. *)
Definition mk_block_chgroup (file_name_index group_index : Z)
  (recursive : bool) : result bytes :=
  f <- mk_ref file_name_index ;;
  g <- mk_ref group_index ;;
  r <- mk_bool recursive ;;
  mk_chunk BLOCK_CHOWN (f ++ g ++ r).

Definition mk_block_user (username_index password_index : Z) : result bytes :=
  u <- mk_ref username_index ;;
  p <- mk_ref password_index ;;
  mk_chunk BLOCK_NEW_USER (u ++ p).

Definition mk_block_group (username_index group_index : Z) : result bytes :=
  u <- mk_ref username_index ;;
  g <- mk_ref group_index ;;
  mk_chunk BLOCK_NEW_GROUP (u ++ g).

Definition mk_block_rm_user (username_index : Z) (rm_home : bool)
  : result bytes :=
  u <- mk_ref username_index ;;
  h <- mk_uint8 (if rm_home then 1 else 0) ;;
  mk_chunk BLOCK_RM_USER (u ++ h).

Definition mk_block_rm_group (username_index group_index : Z)
  : result bytes :=
  u <- mk_ref username_index ;;
  g <- mk_ref group_index ;;
  mk_chunk BLOCK_RM_GROUP (u ++ g).

Definition mk_block_build
  (source_index target_dir_index target_file_name_index : Z) : result bytes :=
  s <- mk_ref source_index ;;
  d <- mk_ref target_dir_index ;;
  n <- mk_ref target_file_name_index ;;
  mk_chunk BLOCK_BUILD (s ++ d ++ n).

Definition mk_block_test (test_index name_index file_index : Z)
  : result bytes :=
  t <- mk_uint16 test_index ;;
  n <- mk_ref name_index ;;
  f <- mk_ref file_index ;;
  mk_chunk BLOCK_TEST (t ++ n ++ f).

Fixpoint mk_refs (argument_index : list Z) : result bytes :=
  match argument_index with
  | [] => Ok []
  | arg :: rest =>
      a <- mk_ref arg ;;
      r <- mk_refs rest ;;
      Ok (a ++ r)
  end.

Definition mk_block_launch (argument_index : list Z) : result bytes :=
  if len argument_index <? 1 then Raise RuntimeError
  else
    c <- mk_uint8 (len argument_index) ;;
    r <- mk_refs argument_index ;;
    mk_chunk BLOCK_LAUNCH (c ++ r).

Definition mk_block_copy (source_index target_path_idx target_name : Z)
  : result bytes :=
  s <- mk_ref source_index ;;
  p <- mk_ref target_path_idx ;;
  n <- mk_ref target_name ;;
  mk_chunk BLOCK_COPY (s ++ p ++ n).

Definition mk_block_move (source_index target_path_idx target_name : Z)
  : result bytes :=
  s <- mk_ref source_index ;;
  p <- mk_ref target_path_idx ;;
  n <- mk_ref target_name ;;
  mk_chunk BLOCK_MOVE (s ++ p ++ n).

Definition mk_block_delete (file_index : Z) : result bytes :=
  f <- mk_ref file_index ;;
  mk_chunk BLOCK_DELETE f.

(* ------------------------------------------------------------------ *)
(** ** Python built-ins the source relies on *)

Class EqDec (A : Type) := eq_dec : forall x y : A, {x = y} + {x <> y}.
#[global] Instance Z_EqDec : EqDec Z := Z.eq_dec.
#[global] Instance nat_EqDec : EqDec nat := Nat.eq_dec.
#[global] Instance list_EqDec {A} `{EqDec A} : EqDec (list A) :=
  list_eq_dec eq_dec.

(** A dictionary keeps its keys in insertion order; assigning to a key
    that is present keeps the key's place. *)
Definition dict (K V : Type) := list (K * V).

Fixpoint dict_get {K V} `{EqDec K} (k : K) (d : dict K V) : option V :=
  match d with
  | [] => None
  | (k', v) :: d' => if eq_dec k k' then Some v else dict_get k d'
  end.

Fixpoint dict_set {K V} `{EqDec K} (k : K) (v : V) (d : dict K V)
  : dict K V :=
  match d with
  | [] => [(k, v)]
  | (k', v') :: d' =>
      if eq_dec k k' then (k', v) :: d' else (k', v') :: dict_set k v d'
  end.

Definition dict_mem {K V} `{EqDec K} (k : K) (d : dict K V) : bool :=
  match dict_get k d with Some _ => true | None => false end.

(** [sorted] and [list.sort] are stable.  [insert_by lt x l] puts [x] in
    front of the first element that is not below it. *)
Fixpoint insert_by {A} (lt : A -> A -> bool) (x : A) (l : list A) : list A :=
  match l with
  | [] => [x]
  | y :: l' => if lt y x then y :: insert_by lt x l' else x :: l
  end.

Definition sorted_by {A} (lt : A -> A -> bool) (l : list A) : list A :=
  fold_right (insert_by lt) [] l.

(** [a < b] on [str]: lexicographic on the code points. *)
Fixpoint str_ltb (a b : str) : bool :=
  match a, b with
  | _, [] => false
  | [], _ :: _ => true
  | x :: a', y :: b' =>
      if x <? y then true else if y <? x then false else str_ltb a' b'
  end.

(** [str(n)] for a non-negative integer. *)
Definition str_of_nat (n : nat) : str :=
  py (DecimalString.NilZero.string_of_uint (Nat.to_uint n)).

Definition truthy (s : option str) : bool :=
  match s with
  | Some (_ :: _) => true
  | _ => false
  end.

Fixpoint startswith (s prefix : str) : bool :=
  match prefix, s with
  | [], _ => true
  | p :: prefix', c :: s' => (c =? p) && startswith s' prefix'
  | _ :: _, [] => false
  end.

(** [sub in s] for a two-character [sub]. *)
Fixpoint contains2 (c1 c2 : Z) (s : str) : bool :=
  match s with
  | x :: ((y :: _) as s') => ((x =? c1) && (y =? c2)) || contains2 c1 c2 s'
  | _ => false
  end.

(** The characters [str.strip] removes and [\s] matches. *)
Definition isspace (c : Z) : bool :=
  ((9 <=? c) && (c <=? 13)) || ((28 <=? c) && (c <=? 32))
  || (c =? 133) || (c =? 160) || (c =? 5760)
  || ((8192 <=? c) && (c <=? 8202))
  || (c =? 8232) || (c =? 8233) || (c =? 8239) || (c =? 8287)
  || (c =? 12288).

Fixpoint lstrip (s : str) : str :=
  match s with
  | c :: s' => if isspace c then lstrip s' else s
  | [] => []
  end.

Definition strip (s : str) : str := rev (lstrip (rev (lstrip s))).

(** The line boundaries of [str.splitlines], apart from [\r\n]. *)
Definition is_linebreak (c : Z) : bool :=
  ((10 <=? c) && (c <=? 13)) || ((28 <=? c) && (c <=? 30))
  || (c =? 133) || (c =? 8232) || (c =? 8233).

(** [cur] is the line being read, last character first. *)
Fixpoint splitlines_from (cur : str) (s : str) : list str :=
  match s with
  | [] => match cur with [] => [] | _ => [rev cur] end
  | c :: rest =>
      if c =? 13 then
        match rest with
        | 10 :: rest' => rev cur :: splitlines_from [] rest'
        | _ => rev cur :: splitlines_from [] rest
        end
      else if is_linebreak c then rev cur :: splitlines_from [] rest
      else splitlines_from (c :: cur) rest
  end.

Definition splitlines (s : str) : list str := splitlines_from [] s.

(** [s.split("\n")] *)
Fixpoint split_newline_from (cur : str) (s : str) : list str :=
  match s with
  | [] => [rev cur]
  | c :: rest =>
      if c =? 10 then rev cur :: split_newline_from [] rest
      else split_newline_from (c :: cur) rest
  end.

Definition split_newline (s : str) : list str := split_newline_from [] s.

(* ------------------------------------------------------------------ *)
(** ** The host: the file system and [os.path] *)

(** One parsed JSON value, as [json.load] returns it.  Of a float the
    parsers only ever ask whether it is zero.  [PyTuple] is not JSON: it
    is the tuple that [parse_launch_block] puts in the place of missing
    arguments. *)
#[local] Set Warnings "-register-all".
Inductive json : Type :=
| JNull
| JBool (b : bool)
| JInt (n : Z)
| JFloat (is_zero : bool)
| JStr (s : str)
| JList (l : list json)
| JObj (o : list (str * json))
| PyTuple (l : list json).

Inductive host_error : Type := OSError | OtherError (e : exn).

Record Host : Type := {
  isfile : str -> bool;
  (** [open(p, "r", encoding="utf-8").read()] *)
  read_text : str -> host_error + str;
  (** [json.load] of the file; [None] for the errors that
      [process_bundle_file] catches. *)
  read_json : str -> option json;
  abspath : str -> str;
  dirname : str -> str;
  basename : str -> str;
  join : str -> str -> str;
  splitext : str -> str * str;
  iglob : str -> list str
}.

(* ------------------------------------------------------------------ *)
(** ** File store manager *)

Record StoredFile : Type := {
  ref_id : Z;
  local_path : option str;
  contents : option str;
  is_home_replaced : bool;
  is_source : bool;
  requested_game_path : option str;
  synthetic_game_path : option str
}.

Definition set_contents (f : StoredFile) (c : option str) : StoredFile :=
  {| ref_id := ref_id f; local_path := local_path f; contents := c;
     is_home_replaced := is_home_replaced f; is_source := is_source f;
     requested_game_path := requested_game_path f;
     synthetic_game_path := synthetic_game_path f |}.

Definition set_is_home_replaced (f : StoredFile) (v : bool) : StoredFile :=
  {| ref_id := ref_id f; local_path := local_path f; contents := contents f;
     is_home_replaced := v; is_source := is_source f;
     requested_game_path := requested_game_path f;
     synthetic_game_path := synthetic_game_path f |}.

Definition set_synthetic_game_path (f : StoredFile) (p : option str)
  : StoredFile :=
  {| ref_id := ref_id f; local_path := local_path f; contents := contents f;
     is_home_replaced := is_home_replaced f; is_source := is_source f;
     requested_game_path := requested_game_path f;
     synthetic_game_path := p |}.

Definition opt_str_eqb (a : option str) (b : str) : bool :=
  match a with
  | Some a' => str_eqb a' b
  | None => false
  end.

Definition is_same_source (h : Host) (self : StoredFile) (local : str)
  : bool :=
  if negb (is_source self) || negb (truthy (local_path self)) then false
  else
    match local_path self with
    | Some p => str_eqb (abspath h p) (abspath h local)
    | None => false
    end.

Record ResolvedFile : Type := {
  r_ref_id : Z;
  game_path : str;
  r_contents : str;
  r_is_home_replaced : bool
}.

(** The files are objects that several lists refer to and that are
    mutated in place: [stored] is the store, and a file is referred to by
    its position in it.  [REF_INDEX] is the class-wide counter
    [StoredFile._REF_INDEX]. *)
Record FileManager : Type := {
  stored : list StoredFile;
  REF_INDEX : Z
}.

Definition new_FileManager : FileManager :=
  {| stored := []; REF_INDEX := 0 |}.

(** [StoredFile(...)] followed by [self.stored.append]. *)
Definition append_StoredFile (fm : FileManager) (local : option str)
  (cont : option str) (home src : bool) (requested synthetic : option str)
  : StoredFile * FileManager :=
  let f := {| ref_id := REF_INDEX fm; local_path := local; contents := cont;
              is_home_replaced := home; is_source := src;
              requested_game_path := requested;
              synthetic_game_path := synthetic |} in
  (f, {| stored := stored fm ++ [f]; REF_INDEX := REF_INDEX fm + 1 |}).

Definition update_stored (fm : FileManager) (i : nat)
  (g : StoredFile -> StoredFile) : FileManager :=
  {| stored :=
       match nth_error (stored fm) i with
       | Some f => firstn i (stored fm) ++ g f :: skipn (S i) (stored fm)
       | None => stored fm
       end;
     REF_INDEX := REF_INDEX fm |}.

Definition IMPORT_CODE : str := Eval cbv in py "import_code".
Definition GOOD_SRC_FILE_CHARS : str :=
  Eval cbv in
    py "abcdefghijklmnopqrstuvwxyzABCDEFGHIJKLMNOPQRSTUVWXYZ0123456789./".

Fixpoint expect (lit : str) (s : str) : option str :=
  match lit, s with
  | [], _ => Some s
  | l :: lit', c :: s' => if c =? l then expect lit' s' else None
  | _ :: _, [] => None
  end.

Fixpoint span_not_quote (s : str) : str * str :=
  match s with
  | c :: s' =>
      if c =? 34 then ([], s)
      else let '(a, b) := span_not_quote s' in (c :: a, b)
  | [] => ([], [])
  end.

(** [IMPORT_RE.match(line)], with group 1 of the match.  The pattern
    reads: white space, [import_code], white space, an opening bracket,
    white space, a double quote, one or more characters other than the
    double quote (group 1), a double quote, white space, a closing
    bracket, white space, the end of the line; each white space may be
    empty. *)
Definition IMPORT_RE_match (line : str) : option str :=
  match expect IMPORT_CODE (lstrip line) with
  | None => None
  | Some s1 =>
      match expect [40] (lstrip s1) with
      | None => None
      | Some s2 =>
          match expect [34] (lstrip s2) with
          | None => None
          | Some s3 =>
              let '(group1, s4) := span_not_quote s3 in
              match group1, expect [34] s4 with
              | _ :: _, Some s5 =>
                  match expect [41] (lstrip s5) with
                  | Some s6 =>
                      match lstrip s6 with
                      | [] => Some group1
                      | _ => None
                      end
                  | None => None
                  end
              | _, _ => None
              end
          end
      end
  end.

(** The three states of [_strip_trailing_comment]. *)
Inductive comment_state : Type :=
| in_plain_text
| inside_string
| found_first_slash.

(** The loop over [pos]; [rest] is [line[pos:]]. *)
Fixpoint strip_comment_loop (line : str) (pos : nat) (state : comment_state)
  (rest : str) : str :=
  match rest with
  | [] => line
  | val :: rest' =>
      match state with
      | in_plain_text =>
          if val =? 34 then
            strip_comment_loop line (S pos) inside_string rest'
          else if val =? 47 then
            strip_comment_loop line (S pos) found_first_slash rest'
          else strip_comment_loop line (S pos) in_plain_text rest'
      | inside_string =>
          if val =? 34 then
            strip_comment_loop line (S pos) in_plain_text rest'
          else strip_comment_loop line (S pos) inside_string rest'
      | found_first_slash =>
          if val =? 47 then firstn (pos - 1) line
          else strip_comment_loop line (S pos) found_first_slash rest'
      end
  end.

Definition _strip_trailing_comment (line : str) : str :=
  if negb (contains2 47 47 line) then line
  else strip_comment_loop line 0 in_plain_text line.

Definition get_game_file_ref (fm : FileManager) (game_file : str)
  : option Z :=
  match
    find (fun f => opt_str_eqb (requested_game_path f) game_file) (stored fm)
  with
  | Some f => Some (ref_id f)
  | None => None
  end.

Definition get_game_file_by_ref (fm : FileManager) (ref : Z)
  (prefer_synthetic : bool) : option str :=
  match find (fun f => ref_id f =? ref) (stored fm) with
  | Some f =>
      if truthy (synthetic_game_path f) && prefer_synthetic
      then synthetic_game_path f
      else if truthy (requested_game_path f) && negb prefer_synthetic
      then requested_game_path f
      else if truthy (requested_game_path f) then requested_game_path f
      else if truthy (synthetic_game_path f) then synthetic_game_path f
      else None
  | None => None
  end.

Definition has_game_file (fm : FileManager) (game_file : str) : bool :=
  match get_game_file_ref fm game_file with
  | Some _ => true
  | None => false
  end.

(** What [add_text_contents] returns is a [bool]. *)
Definition add_text_contents (fm : FileManager) (game_file cont : str)
  : bool * FileManager :=
  if has_game_file fm game_file then (false, fm)
  else
    (true,
     snd (append_StoredFile fm None (Some cont) false false
            (Some game_file) None)).

(** What [add_local_text_file] returns is an [int]: [-1] on both errors. *)
Definition FileManager_add_local_text_file (h : Host) (fm : FileManager)
  (game_file local_file : str) : option Z * FileManager :=
  if has_game_file fm game_file then (Some (-1), fm)
  else if negb (isfile h local_file) then (Some (-1), fm)
  else
    let '(ret, fm') :=
      append_StoredFile fm (Some local_file) None false false
        (Some game_file) None in
    (Some (ref_id ret), fm').

(** The new file is the last one of [stored]; its position is returned. *)
Definition _inner_add_local_source_file (h : Host) (fm : FileManager)
  (game_file : option str) (local_file : str) : option nat * FileManager :=
  if truthy game_file
     && match game_file with
        | Some g => has_game_file fm g
        | None => false
        end
  then (None, fm)
  else if negb (isfile h local_file) then (None, fm)
  else
    let '(_, fm') :=
      append_StoredFile fm (Some local_file) None true true game_file None in
    (Some (length (stored fm)), fm').

Definition FileManager_add_local_source_file (h : Host) (fm : FileManager)
  (game_file : option str) (local_file : str) : option Z * FileManager :=
  match _inner_add_local_source_file h fm game_file local_file with
  | (None, fm') => (None, fm')
  | (Some i, fm') =>
      (match nth_error (stored fm') i with
       | Some f => Some (ref_id f)
       | None => None
       end, fm')
  end.

(** The loop over [self.stored] at the end of [_clean_source_name]. *)
Fixpoint unique_dirty_name (removed cleaned : str) (existing : list StoredFile)
  (idx : nat) (name : str) : str :=
  match existing with
  | [] => name
  | e :: rest =>
      if opt_str_eqb (synthetic_game_path e) name then
        unique_dirty_name removed cleaned rest (S idx)
          (TEMP_DIR ++ py "/src/dirty" ++ removed ++ str_of_nat (S idx)
             ++ cleaned)
      else unique_dirty_name removed cleaned rest idx name
  end.

Definition _clean_source_name (fm : FileManager) (game_file : str) : str :=
  match game_file with
  | [] => []
  | c0 :: tl =>
      let cleaned0 : str := if c0 =? 126 then [126] else [] in
      let remaining := if c0 =? 126 then tl else game_file in
      let removed : str :=
        flat_map
          (fun c => if existsb (Z.eqb c) GOOD_SRC_FILE_CHARS then []
                    else [88]) remaining in
      let cleaned1 :=
        cleaned0
          ++ map (fun c => if existsb (Z.eqb c) GOOD_SRC_FILE_CHARS then c
                           else 88) remaining in
      match removed with
      | [] => game_file
      | _ :: _ =>
          let cleaned2 :=
            if startswith cleaned1 (TEMP_DIR ++ [47])
            then skipn (length (TEMP_DIR ++ [47])) cleaned1 else cleaned1 in
          let cleaned3 :=
            if startswith cleaned2 (py "src/")
            then skipn 4 cleaned2 else cleaned2 in
          let cleaned4 :=
            if startswith cleaned3 (py "~/")
            then skipn 2 cleaned3 else cleaned3 in
          let cleaned5 := match cleaned4 with [] => [88] | _ => cleaned4 end in
          let cleaned6 :=
            match cleaned5 with
            | 47 :: _ => cleaned5
            | _ => 47 :: cleaned5
            end in
          unique_dirty_name removed cleaned6 (stored fm) 0
            (TEMP_DIR ++ py "/src/dirty" ++ removed ++ cleaned6)
      end
  end.

Definition _load_file (h : Host) (local_file : str) : result (option str) :=
  match read_text h local_file with
  | inr s => Ok (Some s)
  | inl OSError => Ok None
  | inl (OtherError e) => Raise e
  end.

Fixpoint find_index {A} (p : A -> bool) (l : list A) : option nat :=
  match l with
  | [] => None
  | x :: l' =>
      if p x then Some 0%nat
      else match find_index p l' with
           | Some i => Some (S i)
           | None => None
           end
  end.

(** Returns the position in [stored] of the file found or created. *)
Definition _find_import_file (h : Host) (fm : FileManager)
  (referring_path imported_path : str) (discovered_sources : list nat)
  : option nat * FileManager * list nat :=
  let base_dir := abspath h (dirname h referring_path) in
  let included_local := join h base_dir imported_path in
  let found0 :=
    find_index (fun s => is_same_source h s included_local) (stored fm) in
  let created :=
    match found0 with
    | Some i => (Some i, fm, discovered_sources)
    | None =>
        match _inner_add_local_source_file h fm None included_local with
        | (None, fm') => (None, fm', discovered_sources)
        | (Some i, fm') => (Some i, fm', discovered_sources ++ [i])
        end
    end in
  match created with
  | (None, fm1, ds) => (None, fm1, ds)
  | (Some i, fm1, ds) =>
      match nth_error (stored fm1) i with
      | None => (None, fm1, ds)
      | Some found =>
          let fm2 :=
            if negb (truthy (synthetic_game_path found))
               && negb (truthy (requested_game_path found))
            then
              update_stored fm1 i
                (fun f =>
                   set_synthetic_game_path f
                     (Some (_clean_source_name fm1
                              (TEMP_DIR ++ py "/src/" ++ imported_path))))
            else if negb (truthy (synthetic_game_path found))
                    && truthy (requested_game_path found)
            then
              update_stored fm1 i
                (fun f =>
                   set_synthetic_game_path f
                     (Some (_clean_source_name fm1
                              (match requested_game_path found with
                               | Some r => r
                               | None => []
                               end))))
            else fm1 in
          (Some i, fm2, ds)
      end
  end.

(** The state of the loop over the lines in [_clean_source]. *)
Record clean_state : Type := {
  cs_ret : str;
  cs_is_ok : bool;
  cs_fm : FileManager;
  cs_discovered : list nat
}.

Definition clean_line (h : Host) (source : nat) (local : str)
  (st : clean_state) (line0 : str) : clean_state :=
  let line := _strip_trailing_comment (strip line0) in
  match IMPORT_RE_match line with
  | Some include_ref =>
      let '(imported_file, fm1, ds) :=
        _find_import_file h (cs_fm st) local include_ref
          (cs_discovered st) in
      match
        match imported_file with
        | Some i =>
            match nth_error (stored fm1) i with
            | Some f =>
                if truthy (synthetic_game_path f)
                then synthetic_game_path f else None
            | None => None
            end
        | None => None
        end
      with
      | None =>
          {| cs_ret := cs_ret st; cs_is_ok := false; cs_fm := fm1;
             cs_discovered := ds |}
      | Some imported_game_file =>
          let home := startswith imported_game_file (py "~/") in
          let imported_game_file' :=
            if home then REPLACED_WITH_HOME ++ skipn 1 imported_game_file
            else imported_game_file in
          let fm2 :=
            if home
            then update_stored fm1 source
                   (fun f => set_is_home_replaced f true)
            else fm1 in
          {| cs_ret :=
               cs_ret st ++ [10] ++ py "import_code(" ++ [34]
                 ++ imported_game_file' ++ [34] ++ py ")";
             cs_is_ok := cs_is_ok st; cs_fm := fm2; cs_discovered := ds |}
      end
  | None =>
      {| cs_ret := cs_ret st ++ [10] ++ line; cs_is_ok := cs_is_ok st;
         cs_fm := cs_fm st; cs_discovered := cs_discovered st |}
  end.

Definition _clean_source (h : Host) (fm : FileManager) (source : nat)
  (discovered_sources : list nat) : result (bool * FileManager * list nat) :=
  match nth_error (stored fm) source with
  | None => Raise IndexError
  | Some src =>
      match contents src, local_path src with
      | Some cont, Some local =>
          let st :=
            fold_left (clean_line h source local) (splitlines cont)
              {| cs_ret := []; cs_is_ok := true; cs_fm := fm;
                 cs_discovered := discovered_sources |} in
          Ok (cs_is_ok st,
              update_stored (cs_fm st) source
                (fun f => set_contents f (Some (cs_ret st))),
              cs_discovered st)
      | _, _ => Raise AssertionError
      end
  end.

Definition resolved (source : StoredFile) (path cont : str) : ResolvedFile :=
  {| r_ref_id := ref_id source; game_path := path; r_contents := cont;
     r_is_home_replaced := is_home_replaced source |}.

(** [assert path not in ret; ret[path] = ResolvedFile(...)] when [path] is
    set and not empty. *)
Definition publish (source : StoredFile) (cont : str) (path : option str)
  (ret : dict str ResolvedFile) : result (dict str ResolvedFile) :=
  match path with
  | Some ((_ :: _) as p) =>
      if dict_mem p ret then Raise AssertionError
      else Ok (dict_set p (resolved source p cont) ret)
  | _ => Ok ret
  end.

(** [while subname in ret: idx += 1 ...] *)
Fixpoint fresh_subname (fuel : nat) (base : str)
  (ret : dict str ResolvedFile) (idx : nat) : result str :=
  let subname := TEMP_DIR ++ py "/src/" ++ str_of_nat idx ++ [47] ++ base in
  if dict_mem subname ret then
    match fuel with
    | O => Raise OutOfFuel
    | S fuel' => fresh_subname fuel' base ret (S idx)
    end
  else Ok subname.

(** One turn of the [while to_scan] loop, for the file popped. *)
Definition process_one (h : Host) (fm : FileManager) (i : nat)
  (to_scan : list nat) (is_ok : bool) (ret : dict str ResolvedFile)
  : result (FileManager * list nat * bool * dict str ResolvedFile) :=
  match nth_error (stored fm) i with
  | None => Raise IndexError
  | Some source0 =>
      loaded <-
        (match contents source0, truthy (local_path source0),
               local_path source0 with
         | None, true, Some p =>
             raw <- _load_file h p ;;
             match raw with
             | None =>
                 Ok (update_stored fm i (fun f => set_contents f (Some [])),
                     false)
             | Some r =>
                 Ok (update_stored fm i (fun f => set_contents f (Some r)),
                     is_ok)
             end
         | _, _, _ => Ok (fm, is_ok)
         end) ;;
      let '(fm1, is_ok1) := loaded in
      match nth_error (stored fm1) i with
      | None => Raise IndexError
      | Some source1 =>
          match contents source1 with
          | None => Ok (fm1, to_scan, is_ok1, ret)
          | Some _ =>
              if is_source source1 then
                cleaned <- _clean_source h fm1 i to_scan ;;
                let '(ok, fm2, to_scan2) := cleaned in
                if negb ok then Ok (fm2, to_scan2, false, ret)
                else
                  match nth_error (stored fm2) i with
                  | None => Raise IndexError
                  | Some source =>
                      let cont :=
                        match contents source with
                        | Some c => c
                        | None => []
                        end in
                      ret1 <-
                        publish source cont (requested_game_path source)
                          ret ;;
                      ret2 <-
                        publish source cont (synthetic_game_path source)
                          ret1 ;;
                      if negb (truthy (requested_game_path source))
                         && negb (truthy (synthetic_game_path source))
                      then
                        let base :=
                          if truthy (local_path source) then
                            match local_path source with
                            | Some p => basename h p
                            | None => []
                            end
                          else str_of_nat (length ret2) in
                        subname <-
                          fresh_subname (length ret2) base ret2 0 ;;
                        let synthetic := _clean_source_name fm2 subname in
                        let fm3 :=
                          update_stored fm2 i
                            (fun f =>
                               set_synthetic_game_path f (Some synthetic)) in
                        if dict_mem synthetic ret2 then Raise AssertionError
                        else
                          Ok (fm3, to_scan2, is_ok1,
                              dict_set synthetic
                                (resolved source synthetic cont) ret2)
                      else Ok (fm2, to_scan2, is_ok1, ret2)
                  end
              else
                let cont :=
                  match contents source1 with
                  | Some c => c
                  | None => []
                  end in
                ret1 <-
                  publish source1 cont (requested_game_path source1) ret ;;
                ret2 <-
                  publish source1 cont (synthetic_game_path source1) ret1 ;;
                Ok (fm1, to_scan, is_ok1, ret2)
          end
      end
  end.

(** [to_scan.pop()] takes the last element. *)
Fixpoint process_loop (h : Host) (fuel : nat) (fm : FileManager)
  (to_scan : list nat) (is_ok : bool) (ret : dict str ResolvedFile)
  : result (FileManager * bool * dict str ResolvedFile) :=
  match rev to_scan with
  | [] => Ok (fm, is_ok, ret)
  | i :: rest_rev =>
      match fuel with
      | O => Raise OutOfFuel
      | S fuel' =>
          r <- process_one h fm i (rev rest_rev) is_ok ret ;;
          let '(fm', to_scan', is_ok', ret') := r in
          process_loop h fuel' fm' to_scan' is_ok' ret'
      end
  end.

(** [fuel] bounds the number of files scanned; the list of files to scan
    grows as imports are discovered. *)
Definition process_file_map (h : Host) (fuel : nat) (fm : FileManager)
  : result (option (list ResolvedFile) * FileManager) :=
  r <- process_loop h fuel fm (seq 0 (length (stored fm))) true [] ;;
  let '(fm', is_ok, ret) := r in
  if is_ok then Ok (Some (map snd ret), fm') else Ok (None, fm').

(* ------------------------------------------------------------------ *)
(** ** Block storage *)

(** An entry of [_exec_blocks]: a finished chunk, or a build or test
    that waits for the files to be resolved. *)
Inductive exec_block : Type :=
| ExecBytes (block : bytes)
| ExecDeferred (is_build : bool) (name : str).

Record Blocks : Type := {
  _strings : dict str Z;
  _home_replace_strings : dict str Z;
  _rel_paths : dict str Z;
  _string_idx : Z;
  _folders : list (str * bytes);
  _files : FileManager;
  _test_files : dict str Z;
  _build_files : dict str (Z * Z * Z);
  _user_blocks : list bytes;
  _group_blocks : list bytes;
  _exec_blocks : list exec_block;
  _setup_problems : bool;
  bundle_files : list str
}.

Definition new_Blocks : Blocks :=
  {| _strings := []; _home_replace_strings := []; _rel_paths := [];
     _string_idx := 0; _folders := []; _files := new_FileManager;
     _test_files := []; _build_files := []; _user_blocks := [];
     _group_blocks := []; _exec_blocks := []; _setup_problems := false;
     bundle_files := [] |}.

(** The three string tables and their shared counter. *)
Definition set_pool (b : Blocks) (s hs rp : dict str Z) (idx : Z) : Blocks :=
  {| _strings := s; _home_replace_strings := hs; _rel_paths := rp;
     _string_idx := idx; _folders := _folders b; _files := _files b;
     _test_files := _test_files b; _build_files := _build_files b;
     _user_blocks := _user_blocks b; _group_blocks := _group_blocks b;
     _exec_blocks := _exec_blocks b; _setup_problems := _setup_problems b;
     bundle_files := bundle_files b |}.

Definition set_folders (b : Blocks) (f : list (str * bytes)) : Blocks :=
  {| _strings := _strings b;
     _home_replace_strings := _home_replace_strings b;
     _rel_paths := _rel_paths b; _string_idx := _string_idx b;
     _folders := f; _files := _files b;
     _test_files := _test_files b; _build_files := _build_files b;
     _user_blocks := _user_blocks b; _group_blocks := _group_blocks b;
     _exec_blocks := _exec_blocks b; _setup_problems := _setup_problems b;
     bundle_files := bundle_files b |}.

Definition set_files (b : Blocks) (f : FileManager) : Blocks :=
  {| _strings := _strings b;
     _home_replace_strings := _home_replace_strings b;
     _rel_paths := _rel_paths b; _string_idx := _string_idx b;
     _folders := _folders b; _files := f;
     _test_files := _test_files b; _build_files := _build_files b;
     _user_blocks := _user_blocks b; _group_blocks := _group_blocks b;
     _exec_blocks := _exec_blocks b; _setup_problems := _setup_problems b;
     bundle_files := bundle_files b |}.

(** The queues and tables other than the string pool and the folders. *)
Definition set_queues (b : Blocks) (tf : dict str Z)
  (bf : dict str (Z * Z * Z)) (ub gb : list bytes) (eb : list exec_block)
  : Blocks :=
  {| _strings := _strings b;
     _home_replace_strings := _home_replace_strings b;
     _rel_paths := _rel_paths b; _string_idx := _string_idx b;
     _folders := _folders b; _files := _files b;
     _test_files := tf; _build_files := bf;
     _user_blocks := ub; _group_blocks := gb;
     _exec_blocks := eb; _setup_problems := _setup_problems b;
     bundle_files := bundle_files b |}.

Definition set_setup_problems (b : Blocks) (v : bool) : Blocks :=
  {| _strings := _strings b;
     _home_replace_strings := _home_replace_strings b;
     _rel_paths := _rel_paths b; _string_idx := _string_idx b;
     _folders := _folders b; _files := _files b;
     _test_files := _test_files b; _build_files := _build_files b;
     _user_blocks := _user_blocks b; _group_blocks := _group_blocks b;
     _exec_blocks := _exec_blocks b; _setup_problems := v;
     bundle_files := bundle_files b |}.

Definition set_bundle_files (b : Blocks) (v : list str) : Blocks :=
  {| _strings := _strings b;
     _home_replace_strings := _home_replace_strings b;
     _rel_paths := _rel_paths b; _string_idx := _string_idx b;
     _folders := _folders b; _files := _files b;
     _test_files := _test_files b; _build_files := _build_files b;
     _user_blocks := _user_blocks b; _group_blocks := _group_blocks b;
     _exec_blocks := _exec_blocks b; _setup_problems := _setup_problems b;
     bundle_files := v |}.

Definition append_exec (b : Blocks) (e : exec_block) : Blocks :=
  set_queues b (_test_files b) (_build_files b) (_user_blocks b)
    (_group_blocks b) (_exec_blocks b ++ [e]).

Definition _add_string (text : str) (b : Blocks) : Z * Blocks :=
  match dict_get text (_strings b) with
  | Some ret => (ret, b)
  | None =>
      (_string_idx b,
       set_pool b (dict_set text (_string_idx b) (_strings b))
         (_home_replace_strings b) (_rel_paths b) (_string_idx b + 1))
  end.

Definition _add_home_replace_string (text : str) (b : Blocks) : Z * Blocks :=
  match dict_get text (_home_replace_strings b) with
  | Some ret => (ret, b)
  | None =>
      (_string_idx b,
       set_pool b (_strings b)
         (dict_set text (_string_idx b) (_home_replace_strings b))
         (_rel_paths b) (_string_idx b + 1))
  end.

(** [while text[-1] == "/": text = text[:-1]]; on the empty string
    [text[-1]] raises. *)
Fixpoint strip_trailing_slashes (fuel : nat) (text : str) : result str :=
  match rev text with
  | [] => Raise IndexError
  | last :: front_rev =>
      if last =? 47 then
        match fuel with
        | O => Raise OutOfFuel
        | S fuel' => strip_trailing_slashes fuel' (rev front_rev)
        end
      else Ok text
  end.

(** The head of [_add_path]: the table the text goes to ([true] for
    [_rel_paths], [false] for [_strings]) and the key it is stored
    under. *)
Definition route_path (text : str) : result (bool * str) :=
  if str_eqb text [126] then Ok (true, [])
  else if str_eqb (firstn 2 text) (py "~/") then Ok (true, skipn 2 text)
  else if negb (str_eqb text [47]) && negb (str_eqb text []) then
    t <- strip_trailing_slashes (length text) text ;; Ok (false, t)
  else Ok (false, text).

Definition _add_path (text : str) (b : Blocks) : result (Z * Blocks) :=
  routed <- route_path text ;;
  let '(rel, text') := routed in
  let group := if rel : bool then _rel_paths b else _strings b in
  match dict_get text' group with
  | Some idx => Ok (idx, b)
  | None =>
      let group' := dict_set text' (_string_idx b) group in
      Ok (_string_idx b,
          if rel
          then set_pool b (_strings b) (_home_replace_strings b) group'
                 (_string_idx b + 1)
          else set_pool b group' (_home_replace_strings b) (_rel_paths b)
                 (_string_idx b + 1))
  end.

(** [name.replace("//", "/")]: the occurrences are replaced from the left
    and do not overlap. *)
Fixpoint replace_double_slash (name : str) : str :=
  match name with
  | [] => []
  | c :: rest =>
      match rest with
      | c' :: rest' =>
          if (c =? 47) && (c' =? 47) then 47 :: replace_double_slash rest'
          else c :: replace_double_slash rest
      | [] => [c]
      end
  end.

Fixpoint normalize_loop (fuel : nat) (name : str) : str :=
  match fuel with
  | O => name
  | S fuel' =>
      if contains2 47 47 name
      then normalize_loop fuel' (replace_double_slash name)
      else name
  end.

(** Every turn of the [while] loop shortens [name], so its length is
    fuel enough. *)
Definition _normalize (name : str) : str :=
  let name1 := map (fun c => if c =? 92 then 47 else c) name in
  normalize_loop (length name1) name1.

(** [name.rindex("/")] *)
Fixpoint rindex_slash (name : str) : option nat :=
  match name with
  | [] => None
  | c :: rest =>
      match rindex_slash rest with
      | Some i => Some (S i)
      | None => if c =? 47 then Some 0%nat else None
      end
  end.

Definition _split (name : str) : str * str :=
  let name' := _normalize name in
  match rindex_slash name' with
  | None => (name', [])
  | Some pos => (firstn pos name', skipn (pos + 1) name')
  end.

(** [add_folder] calls itself on the parent, which is shorter. *)
Fixpoint add_folder_rec (fuel : nat) (folder_name : str) (b : Blocks)
  : result Blocks :=
  match fuel with
  | O => Raise OutOfFuel
  | S fuel' =>
      if str_eqb folder_name [47] || str_eqb folder_name [126] then Ok b
      else
        let '(parent, name) := _split folder_name in
        if str_eqb name [] then Ok b
        else
          let normalized := parent ++ [47] ++ name in
          if existsb (fun e => str_eqb (fst e) normalized) (_folders b)
          then Ok b
          else
            b1 <- add_folder_rec fuel' parent b ;;
            p <- _add_path parent b1 ;;
            let '(parent_idx, b2) := p in
            let '(name_idx, b3) := _add_string name b2 in
            block <- mk_block_folder parent_idx name_idx ;;
            Ok (set_folders b3 (_folders b3 ++ [(normalized, block)]))
  end.

Definition add_folder (folder_name : str) (b : Blocks) : result Blocks :=
  add_folder_rec (S (length folder_name)) folder_name b.

(** [x is None], for a value [x] that a function returned. *)
Definition is_None {A} (x : option A) : bool :=
  match x with
  | None => true
  | Some _ => false
  end.

(** [Blocks.add_local_text_file] *)
Definition add_local_text_file (h : Host) (game_file local_file : str)
  (b : Blocks) : Blocks :=
  let '(r, fm) :=
    FileManager_add_local_text_file h (_files b) game_file local_file in
  let b1 := set_files b fm in
  if is_None r then set_setup_problems b1 true else b1.

(** [Blocks.add_local_source_file] *)
Definition add_local_source_file (h : Host) (game_file local_file : str)
  (b : Blocks) : Blocks :=
  let '(r, fm) :=
    FileManager_add_local_source_file h (_files b) (Some game_file)
      local_file in
  let b1 := set_files b fm in
  if is_None r then set_setup_problems b1 true else b1.

(** The value tested with [is None] is the [bool] that
    [add_text_contents] returned. *)
Definition add_contents_file (game_file cont : str) (b : Blocks) : Blocks :=
  let '(r, fm) := add_text_contents (_files b) game_file cont in
  let b1 := set_files b fm in
  if is_None (Some r) then set_setup_problems b1 true else b1.

Definition add_test_file (h : Host) (name local_file : str) (b : Blocks)
  : Blocks :=
  let '(r, fm) :=
    FileManager_add_local_source_file h (_files b) None local_file in
  let b1 := set_files b fm in
  match r with
  | None => set_setup_problems b1 true
  | Some ref =>
      set_queues b1 (dict_set name ref (_test_files b1)) (_build_files b1)
        (_user_blocks b1) (_group_blocks b1)
        (_exec_blocks b1 ++ [ExecDeferred false name])
  end.

Definition add_build (source target : str) (b : Blocks) : result Blocks :=
  let '(target_p, target_n) := _split target in
  b1 <- add_folder target_p b ;;
  p <- _add_path target_p b1 ;;
  let '(dirname_idx, b2) := p in
  let '(fname_idx, b3) := _add_string target_n b2 in
  match get_game_file_ref (_files b3) source with
  | None =>
      s <- _add_path (_normalize source) b3 ;;
      let '(source_idx, b4) := s in
      block <- mk_block_build source_idx dirname_idx fname_idx ;;
      Ok (append_exec b4 (ExecBytes block))
  | Some ref =>
      Ok (set_queues b3 (_test_files b3)
            (dict_set source (ref, dirname_idx, fname_idx) (_build_files b3))
            (_user_blocks b3) (_group_blocks b3)
            (_exec_blocks b3 ++ [ExecDeferred true source]))
  end.

Definition _add_file (file_name cont : str) (replace_home : bool)
  (b : Blocks) : result (bytes * Blocks) :=
  let '(parent, name) := _split file_name in
  if str_eqb name [] then Raise AssertionError
  else
    b1 <- add_folder parent b ;;
    p <- _add_path parent b1 ;;
    let '(dirname_idx, b2) := p in
    let '(fname_idx, b3) := _add_string name b2 in
    let '(contents_idx, b4) :=
      if replace_home then _add_home_replace_string cont b3
      else _add_string cont b3 in
    block <- mk_block_file dirname_idx fname_idx contents_idx ;;
    Ok (block, b4).

Definition add_user (username password : str) (b : Blocks) : result Blocks :=
  let '(username_idx, b1) := _add_string username b in
  let '(password_idx, b2) := _add_string password b1 in
  block <- mk_block_user username_idx password_idx ;;
  Ok (set_queues b2 (_test_files b2) (_build_files b2)
        (_user_blocks b2 ++ [block]) (_group_blocks b2) (_exec_blocks b2)).

Definition add_group (username group : str) (b : Blocks) : result Blocks :=
  let '(username_idx, b1) := _add_string username b in
  let '(group_idx, b2) := _add_string group b1 in
  block <- mk_block_group username_idx group_idx ;;
  Ok (set_queues b2 (_test_files b2) (_build_files b2) (_user_blocks b2)
        (_group_blocks b2 ++ [block]) (_exec_blocks b2)).

Definition add_rm_user (username : str) (rm_home : bool) (b : Blocks)
  : result Blocks :=
  let '(username_idx, b1) := _add_string username b in
  block <- mk_block_rm_user username_idx rm_home ;;
  Ok (append_exec b1 (ExecBytes block)).

Definition add_rm_group (username group : str) (b : Blocks)
  : result Blocks :=
  let '(username_idx, b1) := _add_string username b in
  let '(group_idx, b2) := _add_string group b1 in
  block <- mk_block_rm_group username_idx group_idx ;;
  Ok (append_exec b2 (ExecBytes block)).

Definition add_chmod (file_name perms : str) (recursive : bool) (b : Blocks)
  : result Blocks :=
  f <- _add_path (_normalize file_name) b ;;
  let '(file_name_idx, b1) := f in
  let '(perms_idx, b2) := _add_string perms b1 in
  block <- mk_block_chmod file_name_idx perms_idx recursive ;;
  Ok (append_exec b2 (ExecBytes block)).

Definition add_chown (file_name username : str) (recursive : bool)
  (b : Blocks) : result Blocks :=
  f <- _add_path (_normalize file_name) b ;;
  let '(file_name_idx, b1) := f in
  let '(username_idx, b2) := _add_string username b1 in
  block <- mk_block_chown file_name_idx username_idx recursive ;;
  Ok (append_exec b2 (ExecBytes block)).

Definition add_chgroup (file_name group : str) (recursive : bool)
  (b : Blocks) : result Blocks :=
  f <- _add_path (_normalize file_name) b ;;
  let '(file_name_idx, b1) := f in
  let '(group_idx, b2) := _add_string group b1 in
  block <- mk_block_chgroup file_name_idx group_idx recursive ;;
  Ok (append_exec b2 (ExecBytes block)).

(** [[self._add_path(a) for a in args]] *)
Fixpoint add_paths (args : list str) (b : Blocks)
  : result (list Z * Blocks) :=
  match args with
  | [] => Ok ([], b)
  | a :: rest =>
      p <- _add_path a b ;;
      let '(idx, b1) := p in
      r <- add_paths rest b1 ;;
      let '(idxs, b2) := r in
      Ok (idx :: idxs, b2)
  end.

Definition add_launch (args : list str) (b : Blocks) : result Blocks :=
  r <- add_paths args b ;;
  let '(arg_idx, b1) := r in
  block <- mk_block_launch arg_idx ;;
  Ok (append_exec b1 (ExecBytes block)).

Definition add_copy (source target : str) (b : Blocks) : result Blocks :=
  s <- _add_path (_normalize source) b ;;
  let '(source_idx, b1) := s in
  let '(target_p, target_n) := _split target in
  b2 <- add_folder target_p b1 ;;
  p <- _add_path target_p b2 ;;
  let '(dirname_idx, b3) := p in
  let '(fname_idx, b4) := _add_string target_n b3 in
  block <- mk_block_copy source_idx dirname_idx fname_idx ;;
  Ok (append_exec b4 (ExecBytes block)).

Definition add_move (source target : str) (b : Blocks) : result Blocks :=
  s <- _add_path (_normalize source) b ;;
  let '(source_idx, b1) := s in
  let '(target_p, target_n) := _split target in
  b2 <- add_folder target_p b1 ;;
  p <- _add_path target_p b2 ;;
  let '(dirname_idx, b3) := p in
  let '(fname_idx, b4) := _add_string target_n b3 in
  block <- mk_block_move source_idx dirname_idx fname_idx ;;
  Ok (append_exec b4 (ExecBytes block)).

Definition add_delete (path : str) (b : Blocks) : result Blocks :=
  p <- _add_path (_normalize path) b ;;
  let '(path_idx, b1) := p in
  block <- mk_block_delete path_idx ;;
  Ok (append_exec b1 (ExecBytes block)).

(* ------------------------------------------------------------------ *)
(** ** [Blocks.assemble] *)

(** The loop over [file_to_contents]. *)
Fixpoint add_files (files : list ResolvedFile) (b : Blocks)
  : result (list bytes * Blocks) :=
  match files with
  | [] => Ok ([], b)
  | f :: rest =>
      r <- _add_file (game_path f) (r_contents f) (r_is_home_replaced f) b ;;
      let '(block, b1) := r in
      rs <- add_files rest b1 ;;
      let '(blocks, b2) := rs in
      Ok (block :: blocks, b2)
  end.

(** The loop over [self._exec_blocks]; [exec_blocks] is the list built so
    far. *)
Fixpoint resolve_exec (queue : list exec_block) (exec_blocks : list bytes)
  (b : Blocks) : result (list bytes * Blocks) :=
  match queue with
  | [] => Ok (exec_blocks, b)
  | ExecBytes block :: rest => resolve_exec rest (exec_blocks ++ [block]) b
  | ExecDeferred true name :: rest =>
      match dict_get name (_build_files b) with
      | None => Raise KeyError
      | Some (ref, dirname_idx, fname_idx) =>
          match get_game_file_by_ref (_files b) ref true with
          | Some ((_ :: _) as game_file) =>
              p <- _add_path game_file b ;;
              let '(idx, b1) := p in
              block <- mk_block_build idx dirname_idx fname_idx ;;
              resolve_exec rest (exec_blocks ++ [block]) b1
          | _ => resolve_exec rest exec_blocks (set_setup_problems b true)
          end
      end
  | ExecDeferred false name :: rest =>
      match dict_get name (_test_files b) with
      | None => Raise KeyError
      | Some ref =>
          match get_game_file_by_ref (_files b) ref true with
          | None => resolve_exec rest exec_blocks (set_setup_problems b true)
          | Some game_file =>
              let test_index := len exec_blocks in
              let '(name_index, b1) := _add_string name b in
              p <- _add_path game_file b1 ;;
              let '(file_index, b2) := p in
              block <- mk_block_test test_index name_index file_index ;;
              resolve_exec rest (exec_blocks ++ [block]) b2
          end
      end
  end.

Fixpoint string_blocks (table : dict str Z) (home : bool) : result bytes :=
  match table with
  | [] => Ok []
  | (text, idx) :: rest =>
      s <- mk_block_string idx text home ;;
      r <- string_blocks rest home ;;
      Ok (s ++ r)
  end.

Fixpoint rel_home_blocks (table : dict str Z) : result bytes :=
  match table with
  | [] => Ok []
  | (text, idx) :: rest =>
      s <- mk_block_rel_home idx text ;;
      r <- rel_home_blocks rest ;;
      Ok (s ++ r)
  end.

(** [sorted(self._folders, key=lambda a: a[0])] *)
Definition sorted_folders (b : Blocks) : list (str * bytes) :=
  sorted_by (fun x y => str_ltb (fst x) (fst y)) (_folders b).

(** [fuel] is handed to [process_file_map].  The result holds the bytes
    returned, [None] when the source returns [None], and the assembler as
    the call leaves it. *)
Definition assemble (h : Host) (fuel : nat) (b : Blocks)
  : result (option bytes * Blocks) :=
  r <- process_file_map h fuel (_files b) ;;
  let '(file_to_contents, fm) := r in
  let b0 := set_files b fm in
  match file_to_contents with
  | None => Ok (None, b0)
  | Some files =>
      fb <- add_files files b0 ;;
      let '(file_blocks, b1) := fb in
      eb <- resolve_exec (_exec_blocks b1) [] b1 ;;
      let '(exec_blocks, b2) := eb in
      hd <- mk_block_header FILE_VERSION__UNCOMPRESSED ;;
      s1 <- string_blocks (_strings b2) false ;;
      s2 <- string_blocks (_home_replace_strings b2) true ;;
      s3 <- rel_home_blocks (_rel_paths b2) ;;
      let ret :=
        hd ++ s1 ++ s2 ++ s3
          ++ concat (map snd (sorted_folders b2))
          ++ concat file_blocks
          ++ concat (_user_blocks b2)
          ++ concat (_group_blocks b2)
          ++ concat exec_blocks in
      if _setup_problems b2 then Ok (None, b2) else Ok (Some ret, b2)
  end.

Definition mk_initial_blocks : result Blocks := add_folder TEMP_DIR new_Blocks.

(* ------------------------------------------------------------------ *)
(** ** Parse the JSON data *)

(** [data.get(key)]: [None], here [JNull], when the key is absent. *)
Definition json_get (key : string) (data : list (str * json)) : json :=
  match dict_get (py key) data with
  | Some v => v
  | None => JNull
  end.

(** The truth value of a Python object. *)
Definition json_truthy (v : json) : bool :=
  match v with
  | JNull => false
  | JBool b => b
  | JInt n => negb (n =? 0)
  | JFloat is_zero => negb is_zero
  | JStr s => negb (str_eqb s [])
  | JList l => match l with [] => false | _ => true end
  | JObj o => match o with [] => false | _ => true end
  | PyTuple l => match l with [] => false | _ => true end
  end.

(** What a parser returns, with the assembler as it leaves it. *)
Definition parsed : Type := result (bool * Blocks).

Definition done (ok : bool) (r : result Blocks) : parsed :=
  b <- r ;; Ok (ok, b).

Definition parse_folder_block (blocks : Blocks) (data : list (str * json))
  (_context_dir : str) : parsed :=
  match json_get "path" data with
  | JStr name => done true (add_folder name blocks)
  | _ => Ok (false, blocks)
  end.

Definition parse_file_block (h : Host) (blocks : Blocks)
  (data : list (str * json)) (context_dir : str) : parsed :=
  let name := json_get "path" data in
  let cont := json_get "contents" data in
  let local_file := json_get "local" data in
  match name with
  | JStr name' =>
      match cont, local_file with
      | JStr c, _ =>
          if json_truthy cont then Ok (true, add_contents_file name' c blocks)
          else
            match local_file with
            | JNull => Raise AssertionError
            | JStr l =>
                Ok (true,
                    add_local_text_file h name' (join h context_dir l) blocks)
            | _ => Raise TypeError
            end
      | _, JStr l =>
          (* contents is not a string: a true value reaches the store and
             fails when it is used as text *)
          if json_truthy cont then Raise TypeError
          else
            Ok (true,
                add_local_text_file h name' (join h context_dir l) blocks)
      | _, _ => Ok (false, blocks)
      end
  | _ => Ok (false, blocks)
  end.

Definition parse_source_block (h : Host) (blocks : Blocks)
  (data : list (str * json)) (context_dir : str) : parsed :=
  match json_get "path" data, json_get "local" data with
  | JStr name, JStr local_file =>
      Ok (true,
          add_local_source_file h name (join h context_dir local_file)
            blocks)
  | _, _ => Ok (false, blocks)
  end.

(** The inner loop of [parse_test_block], over the files of one pattern. *)
Fixpoint add_test_files (h : Host) (name : str) (filenames : list str)
  (count : Z) (blocks : Blocks) : Z * Blocks :=
  match filenames with
  | [] => (count, blocks)
  | filename :: rest =>
      if isfile h filename then
        let test_name :=
          name ++ py "-" ++ fst (splitext h (basename h filename)) in
        add_test_files h name rest (count + 1)
          (add_test_file h test_name filename blocks)
      else add_test_files h name rest count blocks
  end.

(** The outer loop, over the patterns. *)
Fixpoint add_test_patterns (h : Host) (name context_dir : str)
  (patterns : list json) (count : Z) (blocks : Blocks)
  : result (Z * Blocks) :=
  match patterns with
  | [] => Ok (count, blocks)
  | JStr l_f :: rest =>
      let '(count', blocks') :=
        add_test_files h name (iglob h (join h context_dir l_f)) count
          blocks in
      add_test_patterns h name context_dir rest count' blocks'
  | _ :: _ => Raise TypeError
  end.

Definition parse_test_block (h : Host) (blocks : Blocks)
  (data : list (str * json)) (context_dir : str) : parsed :=
  match json_get "name" data with
  | JStr name =>
      let local_file := json_get "local" data in
      match
        match local_file with
        | JStr s => Some [JStr s]
        | JList l => Some l
        | PyTuple l => Some l
        | _ => None
        end
      with
      | None => Ok (false, blocks)
      | Some patterns =>
          r <- add_test_patterns h name context_dir patterns 0 blocks ;;
          let '(count, blocks') := r in
          if count <=? 0 then Ok (false, blocks') else Ok (true, blocks')
      end
  | _ => Ok (false, blocks)
  end.

Definition parse_build_block (blocks : Blocks) (data : list (str * json))
  (_context_dir : str) : parsed :=
  match json_get "source" data, json_get "target" data with
  | JStr source, JStr target => done true (add_build source target blocks)
  | _, _ => Ok (false, blocks)
  end.

Definition parse_compile_block (h : Host) (blocks : Blocks)
  (data : list (str * json)) (context_dir : str) : parsed :=
  let test_files := json_get "local-tests" data in
  match json_get "local" data, json_get "target" data with
  | JStr local_file, JStr target =>
      let source_name :=
        TEMP_DIR ++ py "/build.source/" ++ basename h local_file in
      let blocks1 :=
        add_local_source_file h source_name (join h context_dir local_file)
          blocks in
      t <-
        (if json_truthy test_files
            && match test_files with
               | JStr _ | JList _ | PyTuple _ => true
               | _ => false
               end
         then
           parse_test_block h blocks1
             [(py "name", JStr (fst (splitext h (basename h local_file))));
              (py "local", test_files)]
             context_dir
         else Ok (true, blocks1)) ;;
      let '(ret, blocks2) := t in
      done ret (add_build source_name target blocks2)
  | _, _ => Ok (false, blocks)
  end.

Definition parse_user_block (blocks : Blocks) (data : list (str * json))
  (_context_dir : str) : parsed :=
  match json_get "user" data, json_get "password" data with
  | JStr user, JStr passwd => done true (add_user user passwd blocks)
  | _, _ => Ok (false, blocks)
  end.

Definition parse_group_block (blocks : Blocks) (data : list (str * json))
  (_context_dir : str) : parsed :=
  match json_get "user" data, json_get "group" data with
  | JStr user, JStr group => done true (add_group user group blocks)
  | _, _ => Ok (false, blocks)
  end.

Definition parse_rm_user_block (blocks : Blocks) (data : list (str * json))
  (_context_dir : str) : parsed :=
  Ok (true, blocks).

Definition parse_rm_group_block (blocks : Blocks) (data : list (str * json))
  (_context_dir : str) : parsed :=
  Ok (true, blocks).

(** [data.get("recursive", False)] *)
Definition get_recursive (data : list (str * json)) : json :=
  match dict_get (py "recursive") data with
  | Some v => v
  | None => JBool false
  end.

Definition parse_chmod_block (blocks : Blocks) (data : list (str * json))
  (_context_dir : str) : parsed :=
  match json_get "path" data, json_get "permissions" data,
        get_recursive data with
  | JStr filename, JStr permissions, JBool recursive =>
      done true (add_chmod filename permissions recursive blocks)
  | _, _, _ => Ok (false, blocks)
  end.

(** [owner.find(":")], [-1] when there is none. *)
Fixpoint find_colon (owner : str) : Z :=
  match owner with
  | [] => -1
  | c :: rest =>
      if c =? 58 then 0
      else let r := find_colon rest in if r <? 0 then -1 else r + 1
  end.

Definition parse_chown_block (blocks : Blocks) (data : list (str * json))
  (_context_dir : str) : parsed :=
  let owner := json_get "owner" data in
  let user := json_get "user" data in
  match json_get "path" data, get_recursive data with
  | JStr filename, JBool recursive =>
      match owner with
      | JStr owner' =>
          if json_truthy user then Ok (false, blocks)
          else
            let cpos := find_colon owner' in
            if (0 <=? cpos) && (cpos <? len owner' - 1) then
              done true
                (b1 <- add_chown filename (firstn (Z.to_nat cpos) owner')
                         recursive blocks ;;
                 add_chgroup filename (skipn (Z.to_nat (cpos + 1)) owner')
                   recursive b1)
            else done true (add_chown filename owner' recursive blocks)
      | _ =>
          match user with
          | JStr user' => done true (add_chown filename user' recursive blocks)
          | _ => Ok (false, blocks)
          end
      end
  | _, _ => Ok (false, blocks)
  end.

Definition parse_chgroup_block (blocks : Blocks) (data : list (str * json))
  (_context_dir : str) : parsed :=
  match json_get "path" data, json_get "group" data, get_recursive data with
  | JStr filename, JStr group, JBool recursive =>
      done true (add_chgroup filename group recursive blocks)
  | _, _, _ => Ok (false, blocks)
  end.

(** The elements of [[filename, *arguments]] go to [_add_path], which
    needs strings. *)
Fixpoint as_strs (l : list json) : result (list str) :=
  match l with
  | [] => Ok []
  | JStr s :: rest => r <- as_strs rest ;; Ok (s :: r)
  | _ :: _ => Raise TypeError
  end.

Definition parse_launch_block (blocks : Blocks) (data : list (str * json))
  (_context_dir : str) : parsed :=
  let filename := json_get "cmd" data in
  let arguments0 := json_get "arguments" data in
  let arguments1 :=
    match arguments0 with JNull => PyTuple [] | _ => arguments0 end in
  let arguments :=
    match arguments1 with JStr s => JList [JStr s] | _ => arguments1 end in
  match filename, arguments with
  | JStr filename', PyTuple args =>
      done true
        (a <- as_strs args ;; add_launch (filename' :: a) blocks)
  | _, _ => Ok (false, blocks)
  end.

Definition parse_copy_block (blocks : Blocks) (data : list (str * json))
  (_context_dir : str) : parsed :=
  match json_get "from" data, json_get "to" data with
  | JStr from_file, JStr to_file =>
      done true (add_copy from_file to_file blocks)
  | _, _ => Ok (false, blocks)
  end.

Definition parse_move_block (blocks : Blocks) (data : list (str * json))
  (_context_dir : str) : parsed :=
  match json_get "from" data, json_get "to" data with
  | JStr from_file, JStr to_file =>
      done true (add_move from_file to_file blocks)
  | _, _ => Ok (false, blocks)
  end.

Definition parse_delete_block (blocks : Blocks) (data : list (str * json))
  (_context_dir : str) : parsed :=
  match json_get "path" data with
  | JStr filename => done true (add_delete filename blocks)
  | _ => Ok (false, blocks)
  end.

Definition parse_about_block (blocks : Blocks) (data : list (str * json))
  (_context_dir : str) : parsed :=
  Ok (true, blocks).

(** [bundle] stands for [process_bundle_file], which this parser calls
    and which calls the parsers in turn. *)
Definition parse_bundle_block (h : Host)
  (bundle : Blocks -> str -> parsed) (blocks : Blocks)
  (data : list (str * json)) (context_dir : str) : parsed :=
  match json_get "local" data with
  | JStr local_file => bundle blocks (join h context_dir local_file)
  | _ => Ok (false, blocks)
  end.

Definition parser : Type :=
  Host -> (Blocks -> str -> parsed) ->
  Blocks -> list (str * json) -> str -> parsed.

Definition BLOCK_TYPE_COMMANDS : list (string * parser) :=
  [ ("folder", fun _ _ => parse_folder_block);
    ("file", fun h _ => parse_file_block h);
    ("source", fun h _ => parse_source_block h);
    ("test", fun h _ => parse_test_block h);
    ("build", fun _ _ => parse_build_block);
    ("compile", fun h _ => parse_compile_block h);
    ("user", fun _ _ => parse_user_block);
    ("group", fun _ _ => parse_group_block);
    ("rm-user", fun _ _ => parse_rm_user_block);
    ("rm-group", fun _ _ => parse_rm_group_block);
    ("chmod", fun _ _ => parse_chmod_block);
    ("chown", fun _ _ => parse_chown_block);
    ("chgroup", fun _ _ => parse_chgroup_block);
    ("exec", fun _ _ => parse_launch_block);
    ("run", fun _ _ => parse_launch_block);
    ("copy", fun _ _ => parse_copy_block);
    ("cp", fun _ _ => parse_copy_block);
    ("move", fun _ _ => parse_move_block);
    ("mv", fun _ _ => parse_move_block);
    ("rename", fun _ _ => parse_move_block);
    ("ren", fun _ _ => parse_move_block);
    ("delete", fun _ _ => parse_delete_block);
    ("del", fun _ _ => parse_delete_block);
    ("rm", fun _ _ => parse_delete_block);
    ("about", fun _ _ => parse_about_block);
    ("bundle", parse_bundle_block) ]%string.

(** [BLOCK_TYPE_COMMANDS.get(cmd)] *)
Definition get_parser (cmd : str) : option parser :=
  match find (fun e => str_eqb (py (fst e)) cmd) BLOCK_TYPE_COMMANDS with
  | Some e => Some (snd e)
  | None => None
  end.

(** [str(value.get("type", ""))].  For a value that is not a string the
    text is not modelled: it is a number, [None], [True], [False], or
    starts with a bracket, and none of these is a block type. *)
Definition block_type (value : list (str * json)) : option str :=
  match dict_get (py "type") value with
  | None => Some []
  | Some (JStr s) => Some s
  | Some _ => None
  end.

Definition parse_block_cmd_with (h : Host)
  (bundle : Blocks -> str -> parsed) (blocks : Blocks) (value : json)
  (context_dir : str) : parsed :=
  match value with
  | JObj value' =>
      match
        match block_type value' with
        | Some cmd => get_parser cmd
        | None => None
        end
      with
      | None => Ok (false, blocks)
      | Some p => p h bundle blocks value' context_dir
      end
  | _ => Raise AttributeError
  end.

(** The loop of [parse_json]; what [parse_block_cmd] returns is dropped. *)
Fixpoint parse_blocks_with (h : Host) (bundle : Blocks -> str -> parsed)
  (blocks : Blocks) (data : list json) (context_dir : str)
  : result Blocks :=
  match data with
  | [] => Ok blocks
  | block :: rest =>
      r <- parse_block_cmd_with h bundle blocks block context_dir ;;
      parse_blocks_with h bundle (snd r) rest context_dir
  end.

Definition parse_json_with (h : Host) (bundle : Blocks -> str -> parsed)
  (blocks : Blocks) (data : json) (context_dir : str) : result Blocks :=
  match data with
  | JList l | PyTuple l => parse_blocks_with h bundle blocks l context_dir
  | _ => Ok blocks
  end.

(** [fuel] bounds the depth to which bundle files include bundle files. *)
Fixpoint process_bundle_file (h : Host) (fuel : nat) (blocks : Blocks)
  (filename : str) : parsed :=
  match fuel with
  | O => Raise OutOfFuel
  | S fuel' =>
      let fqn := abspath h filename in
      if existsb (str_eqb fqn) (bundle_files blocks) then Ok (true, blocks)
      else
        let blocks1 :=
          set_bundle_files blocks (bundle_files blocks ++ [fqn]) in
        match read_json h filename with
        | None => Ok (false, blocks1)
        | Some data =>
            b <- parse_json_with h (process_bundle_file h fuel') blocks1 data
                   (dirname h filename) ;;
            Ok (true, b)
        end
  end.

Definition parse_block_cmd (h : Host) (fuel : nat) (blocks : Blocks)
  (value : json) (context_dir : str) : parsed :=
  parse_block_cmd_with h (process_bundle_file h fuel) blocks value
    context_dir.

Definition parse_json (h : Host) (fuel : nat) (blocks : Blocks)
  (data : json) (context_dir : str) : result Blocks :=
  parse_json_with h (process_bundle_file h fuel) blocks data context_dir.

(* ------------------------------------------------------------------ *)
(** ** Compression *)

(** [Counter]: [histo[k] += 1] *)
Definition counter_incr (k : bytes) (histo : dict bytes Z) : dict bytes Z :=
  match dict_get k histo with
  | Some n => dict_set k (n + 1) histo
  | None => dict_set k 1 histo
  end.

(** [Counter.most_common()]: by decreasing count, and in the order of
    first appearance among equal counts. *)
Definition most_common_all (histo : dict bytes Z) : list (bytes * Z) :=
  sorted_by (fun y x => snd x <? snd y) histo.

(** [Counter.most_common(n)] *)
Definition most_common (n : nat) (histo : dict bytes Z) : list (bytes * Z) :=
  firstn n (most_common_all histo).

(** The two nested loops that count the substrings of 2 to 15 bytes. *)
Definition substring_histogram (body : bytes) : dict bytes Z :=
  fold_left
    (fun histo count =>
       fold_left
         (fun histo pos => counter_incr (slice body pos (pos + count)) histo)
         (seq 0 (length body + 1 - count)) histo)
    (seq 2 14) [].

Definition single_value_histogram (body : bytes) : dict bytes Z :=
  fold_left (fun histo val => counter_incr [val] histo) body [].

(** The last loop of [compress_dictionary_creation]; the state is
    [(max_len, ret, index)]. *)
Definition number_entries (common : list (bytes * Z))
  : nat * dict bytes Z * Z :=
  fold_left
    (fun st e =>
       let '(max_len, ret, index) := st in
       (Nat.max max_len (length (fst e)), dict_set (fst e) index ret,
        index + 1))
    common (0%nat, [], 0).

Definition compress_dictionary_creation (body : bytes)
  : result (nat * dict bytes Z) :=
  let histo := substring_histogram body in
  let single_values := single_value_histogram body in
  let common :=
    most_common (4095 - length single_values) histo
      ++ most_common_all single_values in
  let common' := sorted_by (fun y x => snd y <? snd x) common in
  if negb (len common' <=? 4095) then Raise AssertionError
  else
    let '(max_len, ret, _) := number_entries common' in
    Ok (max_len, ret).

(** The inner [while tail > pos] loop; [n] is [tail - pos].  Returns the
    index found and the new position. *)
Fixpoint longest_match (body : bytes) (reverse_lookup : dict bytes Z)
  (pos n : nat) : option (Z * nat) :=
  match n with
  | O => None
  | S n' =>
      match dict_get (slice body pos (pos + n)) reverse_lookup with
      | Some index => Some (index, (pos + n)%nat)
      | None => longest_match body reverse_lookup pos n'
      end
  end.

(** The outer [while pos < body_len] loop. *)
Fixpoint encode_from (fuel : nat) (body : bytes) (max_item_len : nat)
  (reverse_lookup : dict bytes Z) (pos : nat) (ret : list Z)
  : result (list Z) :=
  if (pos <? length body)%nat then
    match fuel with
    | O => Raise OutOfFuel
    | S fuel' =>
        let tail := Nat.min (pos + max_item_len + 1) (length body) in
        match longest_match body reverse_lookup pos (tail - pos) with
        | Some (index, pos') =>
            encode_from fuel' body max_item_len reverse_lookup pos'
              (ret ++ [index])
        | None => Raise RuntimeError
        end
    end
  else Ok ret.

(** Every turn moves [pos] forward, so the length of the body is fuel
    enough. *)
Definition compress_encoded_body (body : bytes) (max_item_len : nat)
  (reverse_lookup : dict bytes Z) : result (list Z) :=
  encode_from (length body) body max_item_len reverse_lookup 0 [].

(** [{index: key for key, index in reverse_lookup.items()}], as the loops
    at the head of [compress_compacted_body_lookup] and of
    [mk_compress_header] build it. *)
Definition invert (reverse_lookup : dict bytes Z) : dict Z bytes :=
  fold_left (fun lookup e => dict_set (snd e) (fst e) lookup)
    reverse_lookup [].

(** [d[k]] *)
Definition dict_at {K V} `{EqDec K} (k : K) (d : dict K V) : result V :=
  match dict_get k d with
  | Some v => Ok v
  | None => Raise KeyError
  end.

Fixpoint map_result {A B} (f : A -> result B) (l : list A)
  : result (list B) :=
  match l with
  | [] => Ok []
  | x :: l' =>
      y <- f x ;;
      r <- map_result f l' ;;
      Ok (y :: r)
  end.

Section Compress.

(** [list(s)] for a set [s] of integers built from the list given: the
    order in which a set hands out its elements is not fixed by the
    language, so it is left open here. *)
Variable set_to_list : list Z -> list Z.

(** The loop that fills [old_to_new] and [translated]; the state is
    [(old_to_new, translated, count)]. *)
Fixpoint renumber (lookup : dict Z bytes) (used_indicies : list Z)
  (st : dict Z Z * dict bytes Z * Z)
  : result (dict Z Z * dict bytes Z * Z) :=
  match used_indicies with
  | [] => Ok st
  | orig_idx :: rest =>
      let '(old_to_new, translated, count) := st in
      sub <- dict_at orig_idx lookup ;;
      renumber lookup rest
        (dict_set orig_idx count old_to_new, dict_set sub count translated,
         count + 1)
  end.

Definition compress_compacted_body_lookup (encoded : list Z)
  (reverse_lookup : dict bytes Z) : result (list Z * dict bytes Z) :=
  let lookup := invert reverse_lookup in
  let used_indicies := set_to_list encoded in
  keyed <-
    map_result
      (fun v => sub <- dict_at v lookup ;; Ok (v, length sub))
      used_indicies ;;
  let used_indicies' :=
    map fst (sorted_by (fun y x => (snd y <? snd x)%nat) keyed) in
  st <- renumber lookup used_indicies' ([], [], 0) ;;
  let '(old_to_new, translated, _) := st in
  recoded <- map_result (fun orig_idx => dict_at orig_idx old_to_new)
               encoded ;;
  Ok (recoded, translated).

(** The first loop of [mk_compress_header], with its assertion. *)
Fixpoint invert_checked (items : list (bytes * Z)) (lookup : dict Z bytes)
  : result (dict Z bytes) :=
  match items with
  | [] => Ok lookup
  | (key, index) :: rest =>
      if dict_mem index lookup then Raise AssertionError
      else invert_checked rest (dict_set index key lookup)
  end.

(** [sized_ordered[-1].append(val)] *)
Fixpoint append_to_last (sized_ordered : list (list bytes)) (val : bytes)
  : result (list (list bytes)) :=
  match sized_ordered with
  | [] => Raise IndexError
  | [g] => Ok [g ++ [val]]
  | g :: rest => r <- append_to_last rest val ;; Ok (g :: r)
  end.

(** The loop over [range(1, len(lookup))]; the state is
    [(sized_ordered, prev_len)]. *)
Fixpoint group_by_size (lookup : dict Z bytes) (idxs : list nat)
  (st : list (list bytes) * nat) : result (list (list bytes) * nat) :=
  match idxs with
  | [] => Ok st
  | idx :: rest =>
      let '(sized_ordered, prev_len) := st in
      val <- dict_at (Z.of_nat idx) lookup ;;
      let '(sized_ordered1, prev_len1) :=
        if negb (length val =? prev_len)%nat
        then (sized_ordered ++ [[]], length val)
        else if (15 <=? length (last sized_ordered []))%nat
        then (sized_ordered ++ [[]], prev_len)
        else (sized_ordered, prev_len) in
      sized_ordered2 <- append_to_last sized_ordered1 val ;;
      group_by_size lookup rest (sized_ordered2, prev_len1)
  end.

(** The loop over the groups. *)
Fixpoint emit_groups (sized_ordered : list (list bytes)) : result bytes :=
  match sized_ordered with
  | [] => Ok []
  | group :: rest =>
      match group with
      | [] => Raise IndexError
      | item0 :: _ =>
          let item_len := len item0 in
          let item_count := len group in
          if negb ((0 <? item_len) && (item_len <=? 16))
          then Raise AssertionError
          else if negb ((0 <? item_count) && (item_count <? 16))
          then Raise AssertionError
          else
            let group_header :=
              Z.lor (Z.shiftl (item_len - 1) 4) item_count in
            hd <- mk_uint8 group_header ;;
            r <- emit_groups rest ;;
            Ok (hd ++ concat group ++ r)
      end
  end.

Definition mk_compress_header (reverse_lookup : dict bytes Z)
  : result bytes :=
  lookup <- invert_checked reverse_lookup [] ;;
  match dict_get 0 lookup with
  | None => Raise AssertionError
  | Some first =>
      st <- group_by_size lookup (seq 1 (length lookup - 1))
              ([[first]], length first) ;;
      header <- emit_groups (fst st) ;;
      z <- mk_uint8 0 ;;
      Ok (header ++ z)
  end.

(** The loop of [mk_encoded_body]; the state is
    [(ret, remainder, is_odd)]. *)
Definition encode_step (st : bytes * Z * bool) (idx : Z) : bytes * Z * bool :=
  let '(ret, remainder, is_odd) := st in
  if is_odd then
    (ret ++ [Z.lor remainder (Z.land (Z.shiftr idx 8) 15)]
         ++ [Z.land idx 255],
     remainder, negb is_odd)
  else
    (ret ++ [Z.land (Z.shiftr idx 4) 255],
     Z.land (Z.shiftl idx 4) 240, negb is_odd).

Definition mk_encoded_body (encoded : list Z) (table_size : Z) : bytes :=
  let '(ret, remainder, is_odd) :=
    fold_left encode_step encoded ([], 0, false) in
  if is_odd then
    ret ++ [Z.lor remainder (Z.land (Z.shiftr table_size 8) 15)]
        ++ [Z.land table_size 255]
  else
    ret ++ [Z.land (Z.shiftr table_size 4) 255]
        ++ [Z.land (Z.shiftl table_size 4) 240].

Definition compress (body : bytes) : result bytes :=
  d <- compress_dictionary_creation body ;;
  let '(max_len, reverse_lookup) := d in
  encoded <- compress_encoded_body body max_len reverse_lookup ;;
  c <- compress_compacted_body_lookup encoded reverse_lookup ;;
  let '(encoded', reverse_lookup') := c in
  ret <- mk_block_header FILE_VERSION__COMPRESSED ;;
  header <- mk_compress_header reverse_lookup' ;;
  Ok (ret ++ header ++ mk_encoded_body encoded' (len reverse_lookup')).

End Compress.

(* ------------------------------------------------------------------ *)
(** ** Reading a compressed stream back *)

(** [count] dictionary entries of [item_len] bytes each. *)
Fixpoint read_entries (count item_len : nat) (data : bytes)
  : option (list bytes * bytes) :=
  match count with
  | O => Some ([], data)
  | S count' =>
      if (length data <? item_len)%nat then None
      else
        match read_entries count' item_len (skipn item_len data) with
        | Some (entries, rest) => Some (firstn item_len data :: entries, rest)
        | None => None
        end
  end.

(** Modelled from the spec: the reader of the dictionary header, which
    belongs to the extractor and is not among the sources.  A group
    starts with one byte, the item length less one in the high four bits
    and the item count in the low four; the items follow; a zero byte
    ends the dictionary.  [fuel] bounds the number of groups. *)
Fixpoint read_dictionary (fuel : nat) (data : bytes)
  : option (list bytes * bytes) :=
  match data with
  | [] => None
  | group_header :: data' =>
      if group_header =? 0 then Some ([], data')
      else
        match fuel with
        | O => None
        | S fuel' =>
            let item_len := S (Z.to_nat (Z.shiftr group_header 4)) in
            let item_count := Z.to_nat (Z.land group_header 15) in
            match read_entries item_count item_len data' with
            | None => None
            | Some (entries, rest) =>
                match read_dictionary fuel' rest with
                | Some (more, rest') => Some (entries ++ more, rest')
                | None => None
                end
            end
        end
  end.

(** The entry for one codeword: [None] at the sentinel, which is the
    size of the dictionary, and an error above it. *)
Definition lookup_code (dictionary : list bytes) (code : Z)
  : option (option bytes) :=
  if code =? len dictionary then Some None
  else
    match nth_error dictionary (Z.to_nat code) with
    | Some entry => if 0 <=? code then Some (Some entry) else None
    | None => None
    end.

(** Modelled from the spec: the reader of the body, which belongs to the
    extractor and is not among the sources.  The codewords have 12 bits
    and are packed big-endian, two to three bytes; each is replaced by
    its dictionary entry, and the codeword equal to the size of the
    dictionary ends the stream. *)
Fixpoint decode_body (dictionary : list bytes) (data : bytes)
  : option bytes :=
  match data with
  | b0 :: b1 :: rest =>
      let code0 := Z.lor (Z.shiftl b0 4) (Z.shiftr b1 4) in
      match lookup_code dictionary code0 with
      | None => None
      | Some None => Some []
      | Some (Some entry0) =>
          match rest with
          | b2 :: rest' =>
              let code1 := Z.lor (Z.shiftl (Z.land b1 15) 8) b2 in
              match lookup_code dictionary code1 with
              | None => None
              | Some None => Some entry0
              | Some (Some entry1) =>
                  match decode_body dictionary rest' with
                  | Some out => Some (entry0 ++ entry1 ++ out)
                  | None => None
                  end
              end
          | [] => None
          end
      end
  | _ => None
  end.

(** Modelled from the spec: decompression.  The stream opens with the
    header chunk of a compressed file (kind 0, four bytes of payload,
    version 2, reserved 0); the dictionary and the body follow. *)
Definition decompress (data : bytes) : option bytes :=
  match data with
  | 0 :: 0 :: 4 :: 0 :: 2 :: 0 :: 0 :: rest =>
      match read_dictionary (length rest) rest with
      | Some (dictionary, body) => decode_body dictionary body
      | None => None
      end
  | _ => None
  end.

(** The codewords of a packed body, up to and including the first one
    that equals [table_size]. *)
Fixpoint codewords (table_size : Z) (data : bytes) : option (list Z) :=
  match data with
  | b0 :: b1 :: rest =>
      let code0 := Z.lor (Z.shiftl b0 4) (Z.shiftr b1 4) in
      if code0 =? table_size then Some [code0]
      else
        match rest with
        | b2 :: rest' =>
            let code1 := Z.lor (Z.shiftl (Z.land b1 15) 8) b2 in
            if code1 =? table_size then Some [code0; code1]
            else
              match codewords table_size rest' with
              | Some l => Some (code0 :: code1 :: l)
              | None => None
              end
        | [] => None
        end
  | _ => None
  end.

(* ------------------------------------------------------------------ *)
(** ** Runs of the assembler *)

(** A host without any file. *)
Definition empty_host : Host :=
  {| isfile := fun _ => false;
     read_text := fun _ => inl OSError;
     read_json := fun _ => None;
     abspath := fun p => p;
     dirname := fun p => fst (_split p);
     basename := fun p => snd (_split p);
     join := fun a b => a ++ [47] ++ b;
     splitext := fun p => (p, []);
     iglob := fun _ => [] |}.

(** The public operations of [Blocks]. *)
Inductive op : Type :=
| OpAddFolder (folder_name : str)
| OpAddLocalTextFile (game_file local_file : str)
| OpAddLocalSourceFile (game_file local_file : str)
| OpAddContentsFile (game_file cont : str)
| OpAddTestFile (name local_file : str)
| OpAddBuild (source target : str)
| OpAddUser (username password : str)
| OpAddGroup (username group : str)
| OpAddRmUser (username : str) (rm_home : bool)
| OpAddRmGroup (username group : str)
| OpAddChmod (file_name perms : str) (recursive : bool)
| OpAddChown (file_name username : str) (recursive : bool)
| OpAddChgroup (file_name group : str) (recursive : bool)
| OpAddLaunch (args : list str)
| OpAddCopy (source target : str)
| OpAddMove (source target : str)
| OpAddDelete (path : str)
| OpAssemble (fuel : nat).

Definition run_op (h : Host) (o : op) (b : Blocks) : result Blocks :=
  match o with
  | OpAddFolder folder_name => add_folder folder_name b
  | OpAddLocalTextFile g l => Ok (add_local_text_file h g l b)
  | OpAddLocalSourceFile g l => Ok (add_local_source_file h g l b)
  | OpAddContentsFile g c => Ok (add_contents_file g c b)
  | OpAddTestFile n l => Ok (add_test_file h n l b)
  | OpAddBuild s t => add_build s t b
  | OpAddUser u p => add_user u p b
  | OpAddGroup u g => add_group u g b
  | OpAddRmUser u r => add_rm_user u r b
  | OpAddRmGroup u g => add_rm_group u g b
  | OpAddChmod f p r => add_chmod f p r b
  | OpAddChown f u r => add_chown f u r b
  | OpAddChgroup f g r => add_chgroup f g r b
  | OpAddLaunch args => add_launch args b
  | OpAddCopy s t => add_copy s t b
  | OpAddMove s t => add_move s t b
  | OpAddDelete p => add_delete p b
  | OpAssemble fuel => r <- assemble h fuel b ;; Ok (snd r)
  end.

(** The assemblers that a run can reach from [Blocks()]. *)
Inductive reachable (h : Host) : Blocks -> Prop :=
| reach_new : reachable h new_Blocks
| reach_step (b b' : Blocks) (o : op) :
    reachable h b -> run_op h o b = Ok b' -> reachable h b'.

(** The parent and the name of a folder, as [add_folder] records them:
    the path is cut at its last slash. *)
Definition is_folder_of (parent name path : str) : Prop :=
  path = parent ++ 47 :: name /\ ~ In 47 name.

(** The property of the folder chunks as the specification words it:
    the parent of every folder is the root or stands earlier. *)
Definition parents_are_roots_or_earlier (paths : list str) : Prop :=
  forall i path,
    nth_error paths i = Some path ->
    exists parent name,
      is_folder_of parent name path
      /\ ((parent = [47] \/ parent = [126] \/ parent = [])
          \/ exists j, (j < i)%nat /\ nth_error paths j = Some parent).

(** The same with a parent that holds no slash in the place of the
    root: [add_folder] does not record such a parent. *)
Definition parents_are_bare_or_earlier (paths : list str) : Prop :=
  forall i path,
    nth_error paths i = Some path ->
    exists parent name,
      is_folder_of parent name path
      /\ (~ In 47 parent
          \/ exists j, (j < i)%nat /\ nth_error paths j = Some parent).

(** The number of lines that [\n] separates. *)
Definition line_count (s : str) : nat := length (split_newline s).

(* ------------------------------------------------------------------ *)
(** ** Notions the properties are stated with *)

(** The index that the string pool holds for a path, found the way
    [_add_path] finds it. *)
Definition path_index (text : str) (b : Blocks) : option Z :=
  match route_path text with
  | Ok (rel, key) =>
      dict_get key (if rel : bool then _rel_paths b else _strings b)
  | Raise _ => None
  end.

(** Two bytes for each reference, high byte first. *)
Definition refs (indices : list Z) : bytes :=
  flat_map (fun i => [Z.shiftr i 8; Z.land i 255]) indices.

(** The block of scenario 5 of the specification, of type [launch]. *)
Definition launch_manifest : json :=
  JObj [ (py "type", JStr (py "launch")); (py "cmd", JStr (py "/bin/sh"));
         (py "arguments", JList [JStr (py "-c"); JStr (py "echo hi")]) ].

(** Is [ty] one of the two names of the launch parser? *)
Definition is_exec_or_run (ty : str) : Prop := ty = py "exec" \/ ty = py "run".

(** A path without a double slash and without a backslash. *)
Definition clean_path (s : str) : Prop :=
  contains2 47 47 s = false /\ ~ In 92 s.

(** The paths of the folders recorded so far. *)
Definition folder_keys (b : Blocks) : list str := map fst (_folders b).

(** Every folder recorded has its parent recorded too, unless the parent
    holds no slash. *)
Definition folders_closed (keys : list str) : Prop :=
  forall path,
    In path keys ->
    exists parent name,
      is_folder_of parent name path
      /\ (~ In 47 parent \/ In parent keys).

(** The dictionary that numbers [keys] from 0 in their order. *)
Definition numbered {A} (keys : list A) : dict A Z :=
  combine keys (map Z.of_nat (seq 0 (length keys))).

(** The dictionary from the numbers to the keys. *)
Definition inverted {A} (keys : list A) : dict Z A :=
  combine (map Z.of_nat (seq 0 (length keys))) keys.

(** The entry of index [i] in a dictionary given by its keys. *)
Definition entry_at (keys : list bytes) (i : Z) : bytes :=
  nth (Z.to_nat i) keys [].

(** The bytes that the indices [encoded] stand for. *)
Definition expand (keys : list bytes) (encoded : list Z) : bytes :=
  concat (map (entry_at keys) encoded).

Definition valid_index (keys : list bytes) (i : Z) : Prop :=
  0 <= i < len keys.

(** The packed body, two codewords to three bytes, written by recursion
    on the codewords. *)
Fixpoint pack_all (encoded : list Z) (table_size : Z) : bytes :=
  match encoded with
  | [] =>
      [Z.land (Z.shiftr table_size 4) 255; Z.land (Z.shiftl table_size 4) 240]
  | e0 :: rest =>
      match rest with
      | [] =>
          [ Z.land (Z.shiftr e0 4) 255;
            Z.lor (Z.land (Z.shiftl e0 4) 240)
              (Z.land (Z.shiftr table_size 8) 15);
            Z.land table_size 255 ]
      | e1 :: rest' =>
          [ Z.land (Z.shiftr e0 4) 255;
            Z.lor (Z.land (Z.shiftl e0 4) 240) (Z.land (Z.shiftr e1 8) 15);
            Z.land e1 255 ]
            ++ pack_all rest' table_size
      end
  end.

(** What is asked of the order in which a set hands out its elements:
    each element once. *)
Definition lists_the_set (set_to_list : list Z -> list Z) : Prop :=
  forall l,
    NoDup (set_to_list l) /\ forall x, In x (set_to_list l) <-> In x l.

(** Groups of dictionary entries as the header stores them: each group
    is not empty, has at most 15 entries, and its entries share one
    length between 1 and 16. *)
Definition good_group (g : list bytes) : Prop :=
  g <> [] /\ (length g <= 15)%nat
  /\ exists L, (1 <= L <= 16)%nat /\ Forall (fun e => length e = L) g.
(* ------------------------------------------------------------------ *)
(** ** Further notions *)

(** A piece of source text in which every slash lies inside a string
    literal: plain characters other than the double quote and the
    slash, and string literals, which run from one double quote to the
    next. *)
Inductive slashes_in_strings : str -> Prop :=
| sis_nil : slashes_in_strings []
| sis_plain (c : Z) (rest : str) :
    c <> 34 -> c <> 47 -> slashes_in_strings rest ->
    slashes_in_strings (c :: rest)
| sis_string (s rest : str) :
    ~ In 34 s -> slashes_in_strings rest ->
    slashes_in_strings (34 :: s ++ 34 :: rest).

(** [c in FileManager.GOOD_SRC_FILE_CHARS] *)
Definition good_src_char (c : Z) : bool :=
  existsb (Z.eqb c) GOOD_SRC_FILE_CHARS.

(** The part of a game file name that [_clean_source_name] checks: the
    name without its leading tilde. *)
Definition checked_part (game_file : str) : str :=
  match game_file with
  | c0 :: tl => if c0 =? 126 then tl else game_file
  | [] => []
  end.

(** The indices that the three string tables hand out. *)
Definition pool_indices (b : Blocks) : list Z :=
  map snd (_strings b) ++ map snd (_home_replace_strings b)
    ++ map snd (_rel_paths b).

(** The string pool is sound: no text is listed twice in a table, no
    index is handed out twice, over the three tables, and the indices
    are the numbers below the counter. *)
Definition pool_sound (b : Blocks) : Prop :=
  NoDup (map fst (_strings b))
  /\ NoDup (map fst (_home_replace_strings b))
  /\ NoDup (map fst (_rel_paths b))
  /\ NoDup (pool_indices b)
  /\ (forall i, In i (pool_indices b) -> 0 <= i < _string_idx b)
  /\ len (pool_indices b) = _string_idx b.

(* ------------------------------------------------------------------ *)
(** * Properties *)

Lemma str_eqb_eq (a b : list Z) : str_eqb a b = true <-> a = b.
Proof. unfold str_eqb. destruct (list_eq_dec Z.eq_dec a b); split; congruence. Qed.

Lemma str_eqb_refl (a : list Z) : str_eqb a a = true.
Proof. now apply str_eqb_eq. Qed.

Lemma str_eqb_neq (a b : list Z) : str_eqb a b = false <-> a <> b.
Proof. unfold str_eqb. destruct (list_eq_dec Z.eq_dec a b); split; congruence. Qed.


Ltac destruct_bind H :=
  match type of H with
  | context [rbind ?r _] =>
      let E := fresh "E" in
      destruct r eqn:E; simpl in H; [ | discriminate H ]
  end.

(* ------------------------------------------------------------------ *)
(** ** Chunk framing *)

Lemma mk_uint16_ok (value : Z) (out : bytes) :
  mk_uint16 value = Ok out ->
  0 <= value <= 65535 /\ out = [Z.shiftr value 8; Z.land value 255].
Proof.
  unfold mk_uint16.
  destruct ((0 <=? value) && (value <=? 65535)) eqn:E; [ | discriminate ].
  intros H. inversion H. split; [ lia | reflexivity ].
Qed.

Lemma mk_uint16_raise (value : Z) :
  65535 < value -> mk_uint16 value = Raise AssertionError.
Proof.
  intros H. unfold mk_uint16.
  destruct ((0 <=? value) && (value <=? 65535)) eqn:E; [ lia | reflexivity ].
Qed.

Lemma uint16_big_endian (value : Z) :
  0 <= value ->
  Z.shiftr value 8 * 256 + Z.land value 255 = value.
Proof.
  intros H. rewrite Z.shiftr_div_pow2 by lia.
  change 255 with (Z.ones 8). rewrite Z.land_ones by lia.
  change (2 ^ 8) with 256. pose proof (Z.div_mod value 256). lia.
Qed.

(** A chunk: the kind, the length of the payload on 16 bits, high byte
    first, and the payload. *)
Definition framed_chunk (kind : Z) (payload out : bytes) : Prop :=
  len payload <= 65535
  /\ out = kind :: Z.shiftr (len payload) 8 :: Z.land (len payload) 255
             :: payload.

Lemma mk_chunk_framed (chunk_id : Z) (chunk_data out : bytes) :
  mk_chunk chunk_id chunk_data = Ok out ->
  framed_chunk chunk_id chunk_data out.
Proof.
  unfold mk_chunk.
  destruct ((0 <=? chunk_id) && (chunk_id <=? 255)); [ | discriminate ].
  intros H. destruct_bind H.
  apply mk_uint16_ok in E as [Hr ->]. inversion H.
  split; [ lia | reflexivity ].
Qed.

Lemma mk_block_string_framed (index : Z) (text : str) (home : bool)
  (out : bytes) :
  mk_block_string index text home = Ok out ->
  exists kind payload, framed_chunk kind payload out.
Proof.
  unfold mk_block_string. intros H.
  destruct (encode_ascii text) as [enc | e].
  - repeat destruct_bind H. eauto using mk_chunk_framed.
  - destruct e; try discriminate H.
    destruct_bind H.
    destruct (negb _); [ discriminate | ].
    repeat destruct_bind H. eauto using mk_chunk_framed.
Qed.

Lemma mk_block_file_framed (d f c : Z) (out : bytes) :
  mk_block_file d f c = Ok out ->
  exists payload, framed_chunk BLOCK_FILE payload out.
Proof.
  unfold mk_block_file. intros H. repeat destruct_bind H.
  eauto using mk_chunk_framed.
Qed.

(** C10.  [mk_chunk] writes the length of the payload on 16 bits: on a
    payload of more than 65535 bytes it fails in the range check of
    [mk_uint16], and whenever it returns a chunk the payload has at most
    65535 bytes and the two length bytes, high byte first, give exactly
    its length.  A string chunk that [mk_block_string] returns is such a
    chunk, so a text too long for it ends in an error. *)
Theorem mk_chunk_payload_fits_uint16 (chunk_id : Z) (chunk_data : bytes) :
  (65535 < len chunk_data ->
   mk_chunk chunk_id chunk_data = Raise AssertionError)
  /\ (forall out,
        mk_chunk chunk_id chunk_data = Ok out ->
        len chunk_data <= 65535
        /\ out = chunk_id :: Z.shiftr (len chunk_data) 8
                   :: Z.land (len chunk_data) 255 :: chunk_data
        /\ Z.shiftr (len chunk_data) 8 * 256 + Z.land (len chunk_data) 255
           = len chunk_data)
  /\ (forall index home out,
        mk_block_string index chunk_data home = Ok out ->
        exists kind payload,
          len payload <= 65535
          /\ out = kind :: Z.shiftr (len payload) 8
                     :: Z.land (len payload) 255 :: payload).
Proof.
  split; [ | split ].
  - intros H. unfold mk_chunk.
    destruct ((0 <=? chunk_id) && (chunk_id <=? 255)); [ | reflexivity ].
    now rewrite mk_uint16_raise.
  - intros out H. apply mk_chunk_framed in H as [H1 H2].
    repeat split; try assumption.
    apply uint16_big_endian. unfold len. lia.
  - intros index home out H.
    apply mk_block_string_framed in H as (kind & payload & H1 & H2).
    eauto.
Qed.

Lemma mk_chunk_payload_fits_uint16_witness :
  mk_chunk 20 (repeat 0 (Z.to_nat 65536)) = Raise AssertionError
  /\ len [0; 0; 0; 1] <= 65535.
Proof.
  split.
  - apply (proj1 (mk_chunk_payload_fits_uint16 20 (repeat 0 (Z.to_nat 65536)))).
    vm_compute. reflexivity.
  - apply (proj1 (proj2 (mk_chunk_payload_fits_uint16 20 [0; 0; 0; 1]))
             [20; 0; 4; 0; 0; 0; 1]).
    reflexivity.
Defined.

(* ------------------------------------------------------------------ *)
(** ** The chgroup tag *)

(** C2.  The chunk that [mk_block_chgroup] builds carries the chown tag,
    25, and not the chgroup tag, 26: at indices 0 and 1 with the
    recursion flag set it is [25 0 5 0 0 0 1 1]; and every chunk it
    returns starts with 25. *)
Theorem mk_block_chgroup_emits_chown_tag :
  mk_block_chgroup 0 1 true = Ok [25; 0; 5; 0; 0; 0; 1; 1]
  /\ BLOCK_CHGROUP = 26
  /\ forall file_name_index group_index recursive out,
       mk_block_chgroup file_name_index group_index recursive = Ok out ->
       hd 0 out = 25.
Proof.
  split; [ reflexivity | split; [ reflexivity | ] ].
  intros f g r out H. unfold mk_block_chgroup in H.
  repeat destruct_bind H.
  apply mk_chunk_framed in H as [_ ->]. reflexivity.
Qed.

Lemma mk_block_chgroup_emits_chown_tag_witness :
  hd 0 [25; 0; 5; 0; 0; 0; 1; 1] = 25.
Proof.
  exact (proj2 (proj2 mk_block_chgroup_emits_chown_tag) 0 1 true _ eq_refl).
Defined.

(** The manifest block [chown /e alice:staff recursive]. *)
Definition chown_manifest : list (str * json) :=
  [ (py "type", JStr (py "chown")); (py "path", JStr (py "/e"));
    (py "owner", JStr (py "alice:staff")); (py "recursive", JBool true) ].

(** The two chunks queued for [alice:staff] both carry the tag 25. *)
Lemma chown_user_group_both_tagged_chown :
  exists b,
    parse_chown_block new_Blocks chown_manifest [] = Ok (true, b)
    /\ _exec_blocks b
       = [ ExecBytes [25; 0; 5; 0; 0; 0; 1; 1];
           ExecBytes [25; 0; 5; 0; 0; 0; 2; 1] ].
Proof. eexists. split; vm_compute; reflexivity. Qed.

(* ------------------------------------------------------------------ *)
(** ** UTF-16 strings *)

(** C4.  For the one-character string U+00E9, [mk_block_string] returns
    a UTF-16 chunk whose payload ends with the bytes [E9 00]: the low
    byte of the character comes first, where big-endian order is
    [00 E9]. *)
Theorem mk_block_string_utf16_low_byte_first :
  mk_block_string 0 [233] false = Ok [2; 0; 6; 0; 0; 0; 1; 233; 0].
Proof. reflexivity. Qed.

(** A code point above U+FFFF is refused, as is a lone surrogate. *)
Lemma mk_block_string_above_bmp :
  mk_block_string 0 [128512] false = Raise RuntimeError
  /\ mk_block_string 0 [55296] false = Raise UnicodeEncodeError.
Proof. split; reflexivity. Qed.

(* ------------------------------------------------------------------ *)
(** ** Line comments *)

(** The line [x = 1/2 + f(QaSSbQ)], with a double quote for [Q] and a
    slash for [S]. *)
Definition line_division_then_string : str :=
  py "x = 1/2 + f(" ++ [34] ++ py "a//b" ++ [34] ++ py ")".

(** C6.  After a single slash outside a string the scan never leaves
    the state [found_first_slash]: on the line [x = 1/2 + f(QaSSbQ)] the
    only double slash lies inside the string literal, and the line is
    cut inside that literal all the same. *)
Theorem strip_trailing_comment_cuts_inside_string :
  _strip_trailing_comment line_division_then_string
  = py "x = 1/2 + f(" ++ [34].
Proof. reflexivity. Qed.

(** The example of the specification is returned unchanged. *)
Lemma strip_trailing_comment_say :
  let line := py "say(" ++ [34] ++ py "a//b" ++ [34] ++ py ")" in
  _strip_trailing_comment line = line.
Proof. reflexivity. Qed.

(* ------------------------------------------------------------------ *)
(** ** The import rewriter *)

(** A file manager that holds one source file, [m.src], whose contents
    are loaded. *)
Definition one_source (cont : str) : FileManager :=
  snd (append_StoredFile new_FileManager (Some (py "m.src")) (Some cont)
         true true None None).

(** C7.  [_clean_source] puts a line feed in front of every line, the
    first one included: the one-line source [a] becomes the two lines
    of [\na]. *)
Theorem clean_source_adds_a_line :
  (exists fm,
     _clean_source empty_host (one_source (py "a")) 0 [] = Ok (true, fm, [])
     /\ map contents (stored fm) = [Some (10 :: py "a")])
  /\ line_count (py "a") = 1%nat
  /\ line_count (10 :: py "a") = 2%nat.
Proof.
  split; [ eexists; split; vm_compute; reflexivity | split; reflexivity ].
Qed.

(* ------------------------------------------------------------------ *)
(** ** Duplicate targets *)

(** [mk_initial_blocks()], then two [file] entries for the path [/a]. *)
Definition two_files_one_path : result Blocks :=
  b <- mk_initial_blocks ;;
  Ok (add_contents_file (py "/a") (py "y")
        (add_contents_file (py "/a") (py "x") b)).

(** C3.  The second [add_contents_file] for the path [/a] leaves
    [_setup_problems] unset and stores nothing, and [assemble] then
    returns the bytes of an artifact that holds the first file. *)
Theorem duplicate_contents_file_goes_unrecorded :
  exists b out b',
    two_files_one_path = Ok b
    /\ _setup_problems b = false
    /\ length (stored (_files b)) = 1%nat
    /\ assemble empty_host 1 b = Ok (Some out, b')
    /\ out
       = [0; 0; 4; 0; 1; 0; 0; 1; 0; 8; 0; 1; 0; 4; 46; 116; 109; 112; 1;
          0; 4; 0; 2; 0; 0; 1; 0; 5; 0; 3; 0; 1; 97; 1; 0; 5; 0; 4; 0; 1;
          120; 3; 0; 4; 0; 0; 0; 0; 20; 0; 4; 0; 0; 0; 1; 21; 0; 6; 0; 2;
          0; 3; 0; 4].
Proof.
  do 3 eexists. repeat split; vm_compute; reflexivity.
Qed.

(** [FileManager.add_local_text_file] answers a duplicate with [-1], so
    the test [is None] of [Blocks.add_local_text_file] fails too. *)
Lemma duplicate_local_text_file_goes_unrecorded (h : Host)
  (game_file local_file : str) (b : Blocks) :
  has_game_file (_files b) game_file = true ->
  add_local_text_file h game_file local_file b = set_files b (_files b).
Proof.
  intros H. unfold add_local_text_file, FileManager_add_local_text_file.
  rewrite H. reflexivity.
Qed.

(* ------------------------------------------------------------------ *)
(** ** Dictionaries and the string pool *)

Section DictFacts.
Context {K V : Type} `{EqDec K}.

Lemma dict_get_set_same (k : K) (v : V) (d : dict K V) :
  dict_get k (dict_set k v d) = Some v.
Proof.
  induction d as [| [k' v'] d IH]; simpl.
  - destruct (eq_dec k k); congruence.
  - destruct (eq_dec k k') as [-> | Hne]; simpl.
    + destruct (eq_dec k' k'); congruence.
    + destruct (eq_dec k k'); [ contradiction | exact IH ].
Qed.

Lemma dict_get_set_other (k k' : K) (v : V) (d : dict K V) :
  k <> k' -> dict_get k' (dict_set k v d) = dict_get k' d.
Proof.
  intros Hne. induction d as [| [k0 v0] d IH]; simpl.
  - destruct (eq_dec k' k); congruence.
  - destruct (eq_dec k k0) as [-> | Hne0]; simpl.
    + destruct (eq_dec k' k0); congruence.
    + destruct (eq_dec k' k0); [ reflexivity | exact IH ].
Qed.

Lemma dict_get_In (k : K) (v : V) (d : dict K V) :
  dict_get k d = Some v -> In (k, v) d.
Proof.
  induction d as [| [k' v'] d IH]; simpl; [ discriminate | ].
  destruct (eq_dec k k') as [-> | Hne].
  - intros [= ->]. now left.
  - intros Hg. right. auto.
Qed.

Lemma dict_get_None (k : K) (d : dict K V) :
  dict_get k d = None <-> ~ In k (map fst d).
Proof.
  induction d as [| [k' v'] d IH]; simpl.
  - tauto.
  - destruct (eq_dec k k') as [-> | Hne].
    + split; [ discriminate | intros Hn; exfalso; apply Hn; now left ].
    + rewrite IH. split.
      * intros Hn [Heq | Hin]; [ congruence | contradiction ].
      * intros Hn Hin. apply Hn. now right.
Qed.

Lemma dict_set_absent (k : K) (v : V) (d : dict K V) :
  ~ In k (map fst d) -> dict_set k v d = d ++ [(k, v)].
Proof.
  induction d as [| [k' v'] d IH]; simpl; intros Hn; [ reflexivity | ].
  destruct (eq_dec k k') as [-> | Hne].
  - exfalso. apply Hn. now left.
  - f_equal. apply IH. intros Hin. apply Hn. now right.
Qed.

End DictFacts.

Lemma add_path_index (text : str) (b b' : Blocks) (i : Z) :
  _add_path text b = Ok (i, b') -> path_index text b' = Some i.
Proof.
  unfold _add_path, path_index. intros Hadd.
  destruct (route_path text) as [[rel key] | e]; simpl in Hadd;
    [ | discriminate ].
  destruct (dict_get key (if rel then _rel_paths b else _strings b)) eqn:Hg.
  - inversion Hadd; subst. exact Hg.
  - inversion Hadd; subst. destruct rel; simpl; apply dict_get_set_same.
Qed.

Lemma add_path_keeps_index (text text' : str) (b b' : Blocks) (i j : Z) :
  path_index text b = Some i ->
  _add_path text' b = Ok (j, b') ->
  path_index text b' = Some i.
Proof.
  unfold _add_path, path_index. intros Hidx Hadd.
  destruct (route_path text) as [[rel key] | e]; [ | discriminate ].
  destruct (route_path text') as [[rel' key'] | e']; simpl in Hadd;
    [ | discriminate ].
  destruct (dict_get key' (if rel' then _rel_paths b else _strings b))
    eqn:Hg; inversion Hadd; subst; [ exact Hidx | ].
  destruct rel, rel'; simpl in *; try exact Hidx;
    (rewrite dict_get_set_other; [ exact Hidx | congruence ]).
Qed.

Lemma add_paths_indices (args : list str) :
  forall (b b' : Blocks) (idxs : list Z),
    add_paths args b = Ok (idxs, b') ->
    Forall2 (fun a i => path_index a b' = Some i) args idxs
    /\ (forall t i, path_index t b = Some i -> path_index t b' = Some i)
    /\ _exec_blocks b' = _exec_blocks b.
Proof.
  induction args as [| a rest IH]; simpl; intros b b' idxs Hadd.
  - inversion Hadd; subst. repeat split; auto.
  - destruct (_add_path a b) as [[i b1] | e] eqn:Ha; simpl in Hadd;
      [ | discriminate ].
    destruct (add_paths rest b1) as [[is' b2] | e] eqn:Hr; simpl in Hadd;
      [ | discriminate ].
    inversion Hadd; subst.
    destruct (IH _ _ _ Hr) as (Hall & Hmono & Hexec).
    repeat split.
    + constructor; [ | exact Hall ].
      apply Hmono. eapply add_path_index; eauto.
    + intros t i0 Ht. apply Hmono. eapply add_path_keeps_index; eauto.
    + rewrite Hexec. unfold _add_path in Ha.
      destruct (route_path a) as [[rel key] | e]; simpl in Ha;
        [ | discriminate ].
      destruct (dict_get key _); inversion Ha; subst; [ reflexivity | ].
      destruct rel; reflexivity.
Qed.

Lemma mk_refs_ok (indices : list Z) :
  forall out, mk_refs indices = Ok out -> out = refs indices.
Proof.
  induction indices as [| i rest IH]; simpl; intros out Hm.
  - now inversion Hm.
  - unfold mk_ref in Hm. repeat destruct_bind Hm.
    apply mk_uint16_ok in E as [_ ->]. inversion Hm.
    rewrite (IH _ eq_refl). reflexivity.
Qed.

Lemma mk_block_launch_ok (indices : list Z) (out : bytes) :
  mk_block_launch indices = Ok out ->
  1 <= len indices <= 255
  /\ framed_chunk BLOCK_LAUNCH (len indices :: refs indices) out.
Proof.
  unfold mk_block_launch. intros Hm.
  destruct (len indices <? 1) eqn:Hlen; [ discriminate | ].
  repeat destruct_bind Hm.
  unfold mk_uint8 in E.
  destruct ((0 <=? len indices) && (len indices <=? 255)) eqn:Hr;
    [ | discriminate ].
  inversion E; subst. apply mk_refs_ok in E0 as ->.
  split; [ lia | ]. now apply mk_chunk_framed.
Qed.

(* ------------------------------------------------------------------ *)
(** ** Launch blocks *)

(** A block of type [launch] is not known to the dispatcher: it is
    refused and queues nothing. *)
Lemma launch_type_is_unknown :
  exists b0,
    mk_initial_blocks = Ok b0
    /\ parse_block_cmd empty_host 1 b0 launch_manifest [] = Ok (false, b0)
    /\ _exec_blocks b0 = [].
Proof. eexists. repeat split; vm_compute; reflexivity. Qed.

(** C5, as the code has it.  [add_launch] with the arguments
    [cmd, *arguments] queues exactly one launch chunk, of kind 82, whose
    payload is the count on one byte and then the string-pool reference
    of each argument in order; the dispatcher knows the launch parser
    under the types [exec] and [run], and a block of one of these types
    with a [cmd] and no [arguments] launches [cmd] alone. *)
Theorem launch_chunk_layout :
  (forall (args : list str) (b b' : Blocks),
      add_launch args b = Ok b' ->
      exists (indices : list Z) (chunk : bytes),
        Forall2 (fun a i => path_index a b' = Some i) args indices
        /\ 1 <= len args <= 255
        /\ framed_chunk 82 (len args :: refs indices) chunk
        /\ _exec_blocks b' = _exec_blocks b ++ [ExecBytes chunk])
  /\ (forall (h : Host) (fuel : nat) (b : Blocks)
        (data : list (str * json)) (context_dir ty cmd : str),
        is_exec_or_run ty ->
        dict_get (py "type") data = Some (JStr ty) ->
        dict_get (py "cmd") data = Some (JStr cmd) ->
        dict_get (py "arguments") data = None ->
        parse_block_cmd h fuel b (JObj data) context_dir
        = done true (add_launch [cmd] b)).
Proof.
  split.
  - intros args b b' Hadd. unfold add_launch in Hadd.
    destruct (add_paths args b) as [[idxs b1] | e] eqn:Hp; simpl in Hadd;
      [ | discriminate ].
    destruct_bind Hadd. inversion Hadd; subst.
    destruct (add_paths_indices _ _ _ _ Hp) as (Hall & _ & Hexec).
    apply mk_block_launch_ok in E as [Hlen Hframed].
    assert (Hl : len idxs = len args).
    { unfold len. f_equal. symmetry. eapply Forall2_length; eauto. }
    rewrite Hl in *.
    exists idxs, a. repeat split; try assumption; try lia.
    + apply Hframed.
    + apply Hframed.
    + simpl. now rewrite Hexec.
  - intros h fuel b data ctx ty cmd Hty Htype Hcmd Hargs.
    unfold parse_block_cmd, parse_block_cmd_with, block_type.
    rewrite Htype.
    assert (Hp : get_parser ty = Some (fun _ _ => parse_launch_block)).
    { destruct Hty as [-> | ->]; reflexivity. }
    rewrite Hp. unfold parse_launch_block, json_get.
    rewrite Hcmd, Hargs. reflexivity.
Qed.

(** An [exec] block with a [cmd] and no [arguments]. *)
Definition exec_manifest : list (str * json) :=
  [ (py "type", JStr (py "exec")); (py "cmd", JStr (py "/bin/sh")) ].

Lemma launch_chunk_layout_witness :
  (exists (indices : list Z) (chunk : bytes),
      Forall2 (fun a i =>
                 path_index a
                   (append_exec
                      (set_pool new_Blocks
                         [(py "/bin/sh", 0); (py "-c", 1); (py "echo hi", 2)]
                         [] [] 3)
                      (ExecBytes [82; 0; 7; 3; 0; 0; 0; 1; 0; 2])) = Some i)
        [py "/bin/sh"; py "-c"; py "echo hi"] indices
      /\ 1 <= len [py "/bin/sh"; py "-c"; py "echo hi"] <= 255
      /\ framed_chunk 82
           (len [py "/bin/sh"; py "-c"; py "echo hi"] :: refs indices) chunk
      /\ _exec_blocks
           (append_exec
              (set_pool new_Blocks
                 [(py "/bin/sh", 0); (py "-c", 1); (py "echo hi", 2)]
                 [] [] 3)
              (ExecBytes [82; 0; 7; 3; 0; 0; 0; 1; 0; 2]))
         = _exec_blocks new_Blocks ++ [ExecBytes chunk])
  /\ parse_block_cmd empty_host 1 new_Blocks (JObj exec_manifest) []
     = done true (add_launch [py "/bin/sh"] new_Blocks).
Proof.
  split.
  - apply (proj1 launch_chunk_layout
             [py "/bin/sh"; py "-c"; py "echo hi"] new_Blocks).
    vm_compute. reflexivity.
  - apply (proj2 launch_chunk_layout empty_host 1%nat new_Blocks
             exec_manifest [] (py "exec") (py "/bin/sh")).
    + left. reflexivity.
    + reflexivity.
    + reflexivity.
    + reflexivity.
Defined.

(** Scenario 5 at the level of [add_launch]: the count is 3 and the
    references are those of the three strings, in order. *)
Lemma launch_bin_sh :
  exists b0 b,
    mk_initial_blocks = Ok b0
    /\ add_launch [py "/bin/sh"; py "-c"; py "echo hi"] b0 = Ok b
    /\ _exec_blocks b = [ExecBytes [82; 0; 7; 3; 0; 2; 0; 3; 0; 4]]
    /\ path_index (py "/bin/sh") b = Some 2
    /\ path_index (py "-c") b = Some 3
    /\ path_index (py "echo hi") b = Some 4.
Proof. do 2 eexists. repeat split; vm_compute; reflexivity. Qed.

(* ------------------------------------------------------------------ *)
(** ** Paths *)

Lemma contains2_app_l (c : Z) (a b : str) :
  contains2 c c (a ++ b) = false -> contains2 c c a = false.
Proof.
  induction a as [| x a IH]; simpl; [ reflexivity | ].
  destruct a as [| y a']; simpl in *.
  - reflexivity.
  - intros Hc. apply orb_false_iff in Hc as [H1 H2].
    rewrite H1. simpl. apply IH. exact H2.
Qed.

Lemma contains2_app_r (c : Z) (a b : str) :
  contains2 c c (a ++ b) = false -> contains2 c c b = false.
Proof.
  induction a as [| x a IH]; simpl; [ auto | ].
  destruct (a ++ b) as [| y r] eqn:E.
  - intros _. destruct a; [ simpl in E; subst; reflexivity | discriminate ].
  - intros Hc. apply orb_false_iff in Hc as [_ H2]. auto.
Qed.

Lemma contains2_middle (c : Z) (a b : str) :
  contains2 c c (a ++ c :: c :: b) = true.
Proof.
  induction a as [| x a IH]; simpl.
  - now rewrite Z.eqb_refl.
  - destruct (a ++ c :: c :: b) as [| y r] eqn:E.
    + destruct a; discriminate.
    + rewrite IH. apply orb_true_r.
Qed.

Lemma replace_double_slash_facts (n : nat) :
  forall s : str,
    (length s <= n)%nat ->
    (forall c, In c (replace_double_slash s) -> In c s)
    /\ (length (replace_double_slash s) <= length s)%nat
    /\ (contains2 47 47 s = true ->
        (length (replace_double_slash s) < length s)%nat).
Proof.
  induction n as [| n IH]; intros s Hlen.
  - destruct s; [ | simpl in Hlen; lia ].
    simpl. repeat split; auto; discriminate.
  - destruct s as [| x [| y r]].
    + simpl. repeat split; auto; discriminate.
    + simpl. repeat split; auto; discriminate.
    + simpl in Hlen.
      destruct (IH (y :: r) ltac:(simpl; lia)) as (I1 & L1 & C1).
      destruct (IH r ltac:(lia)) as (I2 & L2 & C2).
      change (replace_double_slash (x :: y :: r))
        with (if (x =? 47) && (y =? 47)
              then 47 :: replace_double_slash r
              else x :: replace_double_slash (y :: r)).
      change (contains2 47 47 (x :: y :: r))
        with (((x =? 47) && (y =? 47)) || contains2 47 47 (y :: r)).
      destruct ((x =? 47) && (y =? 47)) eqn:E.
      * apply andb_true_iff in E as [Ex Ey].
        apply Z.eqb_eq in Ex, Ey. subst.
        repeat split.
        -- intros c [<- | Hin]; [ now left | right; right; auto ].
        -- simpl. lia.
        -- intros _. simpl. lia.
      * repeat split.
        -- intros c [<- | Hin]; [ now left | right; auto ].
        -- simpl in *. lia.
        -- simpl orb. intros Hc. specialize (C1 Hc). simpl in *. lia.
Qed.

Lemma normalize_loop_In (fuel : nat) :
  forall (s : str) (c : Z), In c (normalize_loop fuel s) -> In c s.
Proof.
  induction fuel as [| fuel IH]; simpl; intros s c Hin; [ exact Hin | ].
  destruct (contains2 47 47 s); [ | exact Hin ].
  apply IH in Hin.
  now apply (proj1 (replace_double_slash_facts _ s (le_n _))).
Qed.

Lemma normalize_loop_no_double_slash (fuel : nat) :
  forall s : str,
    (length s <= fuel)%nat ->
    contains2 47 47 (normalize_loop fuel s) = false.
Proof.
  induction fuel as [| fuel IH]; simpl; intros s Hlen.
  - destruct s; [ reflexivity | simpl in Hlen; lia ].
  - destruct (contains2 47 47 s) eqn:Hc; [ | exact Hc ].
    apply IH.
    pose proof (proj2 (proj2 (replace_double_slash_facts _ s (le_n _))) Hc).
    lia.
Qed.

Lemma normalize_clean (name : str) : clean_path (_normalize name).
Proof.
  unfold _normalize, clean_path. split.
  - apply normalize_loop_no_double_slash. lia.
  - intros Hin. apply normalize_loop_In in Hin.
    apply in_map_iff in Hin as (c & Hc & _).
    destruct (c =? 92) eqn:E; [ discriminate | ].
    apply Z.eqb_neq in E. congruence.
Qed.

Lemma normalize_of_clean (s : str) : clean_path s -> _normalize s = s.
Proof.
  intros [Hd Hb]. unfold _normalize.
  assert (Hm : map (fun c => if c =? 92 then 47 else c) s = s).
  { clear Hd. induction s as [| x s IH]; simpl; [ reflexivity | ].
    destruct (x =? 92) eqn:E.
    - apply Z.eqb_eq in E. subst. exfalso. apply Hb. now left.
    - f_equal. apply IH. intros Hin. apply Hb. now right. }
  rewrite Hm. destruct (length s); simpl; [ reflexivity | ].
  now rewrite Hd.
Qed.

Lemma clean_path_prefix (a b : str) : clean_path (a ++ b) -> clean_path a.
Proof.
  intros [Hd Hb]. split.
  - eapply contains2_app_l; eauto.
  - intros Hin. apply Hb. apply in_or_app. now left.
Qed.

Lemma rindex_slash_None (s : str) :
  rindex_slash s = None <-> ~ In 47 s.
Proof.
  induction s as [| x s IH]; simpl.
  - tauto.
  - destruct (rindex_slash s) as [i |].
    + split; [ discriminate | ].
      intros Hn. exfalso.
      assert (Hs : ~ In 47 s) by tauto.
      apply IH in Hs. discriminate.
    + destruct (x =? 47) eqn:E.
      * apply Z.eqb_eq in E. subst.
        split; [ discriminate | intros Hn; exfalso; apply Hn; now left ].
      * apply Z.eqb_neq in E. split; [ | reflexivity ].
        intros _ [Hx | Hin]; [ congruence | ].
        now apply (proj1 IH).
Qed.

Lemma rindex_slash_Some (s : str) :
  forall pos,
    rindex_slash s = Some pos ->
    s = firstn pos s ++ 47 :: skipn (pos + 1) s
    /\ ~ In 47 (skipn (pos + 1) s).
Proof.
  induction s as [| x s IH]; simpl; intros pos Hr; [ discriminate | ].
  destruct (rindex_slash s) as [i |] eqn:Hi.
  - inversion Hr; subst. destruct (IH i eq_refl) as [Heq Hn].
    simpl. split; [ f_equal; exact Heq | exact Hn ].
  - destruct (x =? 47) eqn:E; [ | discriminate ].
    inversion Hr; subst. apply Z.eqb_eq in E. subst. simpl.
    split; [ reflexivity | ]. now apply rindex_slash_None.
Qed.

(** What [_split] returns: the name holds no slash, and either the path
    holds none and comes back whole, or it is cut at its last slash. *)
Lemma split_spec (name parent fname : str) :
  _split name = (parent, fname) ->
  clean_path (_normalize name)
  /\ ~ In 47 fname
  /\ ((fname = [] /\ parent = _normalize name /\ ~ In 47 parent)
      \/ _normalize name = parent ++ 47 :: fname).
Proof.
  unfold _split. intros Hs.
  split; [ apply normalize_clean | ].
  destruct (rindex_slash (_normalize name)) as [pos |] eqn:Hr.
  - inversion Hs; subst.
    destruct (rindex_slash_Some _ _ Hr) as [Heq Hn].
    split; [ exact Hn | right; exact Heq ].
  - inversion Hs; subst.
    apply rindex_slash_None in Hr.
    split; [ simpl; tauto | left; auto ].
Qed.

(* ------------------------------------------------------------------ *)
(** ** Stable sorting *)

Section SortFacts.
Context {A : Type} (lt : A -> A -> bool).

Lemma insert_by_perm (x : A) (l : list A) :
  Permutation (insert_by lt x l) (x :: l).
Proof.
  induction l as [| y l IH]; simpl; [ reflexivity | ].
  destruct (lt y x); [ | reflexivity ].
  rewrite IH. apply perm_swap.
Qed.

Lemma sorted_by_perm (l : list A) : Permutation (sorted_by lt l) l.
Proof.
  induction l as [| x l IH]; simpl; [ reflexivity | ].
  rewrite insert_by_perm. now constructor.
Qed.

Hypothesis lt_asym : forall a b, lt a b = true -> lt b a = false.
Hypothesis le_trans :
  forall a b c, lt b a = false -> lt c b = false -> lt c a = false.

Lemma insert_by_sorted (x : A) (l : list A) :
  StronglySorted (fun a b => lt b a = false) l ->
  StronglySorted (fun a b => lt b a = false) (insert_by lt x l).
Proof.
  induction 1 as [| y l Hs IH Hall]; simpl.
  - constructor; constructor.
  - destruct (lt y x) eqn:E.
    + constructor; [ exact IH | ].
      eapply Permutation_Forall; [ symmetry; apply insert_by_perm | ].
      constructor; [ now apply lt_asym | exact Hall ].
    + constructor; [ now constructor | ].
      constructor; [ exact E | ].
      eapply Forall_impl; [ | exact Hall ].
      intros z Hz. eapply le_trans; eauto.
Qed.

Lemma sorted_by_sorted (l : list A) :
  StronglySorted (fun a b => lt b a = false) (sorted_by lt l).
Proof.
  induction l as [| x l IH]; simpl; [ constructor | ].
  now apply insert_by_sorted.
Qed.

End SortFacts.

Lemma StronglySorted_nth {A} (R : A -> A -> Prop) (l : list A) :
  StronglySorted R l ->
  forall i j a b,
    (i < j)%nat -> nth_error l i = Some a -> nth_error l j = Some b ->
    R a b.
Proof.
  induction 1 as [| x l Hs IH Hall]; intros i j a b Hij Hi Hj.
  - destruct i; discriminate.
  - destruct j as [| j]; [ lia | ]. simpl in Hj.
    destruct i as [| i]; simpl in Hi.
    + inversion Hi; subst. rewrite Forall_forall in Hall.
      apply Hall. eapply nth_error_In; eauto.
    + apply (IH i j a b); [ lia | assumption | assumption ].
Qed.

Lemma str_ltb_asym (a : str) :
  forall b, str_ltb a b = true -> str_ltb b a = false.
Proof.
  induction a as [| x a IH]; intros [| y b]; simpl; auto; try discriminate.
  destruct (x <? y) eqn:E1, (y <? x) eqn:E2; auto; try discriminate; lia.
Qed.

Lemma str_leb_trans (a : str) :
  forall b c,
    str_ltb b a = false -> str_ltb c b = false -> str_ltb c a = false.
Proof.
  induction a as [| x a IH]; intros [| y b] [| z c]; simpl; auto;
    try discriminate.
  destruct (y <? x) eqn:E1, (x <? y) eqn:E2, (z <? y) eqn:E3,
    (y <? z) eqn:E4, (z <? x) eqn:E5, (x <? z) eqn:E6;
    auto; try discriminate; try lia.
  apply IH.
Qed.

Lemma str_ltb_prefix (p r : str) (x : Z) : str_ltb p (p ++ x :: r) = true.
Proof.
  induction p as [| y p IH]; simpl; [ reflexivity | ].
  rewrite Z.ltb_irrefl. exact IH.
Qed.

(* ------------------------------------------------------------------ *)
(** ** The folders of the assembler *)

Lemma folders_closed_perm (l l' : list str) :
  Permutation l l' -> folders_closed l -> folders_closed l'.
Proof.
  intros Hp Hc path Hin.
  destruct (Hc path) as (parent & name & Hf & Hor).
  - eapply Permutation_in; [ symmetry | ]; eauto.
  - exists parent, name. split; [ exact Hf | ].
    destruct Hor as [Hn | Hi]; [ now left | right ].
    eapply Permutation_in; eauto.
Qed.

(** In a sorted list of folders that is closed, a parent stands before
    its children. *)
Lemma sorted_closed_parents_earlier (paths : list str) :
  StronglySorted (fun a b => str_ltb b a = false) paths ->
  folders_closed paths ->
  parents_are_bare_or_earlier paths.
Proof.
  intros Hs Hc i path Hi.
  destruct (Hc path) as (parent & name & Hf & Hor).
  { eapply nth_error_In; eauto. }
  exists parent, name. split; [ exact Hf | ].
  destruct Hor as [Hn | Hin]; [ now left | right ].
  apply In_nth_error in Hin as [j Hj]. exists j. split; [ | exact Hj ].
  destruct Hf as [-> _].
  destruct (Nat.lt_trichotomy j i) as [Hlt | [Heq | Hgt]]; [ exact Hlt | | ].
  - subst j. rewrite Hi in Hj. inversion Hj as [Hl].
    apply (f_equal (@length Z)) in Hl. rewrite length_app in Hl.
    simpl in Hl. lia.
  - pose proof (StronglySorted_nth _ _ Hs _ _ _ _ Hgt Hi Hj) as Habs.
    simpl in Habs. rewrite str_ltb_prefix in Habs. discriminate.
Qed.

Lemma add_path_folders (text : str) (b b' : Blocks) (i : Z) :
  _add_path text b = Ok (i, b') -> _folders b' = _folders b.
Proof.
  unfold _add_path. intros Ha.
  destruct (route_path text) as [[rel key] | e]; simpl in Ha;
    [ | discriminate ].
  destruct (dict_get key _); inversion Ha; subst; [ reflexivity | ].
  destruct rel; reflexivity.
Qed.

Lemma add_string_folders (text : str) (b b' : Blocks) (i : Z) :
  _add_string text b = (i, b') -> _folders b' = _folders b.
Proof.
  unfold _add_string. destruct (dict_get text _); intros Ha;
    inversion Ha; reflexivity.
Qed.

Lemma add_home_replace_string_folders (text : str) (b b' : Blocks) (i : Z) :
  _add_home_replace_string text b = (i, b') -> _folders b' = _folders b.
Proof.
  unfold _add_home_replace_string. destruct (dict_get text _); intros Ha;
    inversion Ha; reflexivity.
Qed.

Lemma existsb_folder_key (normalized : str) (folders : list (str * bytes)) :
  existsb (fun e => str_eqb (fst e) normalized) folders = true ->
  In normalized (map fst folders).
Proof.
  intros He. apply existsb_exists in He as ([k blk] & Hin & Heq).
  apply str_eqb_eq in Heq. simpl in Heq. subst.
  apply in_map_iff. exists (normalized, blk). auto.
Qed.

Lemma add_folder_rec_closed (fuel : nat) :
  forall (folder_name : str) (b b' : Blocks),
    folders_closed (folder_keys b) ->
    add_folder_rec fuel folder_name b = Ok b' ->
    folders_closed (folder_keys b')
    /\ incl (folder_keys b) (folder_keys b')
    /\ (clean_path folder_name -> In 47 folder_name ->
        (forall q, folder_name <> q ++ [47]) ->
        In folder_name (folder_keys b')).
Proof.
  induction fuel as [| fuel IH]; intros x b b' Hc Hadd; simpl in Hadd;
    [ discriminate | ].
  destruct (str_eqb x [47] || str_eqb x [126]) eqn:Hroot.
  { inversion Hadd; subst. split; [ exact Hc | ].
    split; [ apply incl_refl | ].
    intros _ Hin Hq. exfalso.
    apply orb_true_iff in Hroot as [Hr | Hr]; apply str_eqb_eq in Hr; subst.
    - now apply (Hq []).
    - simpl in Hin. destruct Hin as [Hin | []]. discriminate. }
  destruct (_split x) as [parent name] eqn:Hs.
  destruct (split_spec _ _ _ Hs) as (Hclean & Hname & Hcases).
  destruct (str_eqb name []) eqn:Hempty.
  { inversion Hadd; subst. split; [ exact Hc | ].
    split; [ apply incl_refl | ].
    intros Hx Hin Hq. exfalso. apply str_eqb_eq in Hempty. subst name.
    rewrite (normalize_of_clean _ Hx) in Hcases.
    destruct Hcases as [(_ & -> & Hn) | Heq]; [ contradiction | ].
    now apply (Hq parent). }
  apply str_eqb_neq in Hempty.
  destruct Hcases as [(Hn & _) | Hnorm]; [ contradiction | ].
  assert (Hparent : clean_path parent).
  { rewrite Hnorm in Hclean. eapply clean_path_prefix; eauto. }
  assert (Hend : forall q, parent <> q ++ [47]).
  { intros q ->. destruct Hclean as [Hd _]. rewrite Hnorm in Hd.
    rewrite <- app_assoc in Hd. simpl in Hd.
    rewrite contains2_middle in Hd. discriminate. }
  match type of Hadd with
  | context [existsb ?f ?l] => destruct (existsb f l) eqn:Hex
  end.
  { inversion Hadd; subst. split; [ exact Hc | ].
    split; [ apply incl_refl | ].
    intros Hx _ _. rewrite (normalize_of_clean _ Hx) in Hnorm.
    apply existsb_folder_key in Hex. simpl in Hex. now rewrite Hnorm. }
  destruct (add_folder_rec fuel parent b) as [b1 | e] eqn:Hrec;
    simpl in Hadd; [ | discriminate ].
  destruct (IH _ _ _ Hc Hrec) as (Hc1 & Hincl & Hpar).
  destruct (_add_path parent b1) as [[parent_idx b2] | e] eqn:Hp;
    simpl in Hadd; [ | discriminate ].
  destruct (_add_string name b2) as [name_idx b3] eqn:Hn3.
  destruct_bind Hadd. inversion Hadd; subst b'. clear Hadd.
  assert (Hk : folder_keys
                 (set_folders b3
                    (_folders b3 ++ [(parent ++ 47 :: name, a)]))
               = folder_keys b1 ++ [parent ++ 47 :: name]).
  { unfold folder_keys. simpl.
    rewrite (add_string_folders _ _ _ _ Hn3), (add_path_folders _ _ _ _ Hp).
    now rewrite map_app. }
  rewrite Hk. repeat split.
  - intros path Hin. apply in_app_or in Hin as [Hin | Hin].
    + destruct (Hc1 path Hin) as (pa & na & Hf & Hor).
      exists pa, na. split; [ exact Hf | ].
      destruct Hor as [Hno | Hi]; [ now left | right ].
      apply in_or_app. now left.
    + destruct Hin as [<- | []].
      exists parent, name. split; [ split; [ reflexivity | exact Hname ] | ].
      destruct (in_dec Z.eq_dec 47 parent) as [Hi | Hno]; [ | now left ].
      right. apply in_or_app. left. now apply Hpar.
  - intros k Hin. apply in_or_app. left. now apply Hincl.
  - intros Hx _ _. rewrite (normalize_of_clean _ Hx) in Hnorm.
    apply in_or_app. right. rewrite Hnorm. now left.
Qed.

Lemma add_folder_closed (folder_name : str) (b b' : Blocks) :
  folders_closed (folder_keys b) ->
  add_folder folder_name b = Ok b' ->
  folders_closed (folder_keys b').
Proof.
  intros Hc Ha. now apply (add_folder_rec_closed _ _ _ _ Hc Ha).
Qed.

(* ------------------------------------------------------------------ *)
(** ** Every operation keeps the folders closed *)

Lemma closed_add_path (text : str) (b b' : Blocks) (i : Z) :
  folders_closed (folder_keys b) ->
  _add_path text b = Ok (i, b') ->
  folders_closed (folder_keys b').
Proof.
  intros Hc Ha. unfold folder_keys.
  now rewrite (add_path_folders _ _ _ _ Ha).
Qed.

Lemma closed_add_string (text : str) (b b' : Blocks) (i : Z) :
  folders_closed (folder_keys b) ->
  _add_string text b = (i, b') ->
  folders_closed (folder_keys b').
Proof.
  intros Hc Ha. unfold folder_keys.
  now rewrite (add_string_folders _ _ _ _ Ha).
Qed.

Lemma closed_add_home_replace_string (text : str) (b b' : Blocks) (i : Z) :
  folders_closed (folder_keys b) ->
  _add_home_replace_string text b = (i, b') ->
  folders_closed (folder_keys b').
Proof.
  intros Hc Ha. unfold folder_keys.
  now rewrite (add_home_replace_string_folders _ _ _ _ Ha).
Qed.

(** Open the binds and the pairs of a hypothesis that says that an
    operation returned. *)
Ltac open_run H :=
  repeat first
    [ destruct_bind H
    | match type of H with
      | context [match ?x with pair _ _ => _ end] =>
          let E := fresh "E" in destruct x eqn:E; simpl in H
      end ].

(** Carry [folders_closed] along the calls recorded in the context. *)
Ltac carry_closed :=
  repeat match goal with
    | Hp : folders_closed (folder_keys ?b),
      H : _add_path _ ?b = Ok (_, ?b') |- _ =>
        pose proof (closed_add_path _ _ _ _ Hp H); clear H
    | Hp : folders_closed (folder_keys ?b),
      H : _add_string _ ?b = (_, ?b') |- _ =>
        pose proof (closed_add_string _ _ _ _ Hp H); clear H
    | Hp : folders_closed (folder_keys ?b),
      H : _add_home_replace_string _ ?b = (_, ?b') |- _ =>
        pose proof (closed_add_home_replace_string _ _ _ _ Hp H); clear H
    | Hp : folders_closed (folder_keys ?b),
      H : add_folder _ ?b = Ok ?b' |- _ =>
        pose proof (add_folder_closed _ _ _ Hp H); clear H
    end.

Ltac finish_closed :=
  carry_closed;
  match goal with
  | H : folders_closed (folder_keys ?b) |- folders_closed (folder_keys ?b') =>
      exact H
  end.

Lemma add_paths_closed (args : list str) :
  forall (b b' : Blocks) (idxs : list Z),
    folders_closed (folder_keys b) ->
    add_paths args b = Ok (idxs, b') ->
    folders_closed (folder_keys b').
Proof.
  induction args as [| a rest IH]; simpl; intros b b' idxs Hc Ha.
  - now inversion Ha; subst.
  - open_run Ha. inversion Ha; subst. carry_closed. eauto.
Qed.

Lemma add_file_closed (file_name cont : str) (home : bool)
  (b b' : Blocks) (block : bytes) :
  folders_closed (folder_keys b) ->
  _add_file file_name cont home b = Ok (block, b') ->
  folders_closed (folder_keys b').
Proof.
  unfold _add_file. intros Hc Ha.
  destruct (_split file_name) as [parent name].
  destruct (str_eqb name []); [ discriminate | ].
  open_run Ha.
  destruct home; open_run Ha; inversion Ha; subst; finish_closed.
Qed.

Lemma add_files_closed (files : list ResolvedFile) :
  forall (b b' : Blocks) (blocks : list bytes),
    folders_closed (folder_keys b) ->
    add_files files b = Ok (blocks, b') ->
    folders_closed (folder_keys b').
Proof.
  induction files as [| f rest IH]; simpl; intros b b' blocks Hc Ha.
  - now inversion Ha; subst.
  - open_run Ha. inversion Ha; subst.
    eapply IH; [ | eauto ]. eapply add_file_closed; eauto.
Qed.

Lemma resolve_exec_closed (queue : list exec_block) :
  forall (acc : list bytes) (b b' : Blocks) (out : list bytes),
    folders_closed (folder_keys b) ->
    resolve_exec queue acc b = Ok (out, b') ->
    folders_closed (folder_keys b').
Proof.
  induction queue as [| e rest IH]; simpl; intros acc b b' out Hc Hr.
  - now inversion Hr; subst.
  - destruct e as [block | [|] name].
    + eauto.
    + destruct (dict_get name (_build_files b)) as [[[ref d] f] |];
        [ | discriminate ].
      destruct (get_game_file_by_ref (_files b) ref true) as [[| c g] |].
      * eapply IH; [ | eauto ]. exact Hc.
      * open_run Hr. eapply IH; [ | eauto ]. finish_closed.
      * eapply IH; [ | eauto ]. exact Hc.
    + destruct (dict_get name (_test_files b)) as [ref |];
        [ | discriminate ].
      destruct (get_game_file_by_ref (_files b) ref true) as [g |].
      * open_run Hr. eapply IH; [ | eauto ]. finish_closed.
      * eapply IH; [ | eauto ]. exact Hc.
Qed.

Lemma assemble_closed (h : Host) (fuel : nat) (b b' : Blocks)
  (out : option bytes) :
  folders_closed (folder_keys b) ->
  assemble h fuel b = Ok (out, b') ->
  folders_closed (folder_keys b').
Proof.
  unfold assemble. intros Hc Ha.
  destruct (process_file_map h fuel (_files b)) as [[files fm] | e];
    simpl in Ha; [ | discriminate ].
  destruct files as [files |]; [ | inversion Ha; subst; exact Hc ].
  destruct (add_files files (set_files b fm)) as [[fbs b1] | e] eqn:Hf;
    simpl in Ha; [ | discriminate ].
  destruct (resolve_exec (_exec_blocks b1) [] b1) as [[ebs b2] | e] eqn:Hr;
    simpl in Ha; [ | discriminate ].
  assert (Hc2 : folders_closed (folder_keys b2)).
  { eapply resolve_exec_closed; [ | eauto ].
    eapply add_files_closed; [ | eauto ]. exact Hc. }
  repeat destruct_bind Ha.
  destruct (_setup_problems b2); inversion Ha; subst; exact Hc2.
Qed.

Lemma run_op_closed (h : Host) (o : op) (b b' : Blocks) :
  folders_closed (folder_keys b) ->
  run_op h o b = Ok b' ->
  folders_closed (folder_keys b').
Proof.
  intros Hc Hr. destruct o; simpl in Hr.
  - eapply add_folder_closed; eauto.
  - inversion Hr; subst. unfold add_local_text_file.
    destruct (FileManager_add_local_text_file _ _ _ _) as [r fm].
    destruct (is_None r); exact Hc.
  - inversion Hr; subst. unfold add_local_source_file.
    destruct (FileManager_add_local_source_file _ _ _ _) as [r fm].
    destruct (is_None r); exact Hc.
  - inversion Hr; subst. unfold add_contents_file.
    destruct (add_text_contents _ _ _) as [r fm]. exact Hc.
  - inversion Hr; subst. unfold add_test_file.
    destruct (FileManager_add_local_source_file _ _ _ _) as [[ref |] fm];
      exact Hc.
  - unfold add_build in Hr. destruct (_split target) as [tp tn].
    open_run Hr.
    match type of Hr with
    | context [get_game_file_ref ?f ?s] =>
        destruct (get_game_file_ref f s)
    end.
    + inversion Hr; subst. finish_closed.
    + open_run Hr. inversion Hr; subst. finish_closed.
  - unfold add_user in Hr. open_run Hr. inversion Hr; subst. finish_closed.
  - unfold add_group in Hr. open_run Hr. inversion Hr; subst. finish_closed.
  - unfold add_rm_user in Hr. open_run Hr. inversion Hr; subst.
    finish_closed.
  - unfold add_rm_group in Hr. open_run Hr. inversion Hr; subst.
    finish_closed.
  - unfold add_chmod in Hr. open_run Hr. inversion Hr; subst. finish_closed.
  - unfold add_chown in Hr. open_run Hr. inversion Hr; subst. finish_closed.
  - unfold add_chgroup in Hr. open_run Hr. inversion Hr; subst.
    finish_closed.
  - unfold add_launch in Hr. open_run Hr. inversion Hr; subst.
    match goal with
    | E : add_paths _ _ = Ok _ |- _ =>
        apply (add_paths_closed _ _ _ _ Hc) in E; exact E
    end.
  - unfold add_copy in Hr. open_run Hr.
    destruct (_split target) as [tp tn]. open_run Hr.
    inversion Hr; subst. finish_closed.
  - unfold add_move in Hr. open_run Hr.
    destruct (_split target) as [tp tn]. open_run Hr.
    inversion Hr; subst. finish_closed.
  - unfold add_delete in Hr. open_run Hr. inversion Hr; subst.
    finish_closed.
  - destruct (assemble h fuel b) as [[out b1] | e] eqn:Ha; simpl in Hr;
      [ | discriminate ].
    inversion Hr; subst. eapply assemble_closed; eauto.
Qed.

Lemma reachable_closed (h : Host) (b : Blocks) :
  reachable h b -> folders_closed (folder_keys b).
Proof.
  induction 1 as [| b b' o Hr IH Hrun].
  - intros path [].
  - eapply run_op_closed; eauto.
Qed.

Lemma sorted_folders_keys (b : Blocks) :
  StronglySorted (fun x y => str_ltb y x = false)
    (map fst (sorted_folders b))
  /\ Permutation (map fst (sorted_folders b)) (folder_keys b).
Proof.
  unfold sorted_folders, folder_keys. split.
  - assert (Hs := sorted_by_sorted
                    (fun x y : str * bytes => str_ltb (fst x) (fst y))
                    (fun a b0 => str_ltb_asym (fst a) (fst b0))
                    (fun a b0 c => str_leb_trans (fst a) (fst b0) (fst c))
                    (_folders b)).
    induction Hs as [| x l Hs IH Hall]; simpl; constructor; auto.
    rewrite Forall_forall in *. intros k Hk.
    apply in_map_iff in Hk as (e & <- & He). now apply Hall.
  - apply Permutation_map. apply sorted_by_perm.
Qed.

(** The bytes that [assemble] returns hold the folder chunks in the
    order of [sorted_folders]. *)
Lemma assemble_emits_sorted_folders (h : Host) (fuel : nat) (b b' : Blocks)
  (out : bytes) :
  assemble h fuel b = Ok (Some out, b') ->
  exists before after,
    out = before ++ concat (map snd (sorted_folders b')) ++ after.
Proof.
  unfold assemble. intros Ha.
  destruct (process_file_map h fuel (_files b)) as [[files fm] | e];
    simpl in Ha; [ | discriminate ].
  destruct files as [files |]; [ | discriminate ].
  open_run Ha.
  destruct (_setup_problems b1); inversion Ha; subst.
  match goal with
  | |- exists before after,
        ?c0 :: ?c1 :: ?c2 :: ?c3 :: ?c4 :: ?c5 :: ?c6
          :: ?s1 ++ ?s2 ++ ?s3 ++ _ ++ ?rest = _ =>
      exists ([c0; c1; c2; c3; c4; c5; c6] ++ s1 ++ s2 ++ s3), rest
  end.
  rewrite <- !app_assoc. reflexivity.
Qed.

(* ------------------------------------------------------------------ *)
(** ** Parents before children *)

(** [Blocks()], then the folder [a/b]. *)
Lemma relative_folder_without_parent :
  exists b out b',
    add_folder (py "a/b") new_Blocks = Ok b
    /\ reachable empty_host b
    /\ assemble empty_host 0 b = Ok (Some out, b')
    /\ map fst (sorted_folders b') = [py "a/b"]
    /\ ~ parents_are_roots_or_earlier (map fst (sorted_folders b')).
Proof.
  eexists; eexists; eexists.
  split; [ vm_compute; reflexivity | ].
  split.
  { eapply reach_step with (o := OpAddFolder (py "a/b"));
      [ constructor | vm_compute; reflexivity ]. }
  split; [ vm_compute; reflexivity | ].
  match goal with
  | |- ?ks = _ /\ _ => assert (Hk : ks = [py "a/b"])
  end.
  { vm_compute. reflexivity. }
  split; [ exact Hk | ].
  - rewrite Hk. intros Hp.
    destruct (Hp 0%nat (py "a/b") eq_refl)
      as (parent & name & [Heq Hn] & Hor).
    assert (Hpar : parent = [97]).
    { destruct parent as [| x [| y [| z p]]]; simpl in Heq;
        inversion Heq; subst; try reflexivity.
      match goal with
      | H : [] = _ |- _ => destruct p; discriminate H
      end. }
    subst parent.
    destruct Hor as [[H | [H | H]] | (j & Hj & _)];
      try discriminate; lia.
Qed.

(** C8, as the code has it.  In the bytes that [assemble] returns the
    folder chunks stand in the order of their paths, and the parent of
    every folder either holds no slash (the root, the home directory,
    or a bare relative name, which [add_folder] leaves out) or is the
    path of a folder chunk that stands earlier. *)
Theorem folder_parents_precede_children (h : Host) (fuel : nat)
  (b b' : Blocks) (out : bytes) :
  reachable h b ->
  assemble h fuel b = Ok (Some out, b') ->
  (exists before after,
      out = before ++ concat (map snd (sorted_folders b')) ++ after)
  /\ StronglySorted (fun x y => str_ltb y x = false)
       (map fst (sorted_folders b'))
  /\ parents_are_bare_or_earlier (map fst (sorted_folders b')).
Proof.
  intros Hr Ha.
  split; [ eapply assemble_emits_sorted_folders; eauto | ].
  destruct (sorted_folders_keys b') as [Hs Hp].
  split; [ exact Hs | ].
  apply sorted_closed_parents_earlier; [ exact Hs | ].
  eapply folders_closed_perm; [ symmetry; exact Hp | ].
  eapply assemble_closed; [ | exact Ha ].
  now apply reachable_closed with (h := h).
Qed.

(* ------------------------------------------------------------------ *)
(** ** The dictionary of the compressor *)

Section KeyFacts.
Context {K V : Type} `{EqDec K}.

Lemma dict_set_keys (k : K) (v : V) (d : dict K V) :
  map fst (dict_set k v d)
  = if in_dec eq_dec k (map fst d) then map fst d else map fst d ++ [k].
Proof.
  induction d as [| [k' v'] d IH]; simpl; [ reflexivity | ].
  destruct (eq_dec k k') as [-> | Hne]; simpl.
  - destruct (eq_dec k' k'); [ reflexivity | congruence ].
  - rewrite IH. destruct (eq_dec k' k); [ congruence | ].
    destruct (in_dec eq_dec k (map fst d)); reflexivity.
Qed.

Lemma dict_set_keys_NoDup (k : K) (v : V) (d : dict K V) :
  NoDup (map fst d) -> NoDup (map fst (dict_set k v d)).
Proof.
  intros Hn. rewrite dict_set_keys.
  destruct (in_dec eq_dec k (map fst d)); [ exact Hn | ].
  apply NoDup_app; [ exact Hn | repeat constructor; simpl; tauto | ].
  intros x Hx [<- | []]. contradiction.
Qed.

Lemma dict_set_keys_In (k x : K) (v : V) (d : dict K V) :
  In x (map fst (dict_set k v d)) <-> x = k \/ In x (map fst d).
Proof.
  rewrite dict_set_keys.
  destruct (in_dec eq_dec k (map fst d)).
  - split; [ tauto | intros [-> | Hin]; assumption ].
  - rewrite in_app_iff. simpl. intuition congruence.
Qed.

End KeyFacts.

Lemma counter_incr_keys (k : bytes) (histo : dict bytes Z) :
  (NoDup (map fst histo) -> NoDup (map fst (counter_incr k histo)))
  /\ forall x, In x (map fst (counter_incr k histo))
               <-> x = k \/ In x (map fst histo).
Proof.
  unfold counter_incr. destruct (dict_get k histo); split;
    try apply dict_set_keys_NoDup; intros; apply dict_set_keys_In.
Qed.

(** The keys of a histogram filled by a loop. *)
Lemma counter_fold_keys {X} (f : X -> bytes) (xs : list X) :
  forall histo,
    (NoDup (map fst histo) ->
     NoDup (map fst (fold_left (fun h x => counter_incr (f x) h) xs histo)))
    /\ forall k,
         In k (map fst (fold_left (fun h x => counter_incr (f x) h) xs histo))
         <-> In k (map fst histo) \/ exists x, In x xs /\ k = f x.
Proof.
  induction xs as [| x xs IH]; simpl; intros histo.
  - split; [ auto | ]. intros k. split; [ auto | ].
    intros [Hk | (x & [] & _)]. exact Hk.
  - destruct (IH (counter_incr (f x) histo)) as [Hn Hi].
    destruct (counter_incr_keys (f x) histo) as [Hn' Hi'].
    split; [ auto | ].
    intros k. rewrite Hi, Hi'. split.
    + intros [[-> | Hk] | (y & Hy & ->)]; eauto.
    + intros [Hk | (y & [<- | Hy] & ->)]; eauto.
Qed.

Lemma slice_length {A} (s : list A) (pos count : nat) :
  (pos + count <= length s)%nat ->
  length (slice s pos (pos + count)) = count.
Proof.
  intros Hle. unfold slice.
  rewrite length_firstn, length_skipn. lia.
Qed.

Lemma substring_histogram_keys (body : bytes) :
  NoDup (map fst (substring_histogram body))
  /\ forall k, In k (map fst (substring_histogram body)) ->
               (2 <= length k <= 15)%nat.
Proof.
  unfold substring_histogram.
  assert (Hgen :
    forall counts histo,
      (forall c, In c counts -> (2 <= c <= 15)%nat) ->
      NoDup (map fst histo) ->
      (forall k, In k (map fst histo) -> (2 <= length k <= 15)%nat) ->
      let r :=
        fold_left
          (fun histo count =>
             fold_left
               (fun histo pos =>
                  counter_incr (slice body pos (pos + count)) histo)
               (seq 0 (length body + 1 - count)) histo)
          counts histo in
      NoDup (map fst r)
      /\ forall k, In k (map fst r) -> (2 <= length k <= 15)%nat).
  { induction counts as [| c counts IH]; simpl; intros histo Hc Hn Hk.
    - auto.
    - destruct (counter_fold_keys (fun pos => slice body pos (pos + c))
                  (seq 0 (length body + 1 - c)) histo) as [Hn' Hi'].
      apply IH; auto.
      intros k Hin. apply Hi' in Hin as [Hin | (pos & Hpos & ->)]; auto.
      apply in_seq in Hpos. rewrite slice_length by lia.
      apply Hc. now left. }
  apply Hgen.
  - intros c Hc. apply in_seq in Hc. lia.
  - constructor.
  - intros k [].
Qed.

Lemma single_value_histogram_keys (body : bytes) :
  NoDup (map fst (single_value_histogram body))
  /\ forall k, In k (map fst (single_value_histogram body))
               <-> exists b, In b body /\ k = [b].
Proof.
  unfold single_value_histogram.
  destruct (counter_fold_keys (fun val : Z => [val]) body []) as [Hn Hi].
  split; [ apply Hn; constructor | ].
  intros k. rewrite Hi. simpl. tauto.
Qed.

Lemma single_value_histogram_size (body : bytes) :
  is_bytes body -> (length (single_value_histogram body) <= 256)%nat.
Proof.
  intros Hb.
  destruct (single_value_histogram_keys body) as [Hn Hi].
  rewrite <- (length_map fst).
  change 256%nat with (length (map (fun n => [Z.of_nat n]) (seq 0 256))).
  apply NoDup_incl_length; [ exact Hn | ].
  intros k Hk. apply Hi in Hk as (b & Hin & ->).
  unfold is_bytes in Hb. rewrite Forall_forall in Hb.
  specialize (Hb b Hin). unfold is_byte in Hb.
  apply in_map_iff. exists (Z.to_nat b). split.
  - f_equal. lia.
  - apply in_seq. lia.
Qed.

Lemma NoDup_firstn {A} (n : nat) (l : list A) :
  NoDup l -> NoDup (firstn n l).
Proof.
  intros Hn. rewrite <- (firstn_skipn n l) in Hn.
  now apply NoDup_app_remove_r in Hn.
Qed.

Lemma In_firstn {A} (n : nat) (l : list A) (x : A) :
  In x (firstn n l) -> In x l.
Proof.
  intros Hin. rewrite <- (firstn_skipn n l). apply in_or_app. now left.
Qed.

(** The entries the dictionary is built from: their keys are distinct,
    have 1 to 15 bytes, hold every byte of the body, and are at most
    4095. *)
Lemma common_keys (body : bytes) :
  is_bytes body ->
  let common :=
    sorted_by (fun y x : bytes * Z => snd y <? snd x)
      (most_common (4095 - length (single_value_histogram body))
         (substring_histogram body)
       ++ most_common_all (single_value_histogram body)) in
  NoDup (map fst common)
  /\ (forall k, In k (map fst common) -> (1 <= length k <= 15)%nat)
  /\ (forall b, In b body -> In [b] (map fst common))
  /\ (length common <= 4095)%nat.
Proof.
  intros Hb common.
  destruct (substring_histogram_keys body) as [Hn2 Hl2].
  destruct (single_value_histogram_keys body) as [Hn1 Hi1].
  pose proof (single_value_histogram_size body Hb) as Hsz.
  set (multi := most_common (4095 - length (single_value_histogram body))
                  (substring_histogram body)) in *.
  set (single := most_common_all (single_value_histogram body)) in *.
  assert (Hpm : Permutation (map fst single)
                  (map fst (single_value_histogram body))).
  { apply Permutation_map. apply sorted_by_perm. }
  assert (Hmulti_sub : forall k, In k (map fst multi) ->
                                 In k (map fst (substring_histogram body))).
  { intros k Hk. unfold multi, most_common in Hk.
    rewrite <- firstn_map in Hk. apply In_firstn in Hk.
    eapply Permutation_in; [ | exact Hk ].
    apply Permutation_map. apply sorted_by_perm. }
  assert (Hmulti_nd : NoDup (map fst multi)).
  { unfold multi, most_common. rewrite <- firstn_map. apply NoDup_firstn.
    eapply Permutation_NoDup; [ | exact Hn2 ].
    symmetry. apply Permutation_map. apply sorted_by_perm. }
  assert (Hpc : Permutation (map fst common) (map fst (multi ++ single))).
  { apply Permutation_map. apply sorted_by_perm. }
  rewrite map_app in Hpc.
  repeat split.
  - eapply Permutation_NoDup; [ symmetry; exact Hpc | ].
    apply NoDup_app; [ exact Hmulti_nd | | ].
    + eapply Permutation_NoDup; [ symmetry; exact Hpm | exact Hn1 ].
    + intros k Hk1 Hk2. apply Hmulti_sub, Hl2 in Hk1.
      eapply Permutation_in in Hk2; [ | exact Hpm ].
      apply Hi1 in Hk2 as (b & _ & ->). simpl in Hk1. lia.
  - eapply Permutation_in in H; [ | exact Hpc ].
    apply in_app_or in H as [Hk | Hk].
    + apply Hmulti_sub, Hl2 in Hk. lia.
    + eapply Permutation_in in Hk; [ | exact Hpm ].
      apply Hi1 in Hk as (b & _ & ->). simpl. lia.
  - eapply Permutation_in in H; [ | exact Hpc ].
    apply in_app_or in H as [Hk | Hk].
    + apply Hmulti_sub, Hl2 in Hk. lia.
    + eapply Permutation_in in Hk; [ | exact Hpm ].
      apply Hi1 in Hk as (b & _ & ->). simpl. lia.
  - intros b Hin. eapply Permutation_in; [ symmetry; exact Hpc | ].
    apply in_or_app. right.
    eapply Permutation_in; [ symmetry; exact Hpm | ].
    apply Hi1. eauto.
  - rewrite <- (length_map fst).
    rewrite (Permutation_length Hpc), length_app, !length_map.
    assert (length multi
            <= 4095 - length (single_value_histogram body))%nat.
    { unfold multi, most_common. rewrite length_firstn. lia. }
    assert (length single = length (single_value_histogram body)).
    { apply Permutation_length. apply sorted_by_perm. }
    lia.
Qed.

(* ------------------------------------------------------------------ *)
(** ** Numbered dictionaries *)

Section Numbered.
Context {A : Type} `{EqDec A}.

Lemma combine_fst {B C} (l : list B) (l' : list C) :
  length l = length l' -> map fst (combine l l') = l.
Proof.
  revert l'. induction l as [| x l IH]; intros [| y l'] Hl; simpl in *;
    try discriminate; [ reflexivity | ].
  f_equal. apply IH. congruence.
Qed.

Lemma combine_snoc {B C} (l1 l2 : list B) (l1' l2' : list C) :
  length l1 = length l1' ->
  combine (l1 ++ l2) (l1' ++ l2') = combine l1 l1' ++ combine l2 l2'.
Proof.
  revert l1'. induction l1 as [| x l1 IH]; intros [| y l1'] Hl; simpl in *;
    try discriminate; [ reflexivity | ].
  f_equal. apply IH. congruence.
Qed.

Lemma numbered_keys (keys : list A) : map fst (numbered keys) = keys.
Proof.
  unfold numbered. apply combine_fst.
  now rewrite length_map, length_seq.
Qed.

Lemma numbered_length (keys : list A) :
  length (numbered keys) = length keys.
Proof. now rewrite <- (length_map fst), numbered_keys. Qed.

Lemma numbered_app (keys : list A) (k : A) :
  numbered (keys ++ [k]) = numbered keys ++ [(k, Z.of_nat (length keys))].
Proof.
  unfold numbered. rewrite length_app. simpl.
  rewrite Nat.add_1_r, seq_S, map_app. simpl.
  rewrite combine_snoc; [ reflexivity | ].
  now rewrite length_map, length_seq.
Qed.

Lemma numbered_In (keys : list A) (k : A) (i : Z) :
  In (k, i) (numbered keys) <->
  0 <= i /\ nth_error keys (Z.to_nat i) = Some k.
Proof.
  induction keys as [| k0 keys IH] using rev_ind.
  - simpl. split; [ tauto | ]. intros [_ Hn].
    destruct (Z.to_nat i); discriminate.
  - rewrite numbered_app, in_app_iff, IH. simpl. split.
    + intros [[Hi Hn] | [Heq | []]].
      * split; [ exact Hi | ].
        rewrite nth_error_app1; [ exact Hn | ].
        apply nth_error_Some. congruence.
      * inversion Heq; subst. split; [ lia | ].
        rewrite Nat2Z.id, nth_error_app2, Nat.sub_diag; [ | lia ].
        reflexivity.
    + intros [Hi Hn].
      destruct (Nat.lt_ge_cases (Z.to_nat i) (length keys)) as [Hlt | Hge].
      * left. split; [ exact Hi | ].
        now rewrite nth_error_app1 in Hn.
      * right. left. rewrite nth_error_app2 in Hn by exact Hge.
        destruct (Z.to_nat i - length keys)%nat as [| m] eqn:E.
        -- simpl in Hn. inversion Hn. f_equal. lia.
        -- simpl in Hn. destruct m; discriminate.
Qed.

Lemma NoDup_nth_error_inj (l : list A) (i j : nat) (x : A) :
  NoDup l -> nth_error l i = Some x -> nth_error l j = Some x -> i = j.
Proof.
  intros Hn Hi Hj. apply (proj1 (NoDup_nth_error l) Hn).
  - apply nth_error_Some. congruence.
  - congruence.
Qed.

(** In a numbered dictionary a key is found at its position. *)
Lemma numbered_get (keys : list A) (k : A) (i : Z) :
  NoDup keys ->
  (dict_get k (numbered keys) = Some i <->
   0 <= i /\ nth_error keys (Z.to_nat i) = Some k).
Proof.
  intros Hn. split.
  - intros Hg. apply dict_get_In in Hg. now apply numbered_In.
  - intros Hi. destruct (dict_get k (numbered keys)) as [j |] eqn:Hg.
    + apply dict_get_In, numbered_In in Hg as [Hj Hnj].
      destruct Hi as [Hi Hni].
      pose proof (NoDup_nth_error_inj _ _ _ _ Hn Hni Hnj). f_equal. lia.
    + apply dict_get_None in Hg. rewrite numbered_keys in Hg.
      exfalso. apply Hg. destruct Hi as [_ Hni].
      eapply nth_error_In; eauto.
Qed.

Lemma inverted_swap (keys : list A) :
  inverted keys = map (fun e => (snd e, fst e)) (numbered keys).
Proof.
  unfold inverted, numbered.
  generalize (map Z.of_nat (seq 0 (length keys))) as l.
  induction keys as [| k keys IH]; intros [| i l]; simpl; auto.
  f_equal. apply IH.
Qed.

Lemma inverted_app (keys : list A) (k : A) :
  inverted (keys ++ [k]) = inverted keys ++ [(Z.of_nat (length keys), k)].
Proof.
  rewrite !inverted_swap, numbered_app, map_app. reflexivity.
Qed.

Lemma inverted_keys (keys : list A) :
  map fst (inverted keys) = map Z.of_nat (seq 0 (length keys)).
Proof.
  unfold inverted. apply combine_fst.
  now rewrite length_map, length_seq.
Qed.

Lemma inverted_get (keys : list A) (i : Z) :
  dict_get i (inverted keys)
  = if 0 <=? i then nth_error keys (Z.to_nat i) else None.
Proof.
  induction keys as [| k keys IH] using rev_ind.
  - simpl. destruct (0 <=? i); [ | reflexivity ].
    now destruct (Z.to_nat i).
  - rewrite inverted_app.
    assert (Happ : forall (d : dict Z A) k' v,
               dict_get i (d ++ [(k', v)])
               = match dict_get i d with
                 | Some x => Some x
                 | None => if eq_dec i k' then Some v else None
                 end).
    { induction d as [| [k1 v1] d IHd]; intros k' v; simpl.
      - reflexivity.
      - destruct (eq_dec i k1); [ reflexivity | apply IHd ]. }
    rewrite Happ, IH.
    destruct (0 <=? i) eqn:Hi.
    + apply Z.leb_le in Hi.
      destruct (Nat.lt_ge_cases (Z.to_nat i) (length keys)) as [Hlt | Hge].
      * rewrite nth_error_app1 by exact Hlt.
        destruct (nth_error keys (Z.to_nat i)) eqn:E; [ reflexivity | ].
        apply nth_error_None in E. lia.
      * rewrite (proj2 (nth_error_None keys (Z.to_nat i)) Hge).
        rewrite nth_error_app2 by exact Hge.
        destruct (eq_dec i (Z.of_nat (length keys))) as [-> | Hne].
        -- now rewrite Nat2Z.id, Nat.sub_diag.
        -- destruct (Z.to_nat i - length keys)%nat as [| m] eqn:E;
             [ exfalso; apply Hne; lia | ].
           simpl. now destruct m.
    + destruct (eq_dec i (Z.of_nat (length keys))); [ | reflexivity ].
      apply Z.leb_gt in Hi. lia.
Qed.

End Numbered.

Lemma number_entries_spec (common : list (bytes * Z)) :
  NoDup (map fst common) ->
  exists max_len,
    number_entries common
    = (max_len, numbered (map fst common), Z.of_nat (length common)).
Proof.
  unfold number_entries. intros Hn.
  assert (Hgen :
    forall (l : list (bytes * Z)) (done_keys : list bytes) max_len,
      NoDup (done_keys ++ map fst l) ->
      exists max_len',
        fold_left
          (fun st e =>
             let '(max_len, ret, index) := st in
             (Nat.max max_len (length (fst e)), dict_set (fst e) index ret,
              index + 1))
          l (max_len, numbered done_keys, Z.of_nat (length done_keys))
        = (max_len', numbered (done_keys ++ map fst l),
           Z.of_nat (length done_keys + length l))).
  { induction l as [| [k c] l IH]; simpl; intros done_keys max_len Hnd.
    - exists max_len. now rewrite app_nil_r, Nat.add_0_r.
    - rewrite dict_set_absent.
      + rewrite <- numbered_app.
        replace (Z.of_nat (length done_keys) + 1)
          with (Z.of_nat (length (done_keys ++ [k])))
          by (rewrite length_app; simpl; lia).
        destruct (IH (done_keys ++ [k]) (Nat.max max_len (length k)))
          as [m Hm].
        { now rewrite <- app_assoc. }
        exists m.
        change (done_keys ++ k :: map fst l)
          with (done_keys ++ [k] ++ map fst l).
        rewrite app_assoc.
        replace (length done_keys + S (length l))%nat
          with (length (done_keys ++ [k]) + length l)%nat
          by (rewrite length_app; simpl; lia).
        exact Hm.
      + rewrite numbered_keys. apply NoDup_remove_2 in Hnd.
        intros Hin. apply Hnd. apply in_or_app. now left. }
  destruct (Hgen common [] 0%nat Hn) as [m Hm]. exists m. exact Hm.
Qed.

(** The first phase returns a numbered dictionary whose keys are
    distinct, have 1 to 15 bytes, hold every byte of the body, and are
    at most 4095. *)
Lemma dictionary_creation_spec (body : bytes) :
  is_bytes body ->
  exists max_len keys,
    compress_dictionary_creation body = Ok (max_len, numbered keys)
    /\ NoDup keys
    /\ (forall k, In k keys -> (1 <= length k <= 15)%nat)
    /\ (forall b, In b body -> In [b] keys)
    /\ (length keys <= 4095)%nat.
Proof.
  intros Hb. destruct (common_keys body Hb) as (Hn & Hl & Hs & Hsz).
  unfold compress_dictionary_creation.
  set (common := sorted_by _ _) in *.
  destruct (number_entries_spec common Hn) as [m Hm].
  assert (Hle : (len common <=? 4095) = true).
  { apply Z.leb_le. unfold len. lia. }
  rewrite Hle. simpl. rewrite Hm.
  exists m, (map fst common). repeat split; auto.
  - now apply Hl.
  - now apply Hl.
  - now rewrite length_map.
Qed.

(* ------------------------------------------------------------------ *)
(** ** Greedy encoding *)

Lemma longest_match_spec (body : bytes) (rl : dict bytes Z) (pos : nat) :
  forall n i pos',
    longest_match body rl pos n = Some (i, pos') ->
    exists m,
      (1 <= m <= n)%nat /\ pos' = (pos + m)%nat
      /\ dict_get (slice body pos (pos + m)) rl = Some i.
Proof.
  induction n as [| n IH]; simpl; intros i pos' Hm; [ discriminate | ].
  destruct (dict_get (slice body pos (pos + S n)) rl) as [j |] eqn:Hg.
  - inversion Hm; subst. exists (S n). repeat split; auto; lia.
  - destruct (IH _ _ Hm) as (m & Hr & Hp & Hd).
    exists m. repeat split; auto; lia.
Qed.

Lemma longest_match_finds (body : bytes) (rl : dict bytes Z) (pos : nat)
  (i0 : Z) :
  dict_get (slice body pos (pos + 1)) rl = Some i0 ->
  forall n, (1 <= n)%nat -> longest_match body rl pos n <> None.
Proof.
  intros Hg. induction n as [| n IH]; intros Hn; [ lia | ]. simpl.
  destruct (dict_get (slice body pos (pos + S n)) rl) eqn:E;
    [ discriminate | ].
  destruct n as [| n]; [ | apply IH; lia ].
  rewrite Hg in E. discriminate.
Qed.

Lemma firstn_add_slice {A} (s : list A) (pos m : nat) :
  firstn (pos + m) s = firstn pos s ++ slice s pos (pos + m).
Proof.
  unfold slice. replace (pos + m - pos)%nat with m by lia.
  revert s. induction pos as [| pos IH]; intros s; simpl.
  - reflexivity.
  - destruct s as [| x s]; simpl.
    + now rewrite firstn_nil.
    + f_equal. apply IH.
Qed.

Lemma slice_one (body : bytes) (pos : nat) :
  (pos < length body)%nat ->
  exists b, In b body /\ slice body pos (pos + 1) = [b].
Proof.
  intros Hlt. unfold slice. replace (pos + 1 - pos)%nat with 1%nat by lia.
  destruct (skipn pos body) as [| b rest] eqn:E.
  - apply (f_equal (@length Z)) in E. rewrite length_skipn in E.
    simpl in E. lia.
  - exists b. split; [ | reflexivity ].
    rewrite <- (firstn_skipn pos body), E. apply in_or_app. right.
    now left.
Qed.

Lemma expand_app (keys : list bytes) (a b : list Z) :
  expand keys (a ++ b) = expand keys a ++ expand keys b.
Proof. unfold expand. now rewrite map_app, concat_app. Qed.

Lemma numbered_get_entry (keys : list bytes) (k : bytes) (i : Z) :
  dict_get k (numbered keys) = Some i ->
  valid_index keys i /\ entry_at keys i = k.
Proof.
  intros Hg. apply dict_get_In, numbered_In in Hg as [Hi Hn].
  split.
  - split; [ exact Hi | ].
    assert (Z.to_nat i < length keys)%nat
      by (apply nth_error_Some; congruence).
    unfold len. lia.
  - unfold entry_at. now apply nth_error_nth.
Qed.

Lemma encode_from_spec (body : bytes) (max_len : nat) (keys : list bytes) :
  (forall b, In b body -> In [b] keys) ->
  NoDup keys ->
  forall fuel pos ret,
    (pos <= length body)%nat ->
    (length body - pos <= fuel)%nat ->
    expand keys ret = firstn pos body ->
    Forall (valid_index keys) ret ->
    exists encoded,
      encode_from fuel body max_len (numbered keys) pos ret = Ok encoded
      /\ expand keys encoded = body
      /\ Forall (valid_index keys) encoded
      /\ (ret <> [] -> encoded <> [])
      /\ ((pos < length body)%nat -> encoded <> []).
Proof.
  intros Hsingle Hnd.
  induction fuel as [| fuel IH]; intros pos ret Hpos Hfuel Hexp Hval.
  - assert (pos = length body) by lia. subst pos.
    simpl. rewrite Nat.ltb_irrefl. exists ret.
    rewrite firstn_all in Hexp. repeat split; auto. lia.
  - simpl. destruct (pos <? length body)%nat eqn:Hlt.
    + apply Nat.ltb_lt in Hlt.
      set (tail := Nat.min (pos + max_len + 1) (length body)).
      destruct (slice_one body pos Hlt) as (b & Hb & Hs1).
      assert (Hin1 : exists i0,
                 dict_get (slice body pos (pos + 1)) (numbered keys)
                 = Some i0).
      { rewrite Hs1. apply Hsingle in Hb.
        apply In_nth_error in Hb as [n Hn]. exists (Z.of_nat n).
        apply numbered_get; [ exact Hnd | ].
        split; [ lia | now rewrite Nat2Z.id ]. }
      destruct Hin1 as [i0 Hi0].
      destruct (longest_match body (numbered keys) pos (tail - pos))
        as [[i pos'] |] eqn:Hm.
      * destruct (longest_match_spec _ _ _ _ _ _ Hm)
          as (m & Hr & -> & Hd).
        destruct (numbered_get_entry _ _ _ Hd) as [Hv He].
        destruct (IH (pos + m)%nat (ret ++ [i])) as (enc & H1 & H2 & H3 & H4 & _).
        -- unfold tail in Hr. lia.
        -- lia.
        -- rewrite expand_app, Hexp, firstn_add_slice. f_equal.
           unfold expand. simpl. now rewrite He, app_nil_r.
        -- apply Forall_app. split; [ exact Hval | now constructor ].
        -- exists enc. repeat split; auto.
           ++ intros _. apply H4. now destruct ret.
           ++ intros _. apply H4. now destruct ret.
      * exfalso. eapply longest_match_finds; [ exact Hi0 | | exact Hm ].
        unfold tail. lia.
    + apply Nat.ltb_ge in Hlt. assert (pos = length body) by lia. subst pos.
      exists ret. rewrite firstn_all in Hexp. repeat split; auto. lia.
Qed.

Lemma encoded_body_spec (body : bytes) (max_len : nat) (keys : list bytes) :
  (forall b, In b body -> In [b] keys) ->
  NoDup keys ->
  body <> [] ->
  exists encoded,
    compress_encoded_body body max_len (numbered keys) = Ok encoded
    /\ expand keys encoded = body
    /\ Forall (valid_index keys) encoded
    /\ encoded <> [].
Proof.
  intros Hs Hn Hne. unfold compress_encoded_body.
  destruct (encode_from_spec body max_len keys Hs Hn (length body) 0%nat [])
    as (enc & H1 & H2 & H3 & _ & H5); auto; try lia.
  exists enc. repeat split; auto. apply H5.
  destruct body; [ congruence | simpl; lia ].
Qed.
(* ------------------------------------------------------------------ *)
(** * Further properties *)

(** ** The chunk creators *)

Lemma shiftr8_byte (value : Z) :
  0 <= value <= 65535 -> is_byte (Z.shiftr value 8).
Proof.
  intros H. unfold is_byte. rewrite Z.shiftr_div_pow2 by lia.
  change (2 ^ 8) with 256. split.
  - apply Z.div_pos; lia.
  - apply Z.div_lt_upper_bound; lia.
Qed.

Lemma land255_byte (value : Z) : 0 <= value -> is_byte (Z.land value 255).
Proof.
  intros H. unfold is_byte. change 255 with (Z.ones 8).
  rewrite Z.land_ones by lia. change (2 ^ 8) with 256.
  pose proof (Z.mod_pos_bound value 256). lia.
Qed.

(** [mk_uint16] accepts exactly the values of 16 bits and writes the
    high byte first; everything else ends in the assertion. *)
Theorem mk_uint16_two_bytes_big_endian (value : Z) :
  (0 <= value <= 65535 ->
   exists hi lo,
     mk_uint16 value = Ok [hi; lo]
     /\ is_byte hi /\ is_byte lo /\ hi * 256 + lo = value)
  /\ (value < 0 \/ 65535 < value ->
      mk_uint16 value = Raise AssertionError).
Proof.
  split; intros H; unfold mk_uint16.
  - destruct ((0 <=? value) && (value <=? 65535)) eqn:E; [ | lia ].
    exists (Z.shiftr value 8), (Z.land value 255).
    split; [ reflexivity | ].
    split; [ now apply shiftr8_byte | ].
    split; [ apply land255_byte; lia | apply uint16_big_endian; lia ].
  - destruct ((0 <=? value) && (value <=? 65535)) eqn:E; [ lia | ].
    reflexivity.
Qed.

Lemma mk_uint16_two_bytes_big_endian_witness :
  (exists hi lo,
      mk_uint16 258 = Ok [hi; lo]
      /\ is_byte hi /\ is_byte lo /\ hi * 256 + lo = 258)
  /\ mk_uint16 65536 = Raise AssertionError.
Proof.
  split.
  - apply (proj1 (mk_uint16_two_bytes_big_endian 258)). lia.
  - apply (proj2 (mk_uint16_two_bytes_big_endian 65536)). right. lia.
Defined.

Lemma mk_ref_ok (index : Z) (out : bytes) :
  mk_ref index = Ok out -> 0 <= index <= 65535 /\ out = refs [index].
Proof. intros H. apply mk_uint16_ok in H as [H1 H2]. now split. Qed.

Lemma mk_uint8_ok (value : Z) (out : bytes) :
  mk_uint8 value = Ok out -> 0 <= value <= 255 /\ out = [value].
Proof.
  unfold mk_uint8.
  destruct ((0 <=? value) && (value <=? 255)) eqn:E; [ | discriminate ].
  intros H. inversion H. split; [ lia | reflexivity ].
Qed.

Lemma mk_chunk_short (kind : Z) (payload out : bytes) :
  (length payload < 256)%nat ->
  mk_chunk kind payload = Ok out ->
  out = kind :: 0 :: len payload :: payload.
Proof.
  intros Hl H. apply mk_chunk_framed in H as [_ ->].
  assert (Hr : 0 <= len payload < 256) by (unfold len; lia).
  f_equal. f_equal.
  - rewrite Z.shiftr_div_pow2 by lia. apply Z.div_small. simpl. lia.
  - f_equal. change 255 with (Z.ones 8). rewrite Z.land_ones by lia.
    apply Z.mod_small. simpl. lia.
Qed.

(** Opens a block creator that returned: every [mk_ref], [mk_uint16],
    [mk_uint8] and [mk_bool] gives its bytes, and the chunk is short. *)
Ltac open_block H :=
  repeat destruct_bind H;
  repeat match goal with
    | E : mk_ref _ = Ok _ |- _ => apply mk_ref_ok in E as [? ->]
    | E : mk_uint16 _ = Ok _ |- _ => apply mk_uint16_ok in E as [? ->]
    | E : mk_bool _ = Ok _ |- _ => apply mk_uint8_ok in E as [? ->]
    | E : mk_uint8 _ = Ok _ |- _ => apply mk_uint8_ok in E as [? ->]
    end;
  apply mk_chunk_short in H; [ | simpl; lia ];
  subst; reflexivity.

(** The blocks of a fixed shape: each is one chunk of its own kind,
    whose length byte counts the references, two bytes each and high
    byte first, and the flag byte if there is one.  [mk_block_chown] and
    [mk_block_chgroup] return the same bytes. *)
Theorem fixed_block_layouts (x y z : Z) (flag : bool) (out : bytes) :
  (mk_block_folder x y = Ok out -> out = [20; 0; 4] ++ refs [x; y])
  /\ (mk_block_file x y z = Ok out -> out = [21; 0; 6] ++ refs [x; y; z])
  /\ (mk_block_chmod x y flag = Ok out ->
      out = [24; 0; 5] ++ refs [x; y] ++ [if flag then 1 else 0])
  /\ (mk_block_chown x y flag = Ok out ->
      out = [25; 0; 5] ++ refs [x; y] ++ [if flag then 1 else 0])
  /\ (mk_block_chgroup x y flag = Ok out ->
      out = [25; 0; 5] ++ refs [x; y] ++ [if flag then 1 else 0])
  /\ (mk_block_user x y = Ok out -> out = [40; 0; 4] ++ refs [x; y])
  /\ (mk_block_group x y = Ok out -> out = [41; 0; 4] ++ refs [x; y])
  /\ (mk_block_rm_user x flag = Ok out ->
      out = [42; 0; 3] ++ refs [x] ++ [if flag then 1 else 0])
  /\ (mk_block_rm_group x y = Ok out -> out = [43; 0; 4] ++ refs [x; y])
  /\ (mk_block_build x y z = Ok out -> out = [80; 0; 6] ++ refs [x; y; z])
  /\ (mk_block_test x y z = Ok out -> out = [81; 0; 6] ++ refs [x; y; z])
  /\ (mk_block_copy x y z = Ok out -> out = [83; 0; 6] ++ refs [x; y; z])
  /\ (mk_block_move x y z = Ok out -> out = [84; 0; 6] ++ refs [x; y; z])
  /\ (mk_block_delete x = Ok out -> out = [85; 0; 2] ++ refs [x]).
Proof.
  repeat match goal with |- _ /\ _ => split end; intros H.
  - unfold mk_block_folder in H. open_block H.
  - unfold mk_block_file in H. open_block H.
  - unfold mk_block_chmod in H. open_block H.
  - unfold mk_block_chown in H. open_block H.
  - unfold mk_block_chgroup in H. open_block H.
  - unfold mk_block_user in H. open_block H.
  - unfold mk_block_group in H. open_block H.
  - unfold mk_block_rm_user in H. open_block H.
  - unfold mk_block_rm_group in H. open_block H.
  - unfold mk_block_build in H. open_block H.
  - unfold mk_block_test in H. open_block H.
  - unfold mk_block_copy in H. open_block H.
  - unfold mk_block_move in H. open_block H.
  - unfold mk_block_delete in H. open_block H.
Qed.

Lemma fixed_block_layouts_witness :
  [20; 0; 4; 1; 2; 0; 7] = [20; 0; 4] ++ refs [258; 7]
  /\ [25; 0; 5; 1; 2; 0; 7; 1] = [25; 0; 5] ++ refs [258; 7] ++ [1]
  /\ [85; 0; 2; 1; 2] = [85; 0; 2] ++ refs [258].
Proof.
  split; [ | split ].
  - apply (proj1 (fixed_block_layouts 258 7 0 true [20; 0; 4; 1; 2; 0; 7])).
    reflexivity.
  - apply (proj1 (proj2 (proj2 (proj2 (proj2
             (fixed_block_layouts 258 7 0 true
                [25; 0; 5; 1; 2; 0; 7; 1])))))).
    reflexivity.
  - apply (proj2 (proj2 (proj2 (proj2 (proj2 (proj2 (proj2 (proj2 (proj2
             (proj2 (proj2 (proj2 (proj2
               (fixed_block_layouts 258 7 0 true
                  [85; 0; 2; 1; 2])))))))))))))).
    reflexivity.
Defined.

(* ------------------------------------------------------------------ *)
(** ** String chunks *)

Lemma encode_ascii_ok (text : str) :
  Forall (fun c => c < 128) text -> encode_ascii text = Ok text.
Proof.
  intros H. unfold encode_ascii.
  replace (forallb (fun c => c <? 128) text) with true; [ reflexivity | ].
  symmetry. apply forallb_forall. rewrite Forall_forall in H.
  intros c Hc. apply Z.ltb_lt. now apply H.
Qed.

Lemma encode_ascii_raise (text : str) :
  Exists (fun c => 128 <= c) text ->
  encode_ascii text = Raise UnicodeEncodeError.
Proof.
  intros H. unfold encode_ascii.
  destruct (forallb (fun c => c <? 128) text) eqn:E; [ | reflexivity ].
  rewrite forallb_forall in E. apply Exists_exists in H as (c & Hc & Hge).
  apply E in Hc. apply Z.ltb_lt in Hc. lia.
Qed.

(** A text of ASCII characters goes into a chunk of kind 1, or 4 when
    the home directory is to be replaced in it: the index, the number
    of characters, and one byte for each character. *)
Theorem mk_block_string_ascii_layout (index : Z) (text : str) (home : bool)
  (out : bytes) :
  Forall (fun c => c < 128) text ->
  mk_block_string index text home = Ok out ->
  out = (if home then 4 else 1)
          :: refs [len text + 4] ++ refs [index] ++ refs [len text] ++ text.
Proof.
  intros Ha H. unfold mk_block_string in H.
  rewrite (encode_ascii_ok text Ha) in H.
  repeat destruct_bind H.
  apply mk_ref_ok in E as [_ ->]. apply mk_uint16_ok in E0 as [_ ->].
  apply mk_chunk_framed in H as [_ ->].
  replace (len (refs [index]
                  ++ [Z.shiftr (len text) 8; Z.land (len text) 255] ++ text))
    with (len text + 4)
    by (unfold len, refs; simpl length; lia).
  destruct home; reflexivity.
Qed.

Lemma mk_block_string_ascii_layout_witness :
  [1; 0; 6; 0; 7; 0; 2; 104; 105]
  = 1 :: refs [len [104; 105] + 4] ++ refs [7] ++ refs [len [104; 105]]
        ++ [104; 105].
Proof.
  apply (mk_block_string_ascii_layout 7 [104; 105] false).
  - repeat constructor.
  - reflexivity.
Defined.

(** The two bytes of each character, low byte first. *)
Lemma utf16_le_body_bmp (text : str) :
  Forall (fun c => 0 <= c < 55296 \/ 57343 < c < 65536) text ->
  utf16_le_body text
  = Ok (flat_map (fun c => [Z.land c 255; Z.shiftr c 8]) text).
Proof.
  induction 1 as [| c text Hc Ht IH]; [ reflexivity | ].
  simpl. unfold utf16_le_units.
  destruct (c <? 65536) eqn:E1; [ | lia ].
  destruct ((55296 <=? c) && (c <=? 57343)) eqn:E2; [ lia | ].
  simpl. rewrite IH. reflexivity.
Qed.

Lemma swap_bytes (lo hi : Z) :
  is_byte lo -> is_byte hi ->
  mk_uint16 (Z.shiftl lo 8 + hi) = Ok [lo; hi].
Proof.
  unfold is_byte. intros Hl Hh. unfold mk_uint16.
  rewrite Z.shiftl_mul_pow2 by lia. change (2 ^ 8) with 256.
  destruct ((0 <=? lo * 256 + hi) && (lo * 256 + hi <=? 65535)) eqn:E;
    [ | lia ].
  f_equal. f_equal.
  - rewrite Z.shiftr_div_pow2 by lia. change (2 ^ 8) with 256.
    rewrite Z.div_add_l by lia. rewrite Z.div_small by lia. lia.
  - f_equal. change 255 with (Z.ones 8). rewrite Z.land_ones by lia.
    change (2 ^ 8) with 256. rewrite Z.add_comm, Z.mod_add by lia.
    apply Z.mod_small. lia.
Qed.

Lemma utf16_data_bmp (text : str) :
  Forall (fun c => 0 <= c < 65536) text ->
  utf16_data (flat_map (fun c => [Z.land c 255; Z.shiftr c 8]) text)
  = Ok (flat_map (fun c => [Z.land c 255; Z.shiftr c 8]) text).
Proof.
  induction 1 as [| c text Hc Ht IH]; [ reflexivity | ].
  cbn [flat_map app utf16_data]. rewrite swap_bytes.
  - cbn [rbind]. rewrite IH. reflexivity.
  - apply land255_byte. lia.
  - apply shiftr8_byte. lia.
Qed.

(** A text that is not ASCII and lies in the basic plane, without
    surrogates, goes into a chunk of kind 2, or 5 with the home
    directory replaced; each character takes two bytes, and the low
    byte of the character stands first. *)
Theorem mk_block_string_utf16_layout (index : Z) (text : str) (home : bool)
  (out : bytes) :
  Forall (fun c => 0 <= c < 55296 \/ 57343 < c < 65536) text ->
  Exists (fun c => 128 <= c) text ->
  mk_block_string index text home = Ok out ->
  out = (if home then 5 else 2)
          :: refs [2 * len text + 4] ++ refs [index] ++ refs [len text]
          ++ flat_map (fun c => [Z.land c 255; Z.shiftr c 8]) text.
Proof.
  intros Hb Hn H. unfold mk_block_string in H.
  rewrite (encode_ascii_raise text Hn) in H.
  unfold encode_utf_16 in H. rewrite (utf16_le_body_bmp text Hb) in H.
  simpl in H.
  assert (Hlen : len (flat_map (fun c => [Z.land c 255; Z.shiftr c 8]) text)
                 = len text * 2).
  { unfold len. clear. induction text as [| c text IH]; [ reflexivity | ].
    simpl length. lia. }
  rewrite Hlen, Z.eqb_refl in H. simpl in H.
  rewrite utf16_data_bmp in H.
  2:{ eapply Forall_impl; [ | exact Hb ]. simpl. intros c Hc. lia. }
  simpl in H. repeat destruct_bind H.
  apply mk_ref_ok in E as [_ ->]. apply mk_uint16_ok in E0 as [_ ->].
  apply mk_chunk_framed in H as [_ ->].
  set (p := refs [index] ++ _ ++ _).
  assert (Hp : len p = 2 * len text + 4).
  { subst p. unfold len in *. rewrite !length_app. simpl length. lia. }
  rewrite Hp. destruct home; reflexivity.
Qed.

Lemma mk_block_string_utf16_layout_witness :
  [2; 0; 8; 0; 7; 0; 2; 233; 0; 172; 32]
  = 2 :: refs [2 * len [233; 8364] + 4] ++ refs [7] ++ refs [len [233; 8364]]
        ++ flat_map (fun c => [Z.land c 255; Z.shiftr c 8]) [233; 8364].
Proof.
  apply (mk_block_string_utf16_layout 7 [233; 8364] false).
  - repeat constructor; lia.
  - constructor. lia.
  - reflexivity.
Defined.

Lemma utf16_le_body_length (text : str) :
  Forall (fun c => 0 <= c < 55296 \/ 57343 < c) text ->
  exists body,
    utf16_le_body text = Ok body
    /\ (Exists (fun c => 65536 <= c) text -> len text * 2 < len body)
    /\ len text * 2 <= len body.
Proof.
  induction 1 as [| c text Hc Ht IH].
  - exists []. split; [ reflexivity | ]. split; [ | reflexivity ].
    intros Hex. inversion Hex.
  - destruct IH as (body & Hbody & Hlt & Hle).
    simpl. unfold utf16_le_units.
    destruct (c <? 65536) eqn:E1.
    + destruct ((55296 <=? c) && (c <=? 57343)) eqn:E2; [ lia | ].
      simpl. rewrite Hbody. simpl. eexists. split; [ reflexivity | ].
      unfold len in *. simpl. split.
      * intros Hex. inversion Hex; subst; [ lia | ].
        specialize (Hlt H0). lia.
      * lia.
    + simpl. rewrite Hbody. simpl. eexists. split; [ reflexivity | ].
      unfold len in *. simpl. split; intros; lia.
Qed.

(** A character outside the basic plane takes four bytes in UTF-16, so
    the length check of [mk_block_string] fails and the text is
    refused. *)
Theorem mk_block_string_refuses_astral (index : Z) (text : str)
  (home : bool) :
  Forall (fun c => 0 <= c < 55296 \/ 57343 < c) text ->
  Exists (fun c => 65536 <= c) text ->
  mk_block_string index text home = Raise RuntimeError.
Proof.
  intros Hs Ha. unfold mk_block_string.
  rewrite encode_ascii_raise.
  2:{ apply Exists_exists in Ha as (c & Hc & Hge).
      apply Exists_exists. exists c. split; [ exact Hc | lia ]. }
  destruct (utf16_le_body_length text Hs) as (body & Hbody & Hlt & _).
  unfold encode_utf_16. rewrite Hbody. simpl.
  specialize (Hlt Ha).
  destruct (len body =? len text * 2) eqn:E; [ lia | reflexivity ].
Qed.

Lemma mk_block_string_refuses_astral_witness :
  mk_block_string 0 [97; 128512] false = Raise RuntimeError.
Proof.
  apply mk_block_string_refuses_astral.
  - repeat constructor; lia.
  - right. left. lia.
Defined.

(* ------------------------------------------------------------------ *)
(** ** The launch chunk *)

Lemma mk_refs_total (indices : list Z) :
  Forall (fun i => 0 <= i <= 65535) indices ->
  mk_refs indices = Ok (refs indices).
Proof.
  induction 1 as [| i indices Hi Ht IH]; [ reflexivity | ].
  simpl. unfold mk_ref, mk_uint16.
  destruct ((0 <=? i) && (i <=? 65535)) eqn:E; [ | lia ].
  simpl. rewrite IH. reflexivity.
Qed.

(** [mk_block_launch] takes between 1 and 255 references: none is a
    [RuntimeError], more than 255 fail the assertion on the count byte,
    and otherwise the chunk holds the count and the references. *)
Theorem mk_block_launch_argument_count (indices : list Z) :
  (indices = [] -> mk_block_launch indices = Raise RuntimeError)
  /\ (255 < len indices -> mk_block_launch indices = Raise AssertionError)
  /\ (1 <= len indices <= 255 ->
      Forall (fun i => 0 <= i <= 65535) indices ->
      mk_block_launch indices
      = Ok (82 :: refs [2 * len indices + 1] ++ len indices
               :: refs indices)).
Proof.
  split; [ | split ].
  - intros ->. reflexivity.
  - intros H. unfold mk_block_launch.
    destruct (len indices <? 1) eqn:E; [ lia | ].
    unfold mk_uint8.
    destruct ((0 <=? len indices) && (len indices <=? 255)) eqn:E1;
      [ lia | reflexivity ].
  - intros H Hr. unfold mk_block_launch.
    destruct (len indices <? 1) eqn:E; [ lia | ].
    unfold mk_uint8.
    destruct ((0 <=? len indices) && (len indices <=? 255)) eqn:E1;
      [ | lia ].
    simpl. rewrite (mk_refs_total indices Hr). simpl.
    unfold mk_chunk. simpl.
    assert (Hl : len (len indices :: refs indices) = 2 * len indices + 1).
    { unfold len. simpl length.
      assert (Hr2 : length (refs indices) = (2 * length indices)%nat).
      { clear. induction indices as [| i indices IH]; [ reflexivity | ].
        simpl length. simpl in IH. lia. }
      lia. }
    rewrite Hl. unfold mk_uint16.
    destruct ((0 <=? 2 * len indices + 1) && (2 * len indices + 1 <=? 65535))
      eqn:E2; [ reflexivity | lia ].
Qed.

Lemma mk_block_launch_argument_count_witness :
  mk_block_launch [] = Raise RuntimeError
  /\ mk_block_launch (repeat 0 256) = Raise AssertionError
  /\ mk_block_launch [2; 3; 4]
     = Ok (82 :: refs [2 * len [2; 3; 4] + 1] ++ len [2; 3; 4]
              :: refs [2; 3; 4]).
Proof.
  split; [ | split ].
  - apply (proj1 (mk_block_launch_argument_count [])). reflexivity.
  - apply (proj1 (proj2 (mk_block_launch_argument_count (repeat 0 256)))).
    vm_compute. reflexivity.
  - apply (proj2 (proj2 (mk_block_launch_argument_count [2; 3; 4]))).
    + vm_compute. split; discriminate.
    + repeat constructor; lia.
Defined.
(* ------------------------------------------------------------------ *)
(** ** Line comments and import lines *)

Lemma strip_comment_loop_prefix (line : str) :
  forall (rest : str) (pos : nat) (state : comment_state),
    exists n, strip_comment_loop line pos state rest = firstn n line.
Proof.
  induction rest as [| val rest IH]; intros pos state; simpl.
  - exists (length line). now rewrite firstn_all.
  - destruct state.
    + destruct (val =? 34); [ apply IH | ].
      destruct (val =? 47); apply IH.
    + destruct (val =? 34); apply IH.
    + destruct (val =? 47); [ | apply IH ].
      now exists (pos - 1)%nat.
Qed.

(** [_strip_trailing_comment] only ever cuts: what it returns is the
    line up to some position. *)
Theorem strip_trailing_comment_is_prefix (line : str) :
  exists n, _strip_trailing_comment line = firstn n line.
Proof.
  unfold _strip_trailing_comment.
  destruct (negb (contains2 47 47 line)).
  - exists (length line). now rewrite firstn_all.
  - apply strip_comment_loop_prefix.
Qed.

Lemma strip_comment_loop_string (line s rest : str) :
  ~ In 34 s ->
  forall pos,
    strip_comment_loop line pos inside_string (s ++ 34 :: rest)
    = strip_comment_loop line (pos + length s + 1) in_plain_text rest.
Proof.
  induction s as [| x s IH]; intros Hq pos; simpl.
  - f_equal. lia.
  - destruct (x =? 34) eqn:E; [ exfalso; apply Hq; left; lia | ].
    rewrite IH by (intros Hin; apply Hq; now right).
    f_equal. lia.
Qed.

Lemma strip_comment_loop_quote (line rest : str) (pos : nat) :
  strip_comment_loop line pos in_plain_text (34 :: rest)
  = strip_comment_loop line (S pos) inside_string rest.
Proof. reflexivity. Qed.

Lemma strip_comment_loop_cut (line a c : str) :
  slashes_in_strings a ->
  forall pos,
    strip_comment_loop line pos in_plain_text (a ++ 47 :: 47 :: c)
    = firstn (pos + length a) line.
Proof.
  induction 1 as [| x rest Hq Hs Hr IH | s rest Hq Hr IH]; intros pos.
  - simpl. f_equal. lia.
  - simpl. destruct (x =? 34) eqn:E1; [ lia | ].
    destruct (x =? 47) eqn:E2; [ lia | ].
    rewrite IH. f_equal. lia.
  - change ((34 :: s ++ 34 :: rest) ++ 47 :: 47 :: c)
      with (34 :: (s ++ 34 :: rest) ++ 47 :: 47 :: c).
    rewrite <- app_assoc.
    change ((34 :: rest) ++ 47 :: 47 :: c) with (34 :: rest ++ 47 :: 47 :: c).
    rewrite strip_comment_loop_quote.
    rewrite strip_comment_loop_string by exact Hq.
    rewrite IH. f_equal. simpl length. rewrite length_app. simpl length.
    lia.
Qed.

(** When all the slashes in front of a double slash lie inside string
    literals, the line is cut right in front of that double slash. *)
Theorem strip_trailing_comment_cuts_at_comment (a c : str) :
  slashes_in_strings a ->
  _strip_trailing_comment (a ++ [47; 47] ++ c) = a.
Proof.
  intros Ha. unfold _strip_trailing_comment.
  change (a ++ [47; 47] ++ c) with (a ++ 47 :: 47 :: c).
  rewrite contains2_middle. simpl negb. cbv iota.
  rewrite (strip_comment_loop_cut _ a c Ha 0). simpl.
  rewrite firstn_app, Nat.sub_diag, firstn_all. simpl.
  apply app_nil_r.
Qed.

Lemma strip_trailing_comment_cuts_at_comment_witness :
  _strip_trailing_comment
    ([34] ++ py "a//b" ++ [34] ++ py " x" ++ [47; 47] ++ py " note")
  = [34] ++ py "a//b" ++ [34] ++ py " x".
Proof.
  apply (strip_trailing_comment_cuts_at_comment
           ([34] ++ py "a//b" ++ [34] ++ py " x") (py " note")).
  apply (sis_string (py "a//b") (py " x")).
  - vm_compute. intuition discriminate.
  - repeat (apply sis_plain; [ discriminate | discriminate | ]).
    apply sis_nil.
Defined.

Lemma span_not_quote_app (f rest : str) :
  ~ In 34 f -> span_not_quote (f ++ 34 :: rest) = (f, 34 :: rest).
Proof.
  induction f as [| x f IH]; intros Hq; simpl.
  - reflexivity.
  - destruct (x =? 34) eqn:E; [ exfalso; apply Hq; left; lia | ].
    rewrite IH by (intros Hin; apply Hq; now right). reflexivity.
Qed.

(** The import line that [_clean_source] writes is itself an import
    line for [IMPORT_RE], with the file name written as its group. *)
Theorem import_line_is_matched (file : str) :
  file <> [] -> ~ In 34 file ->
  IMPORT_RE_match (py "import_code(" ++ [34] ++ file ++ [34] ++ py ")")
  = Some file.
Proof.
  intros Hne Hq. unfold IMPORT_RE_match.
  change (py "import_code(" ++ [34] ++ file ++ [34] ++ py ")")
    with (IMPORT_CODE ++ 40 :: 34 :: file ++ 34 :: [41]).
  cbn -[span_not_quote]. rewrite span_not_quote_app by exact Hq.
  destruct file as [| x file]; [ congruence | ]. reflexivity.
Qed.

Lemma import_line_is_matched_witness :
  IMPORT_RE_match
    (py "import_code(" ++ [34] ++ py "~/.tmp/src/lib.src" ++ [34] ++ py ")")
  = Some (py "~/.tmp/src/lib.src").
Proof.
  apply import_line_is_matched.
  - discriminate.
  - vm_compute. intuition discriminate.
Defined.

(* ------------------------------------------------------------------ *)
(** ** The file store *)

Lemma find_snoc {A} (p : A -> bool) (l : list A) (x : A) :
  find p (l ++ [x])
  = match find p l with
    | Some y => Some y
    | None => if p x then Some x else None
    end.
Proof.
  induction l as [| y l IH]; simpl; [ reflexivity | ].
  destruct (p y); [ reflexivity | exact IH ].
Qed.

(** A game file that is not in the store yet is stored by
    [add_text_contents] under the next reference number, and from then
    on every further [add_text_contents] for it answers [False] and
    leaves the store alone. *)
Theorem add_text_contents_only_once (fm : FileManager)
  (game_file c1 c2 : str) :
  has_game_file fm game_file = false ->
  exists fm1,
    add_text_contents fm game_file c1 = (true, fm1)
    /\ length (stored fm1) = S (length (stored fm))
    /\ get_game_file_ref fm1 game_file = Some (REF_INDEX fm)
    /\ REF_INDEX fm1 = REF_INDEX fm + 1
    /\ add_text_contents fm1 game_file c2 = (false, fm1).
Proof.
  intros Hno. unfold add_text_contents. rewrite Hno.
  eexists. split; [ reflexivity | ].
  assert (Href :
    get_game_file_ref
      (snd (append_StoredFile fm None (Some c1) false false
              (Some game_file) None)) game_file = Some (REF_INDEX fm)).
  { unfold get_game_file_ref, has_game_file, get_game_file_ref in *.
    simpl. rewrite find_snoc.
    destruct (find _ (stored fm)); [ discriminate | ].
    simpl. now rewrite str_eqb_refl. }
  split; [ simpl; rewrite length_app; simpl; lia | ].
  split; [ exact Href | ].
  split; [ reflexivity | ].
  unfold has_game_file. rewrite Href. reflexivity.
Qed.

Lemma add_text_contents_only_once_witness :
  exists fm1,
    add_text_contents new_FileManager (py "/a") (py "x") = (true, fm1)
    /\ length (stored fm1) = S (length (stored new_FileManager))
    /\ get_game_file_ref fm1 (py "/a") = Some (REF_INDEX new_FileManager)
    /\ REF_INDEX fm1 = REF_INDEX new_FileManager + 1
    /\ add_text_contents fm1 (py "/a") (py "y") = (false, fm1).
Proof.
  apply (add_text_contents_only_once new_FileManager (py "/a") (py "x")
           (py "y")).
  reflexivity.
Defined.
(* ------------------------------------------------------------------ *)
(** ** Names of source files *)

Lemma good_fixed_characters :
  good_src_char 88 = true /\ good_src_char 47 = true
  /\ forallb good_src_char (py "/.tmp/src/dirty") = true.
Proof. repeat split; vm_compute; reflexivity. Qed.

Lemma good_digit (c : Z) : 48 <= c <= 57 -> good_src_char c = true.
Proof.
  intros H.
  assert (Hc : c = 48 \/ c = 49 \/ c = 50 \/ c = 51 \/ c = 52 \/ c = 53
               \/ c = 54 \/ c = 55 \/ c = 56 \/ c = 57) by lia.
  repeat (destruct Hc as [-> | Hc]; [ reflexivity | ]). now subst.
Qed.

#[local] Opaque GOOD_SRC_FILE_CHARS.

Lemma removed_none (remaining : str) :
  forallb good_src_char remaining = true ->
  flat_map
    (fun c => if existsb (Z.eqb c) GOOD_SRC_FILE_CHARS then [] else [88])
    remaining = [].
Proof.
  induction remaining as [| c r IH]; simpl; [ reflexivity | ].
  unfold good_src_char at 1. intros H. apply andb_prop in H as [Hc Hr].
  rewrite Hc. simpl. now apply IH.
Qed.

Lemma removed_some (remaining : str) :
  forallb good_src_char remaining = false ->
  exists more,
    flat_map
      (fun c => if existsb (Z.eqb c) GOOD_SRC_FILE_CHARS then [] else [88])
      remaining = 88 :: more
    /\ Forall (eq 88) more.
Proof.
  assert (Hall : forall r : str,
             Forall (eq 88)
               (flat_map
                  (fun c => if existsb (Z.eqb c) GOOD_SRC_FILE_CHARS
                            then [] else [88]) r)).
  { induction r as [| c r IH]; simpl; [ constructor | ].
    destruct (existsb (Z.eqb c) GOOD_SRC_FILE_CHARS); simpl; auto. }
  induction remaining as [| c r IH]; simpl; [ discriminate | ].
  unfold good_src_char at 1.
  destruct (existsb (Z.eqb c) GOOD_SRC_FILE_CHARS) eqn:E; simpl.
  - exact IH.
  - intros _. eexists. split; [ reflexivity | apply Hall ].
Qed.

Lemma unique_dirty_name_shape (removed cleaned : str)
  (existing : list StoredFile) :
  forall (idx : nat) (name : str),
    unique_dirty_name removed cleaned existing idx name = name
    \/ exists k,
         unique_dirty_name removed cleaned existing idx name
         = TEMP_DIR ++ py "/src/dirty" ++ removed ++ str_of_nat k ++ cleaned.
Proof.
  induction existing as [| e rest IH]; intros idx name; simpl.
  - now left.
  - destruct (opt_str_eqb (synthetic_game_path e) name).
    + right.
      destruct (IH (S idx)
                  (TEMP_DIR ++ py "/src/dirty" ++ removed
                     ++ str_of_nat (S idx) ++ cleaned)) as [H | [k H]].
      * exists (S idx). exact H.
      * exists k. exact H.
    + apply IH.
Qed.

Lemma digits_of_uint (u : Decimal.uint) :
  Forall (fun c => 48 <= c <= 57) (py (DecimalString.NilEmpty.string_of_uint u)).
Proof.
  induction u; simpl; try constructor; try (simpl; lia); assumption.
Qed.

Lemma str_of_nat_digits (n : nat) :
  Forall (fun c => 48 <= c <= 57) (str_of_nat n).
Proof.
  unfold str_of_nat, DecimalString.NilZero.string_of_uint.
  destruct (Nat.to_uint n) eqn:E;
    try (rewrite <- E; apply digits_of_uint).
  repeat constructor; simpl; lia.
Qed.

Lemma slash_headed (cleaned : str) :
  exists rest,
    match cleaned with
    | 47 :: _ => cleaned
    | _ => 47 :: cleaned
    end = 47 :: rest.
Proof.
  destruct cleaned as [| x cleaned']; [ now exists [] | ].
  destruct (Z.eq_dec x 47) as [-> | Hn]; [ now exists cleaned' | ].
  exists (x :: cleaned').
  destruct x as [| p | p]; try reflexivity.
  do 6 (try destruct p as [p | p |]; try reflexivity; try congruence).
Qed.

(** A name whose characters, apart from a tilde at its head, are all
    among [GOOD_SRC_FILE_CHARS] is kept as it is; any other name is
    replaced by a name under [~/.tmp/src/dirty], which goes on with one
    [X] for each character that was refused, then possibly a number,
    then a slash. *)
Theorem clean_source_name_cases (fm : FileManager) (game_file : str) :
  (forallb good_src_char (checked_part game_file) = true ->
   _clean_source_name fm game_file = game_file)
  /\ (forallb good_src_char (checked_part game_file) = false ->
      exists more number rest,
        _clean_source_name fm game_file
        = py "~/.tmp/src/dirty" ++ 88 :: more ++ number ++ 47 :: rest
        /\ Forall (eq 88) more
        /\ Forall (fun c => 48 <= c <= 57) number).
Proof.
  split; intros H.
  - destruct game_file as [| c0 tl]; [ reflexivity | ].
    unfold _clean_source_name, checked_part in *. cbv zeta.
    match goal with
    | |- match ?x with [] => _ | _ :: _ => _ end = _ =>
        replace x with (@nil Z) by (symmetry; apply removed_none; exact H)
    end.
    reflexivity.
  - destruct game_file as [| c0 tl]; [ discriminate | ].
    unfold _clean_source_name, checked_part in *. cbv zeta.
    destruct (removed_some _ H) as (more & Hrem & Hmore).
    match goal with
    | |- context [match ?x with [] => _ | _ :: _ => _ end] =>
        replace x with (88 :: more) by (symmetry; exact Hrem)
    end.
    match goal with
    | |- context [unique_dirty_name ?r ?c ?ex ?i ?n] =>
        assert (Hc : exists rest, c = 47 :: rest) by apply slash_headed;
        destruct Hc as [rest Hc];
        destruct (unique_dirty_name_shape r c ex i n) as [-> | [k ->]];
        rewrite Hc
    end.
    + exists more, [], rest. split; [ reflexivity | ]. split; auto.
    + exists more, (str_of_nat k), rest.
      split; [ | split; [ exact Hmore | apply str_of_nat_digits ] ].
      change (88 :: more) with ([88] ++ more).
      rewrite <- !app_assoc. reflexivity.
Qed.

Lemma good_slash_headed (cleaned : str) :
  forallb good_src_char cleaned = true ->
  forallb good_src_char
    match cleaned with
    | 47 :: _ => cleaned
    | _ => 47 :: cleaned
    end = true.
Proof.
  intros H.
  assert (H47 : forallb good_src_char (47 :: cleaned) = true).
  { cbn [forallb]. rewrite H.
    now rewrite (proj1 (proj2 good_fixed_characters)). }
  destruct cleaned as [| x cleaned']; [ exact H47 | ].
  destruct (Z.eq_dec x 47) as [-> | Hn]; [ exact H | ].
  destruct x as [| p | p]; try exact H47.
  do 6 (try destruct p as [p | p |]; try exact H47; try congruence).
Qed.

Lemma good_or_X (cleaned : str) :
  forallb good_src_char cleaned = true ->
  forallb good_src_char
    match cleaned with
    | [] => [88]
    | _ :: _ => cleaned
    end = true.
Proof.
  intros H. destruct cleaned; [ | exact H ].
  cbn [forallb]. now rewrite (proj1 good_fixed_characters).
Qed.

Lemma forallb_skipn {A} (p : A -> bool) (n : nat) (l : list A) :
  forallb p l = true -> forallb p (skipn n l) = true.
Proof.
  revert l. induction n as [| n IH]; intros [| x l] H; simpl in *; auto.
  apply andb_prop in H as [_ H]. now apply IH.
Qed.

Lemma startswith_nil (s : str) : startswith s [] = true.
Proof. now destruct s. Qed.

Lemma good_strip (cleaned prefix : str) (n : nat) :
  forallb good_src_char cleaned = true ->
  forallb good_src_char
    (if startswith cleaned prefix then skipn n cleaned else cleaned) = true.
Proof.
  intros H. destruct (startswith cleaned prefix); [ | exact H ].
  now apply forallb_skipn.
Qed.

Lemma cleaned_map_good (remaining : str) :
  forallb good_src_char
    (map (fun c => if existsb (Z.eqb c) GOOD_SRC_FILE_CHARS then c else 88)
       remaining) = true.
Proof.
  induction remaining as [| c r IH]; [ reflexivity | ].
  cbn [map forallb]. rewrite IH, andb_true_r.
  destruct (existsb (Z.eqb c) GOOD_SRC_FILE_CHARS) eqn:E.
  - exact E.
  - apply good_fixed_characters.
Qed.

Lemma dirty_name_good (removed number cleaned : str) :
  forallb good_src_char removed = true ->
  forallb good_src_char number = true ->
  forallb good_src_char cleaned = true ->
  forallb good_src_char
    (checked_part
       (TEMP_DIR ++ py "/src/dirty" ++ removed ++ number ++ cleaned))
  = true.
Proof.
  intros Hr Hn Hc.
  change (checked_part
            (TEMP_DIR ++ py "/src/dirty" ++ removed ++ number ++ cleaned))
    with (py "/.tmp/src/dirty" ++ removed ++ number ++ cleaned).
  rewrite !forallb_app, Hr, Hn, Hc.
  now rewrite (proj2 (proj2 good_fixed_characters)).
Qed.

(** When the name has no tilde at its head, or the tilde stands alone
    or in front of a slash, the name that [_clean_source_name] returns
    has, after a tilde at its head, only characters of
    [GOOD_SRC_FILE_CHARS]. *)
Theorem clean_source_name_is_accepted (fm : FileManager) (game_file : str) :
  (startswith game_file [126] = true ->
   game_file = [126] \/ startswith game_file (py "~/") = true) ->
  forallb good_src_char (checked_part (_clean_source_name fm game_file))
  = true.
Proof.
  intros Htilde.
  destruct (forallb good_src_char (checked_part game_file)) eqn:Hclean.
  - now rewrite (proj1 (clean_source_name_cases fm game_file) Hclean).
  - destruct game_file as [| c0 tl]; [ discriminate | ].
    unfold _clean_source_name, checked_part in Hclean |- *. cbv zeta.
    destruct (removed_some _ Hclean) as (more & Hrem & Hmore).
    match goal with
    | |- context [match ?x with [] => _ | _ :: _ => _ end] =>
        replace x with (88 :: more) by (symmetry; exact Hrem)
    end.
    assert (Hmore' : forallb good_src_char (88 :: more) = true).
    { cbn [forallb]. rewrite (proj1 good_fixed_characters). simpl.
      apply forallb_forall. rewrite Forall_forall in Hmore.
      intros x Hx. rewrite <- (Hmore x Hx).
      apply good_fixed_characters. }
    match goal with
    | |- context [unique_dirty_name ?r ?c ?ex ?i ?n] =>
        assert (Hc : forallb good_src_char c = true);
        [ | destruct (unique_dirty_name_shape r c ex i n) as [-> | [k ->]] ]
    end.
    + apply good_slash_headed, good_or_X.
      destruct (c0 =? 126) eqn:E0.
      * apply Z.eqb_eq in E0. subst c0.
        destruct Htilde as [Heq | Hst];
          [ cbn; now rewrite startswith_nil | | ].
        { inversion Heq; subst. discriminate Hclean. }
        destruct tl as [| c1 tl']; [ discriminate Hst | ].
        cbn in Hst. destruct (c1 =? 47) eqn:E1; [ | discriminate Hst ].
        apply Z.eqb_eq in E1. subst c1.
        match goal with
        | |- context [map ?f (47 :: tl')] =>
            assert (Hm : map f (47 :: tl') = 47 :: map f tl');
            [ cbn [map]; f_equal;
              exact (f_equal (fun b : bool => if b then 47 else 88)
                       (proj1 (proj2 good_fixed_characters)))
            | rewrite Hm;
              pose proof (cleaned_map_good tl') as Hg;
              set (m := map f tl') in * ]
        end.
        cbn [app].
        destruct (startswith (126 :: 47 :: m) (TEMP_DIR ++ [47])) eqn:Et.
        -- change (skipn (length (TEMP_DIR ++ [47])) (126 :: 47 :: m))
             with (skipn 5 m).
           apply good_strip, good_strip. apply forallb_skipn.
           exact Hg.
        -- cbn. rewrite startswith_nil. cbn. exact Hg.
      * cbn [app]. apply good_strip, good_strip, good_strip.
        apply cleaned_map_good.
    + apply (dirty_name_good (88 :: more) []); auto.
    + apply dirty_name_good; auto.
      apply forallb_forall. intros x Hx. apply good_digit.
      pose proof (str_of_nat_digits k) as Hd. rewrite Forall_forall in Hd.
      now apply Hd.
Qed.

#[local] Transparent GOOD_SRC_FILE_CHARS.

Lemma clean_source_name_cases_witness :
  _clean_source_name new_FileManager (py "~/lib/a.src") = py "~/lib/a.src"
  /\ exists more number rest,
       _clean_source_name new_FileManager (py "/lib/a b.src")
       = py "~/.tmp/src/dirty" ++ 88 :: more ++ number ++ 47 :: rest
       /\ Forall (eq 88) more
       /\ Forall (fun c => 48 <= c <= 57) number.
Proof.
  split.
  - apply (proj1 (clean_source_name_cases new_FileManager
                    (py "~/lib/a.src"))).
    reflexivity.
  - apply (proj2 (clean_source_name_cases new_FileManager
                    (py "/lib/a b.src"))).
    reflexivity.
Defined.

Lemma clean_source_name_is_accepted_witness :
  forallb good_src_char
    (checked_part (_clean_source_name new_FileManager (py "~/my lib/a.src")))
  = true.
Proof.
  apply clean_source_name_is_accepted.
  intros _. right. reflexivity.
Defined.
(* ------------------------------------------------------------------ *)
(** ** What every operation of the assembler keeps *)

Section Kept.

(** A property of the assembler that the three interning functions and
    [add_folder] keep, that does not look at the file store or the
    queues, and that setting the error flag does not break. *)
Variable P : Blocks -> Prop.
Hypothesis P_path :
  forall text b i b', P b -> _add_path text b = Ok (i, b') -> P b'.
Hypothesis P_string :
  forall text b i b', P b -> _add_string text b = (i, b') -> P b'.
Hypothesis P_home :
  forall text b i b',
    P b -> _add_home_replace_string text b = (i, b') -> P b'.
Hypothesis P_folder :
  forall name b b', P b -> add_folder name b = Ok b' -> P b'.
Hypothesis P_files : forall b fm, P b -> P (set_files b fm).
Hypothesis P_queues :
  forall b tf bf ub gb eb, P b -> P (set_queues b tf bf ub gb eb).
Hypothesis P_problems : forall b, P b -> P (set_setup_problems b true).

Ltac carry_kept :=
  repeat match goal with
    | Hp : P ?b, H : _add_path _ ?b = Ok (_, ?b') |- _ =>
        pose proof (P_path _ _ _ _ Hp H); clear H
    | Hp : P ?b, H : _add_string _ ?b = (_, ?b') |- _ =>
        pose proof (P_string _ _ _ _ Hp H); clear H
    | Hp : P ?b, H : _add_home_replace_string _ ?b = (_, ?b') |- _ =>
        pose proof (P_home _ _ _ _ Hp H); clear H
    | Hp : P ?b, H : add_folder _ ?b = Ok ?b' |- _ =>
        pose proof (P_folder _ _ _ Hp H); clear H
    end.

Ltac finish_kept :=
  carry_kept; unfold append_exec;
  repeat first
    [ assumption | apply P_queues | apply P_files | apply P_problems ].

Lemma add_paths_kept (args : list str) :
  forall (b b' : Blocks) (idxs : list Z),
    P b -> add_paths args b = Ok (idxs, b') -> P b'.
Proof.
  induction args as [| a rest IH]; simpl; intros b b' idxs Hc Ha.
  - now inversion Ha; subst.
  - open_run Ha. inversion Ha; subst. carry_kept. eauto.
Qed.

Lemma add_file_kept (file_name cont : str) (home : bool)
  (b b' : Blocks) (block : bytes) :
  P b -> _add_file file_name cont home b = Ok (block, b') -> P b'.
Proof.
  unfold _add_file. intros Hc Ha.
  destruct (_split file_name) as [parent name].
  destruct (str_eqb name []); [ discriminate | ].
  open_run Ha.
  destruct home; open_run Ha; inversion Ha; subst; finish_kept.
Qed.

Lemma add_files_kept (files : list ResolvedFile) :
  forall (b b' : Blocks) (blocks : list bytes),
    P b -> add_files files b = Ok (blocks, b') -> P b'.
Proof.
  induction files as [| f rest IH]; simpl; intros b b' blocks Hc Ha.
  - now inversion Ha; subst.
  - open_run Ha. inversion Ha; subst.
    eapply IH; [ | eauto ]. eapply add_file_kept; eauto.
Qed.

Lemma resolve_exec_kept (queue : list exec_block) :
  forall (acc : list bytes) (b b' : Blocks) (out : list bytes),
    P b -> resolve_exec queue acc b = Ok (out, b') -> P b'.
Proof.
  induction queue as [| e rest IH]; simpl; intros acc b b' out Hc Hr.
  - now inversion Hr; subst.
  - destruct e as [block | [|] name].
    + eauto.
    + destruct (dict_get name (_build_files b)) as [[[ref d] f] |];
        [ | discriminate ].
      destruct (get_game_file_by_ref (_files b) ref true) as [[| c g] |].
      * eapply IH; [ | eauto ]. finish_kept.
      * open_run Hr. eapply IH; [ | eauto ]. finish_kept.
      * eapply IH; [ | eauto ]. finish_kept.
    + destruct (dict_get name (_test_files b)) as [ref |];
        [ | discriminate ].
      destruct (get_game_file_by_ref (_files b) ref true) as [g |].
      * open_run Hr. eapply IH; [ | eauto ]. finish_kept.
      * eapply IH; [ | eauto ]. finish_kept.
Qed.

Lemma assemble_kept (h : Host) (fuel : nat) (b b' : Blocks)
  (out : option bytes) :
  P b -> assemble h fuel b = Ok (out, b') -> P b'.
Proof.
  unfold assemble. intros Hc Ha.
  destruct (process_file_map h fuel (_files b)) as [[files fm] | e];
    simpl in Ha; [ | discriminate ].
  destruct files as [files |]; [ | inversion Ha; subst; finish_kept ].
  destruct (add_files files (set_files b fm)) as [[fbs b1] | e] eqn:Hf;
    simpl in Ha; [ | discriminate ].
  destruct (resolve_exec (_exec_blocks b1) [] b1) as [[ebs b2] | e] eqn:Hr;
    simpl in Ha; [ | discriminate ].
  assert (Hc2 : P b2).
  { eapply resolve_exec_kept; [ | eauto ].
    eapply add_files_kept; [ | eauto ]. finish_kept. }
  repeat destruct_bind Ha.
  destruct (_setup_problems b2); inversion Ha; subst; exact Hc2.
Qed.

Lemma run_op_kept (h : Host) (o : op) (b b' : Blocks) :
  P b -> run_op h o b = Ok b' -> P b'.
Proof.
  intros Hc Hr. destruct o; simpl in Hr.
  - eapply P_folder; eauto.
  - inversion Hr; subst. unfold add_local_text_file.
    destruct (FileManager_add_local_text_file _ _ _ _) as [r fm].
    destruct (is_None r); finish_kept.
  - inversion Hr; subst. unfold add_local_source_file.
    destruct (FileManager_add_local_source_file _ _ _ _) as [r fm].
    destruct (is_None r); finish_kept.
  - inversion Hr; subst. unfold add_contents_file.
    destruct (add_text_contents _ _ _) as [r fm]. simpl. finish_kept.
  - inversion Hr; subst. unfold add_test_file.
    destruct (FileManager_add_local_source_file _ _ _ _) as [[ref |] fm];
      finish_kept.
  - unfold add_build in Hr. destruct (_split target) as [tp tn].
    open_run Hr.
    match type of Hr with
    | context [get_game_file_ref ?f ?s] =>
        destruct (get_game_file_ref f s)
    end.
    + inversion Hr; subst. finish_kept.
    + open_run Hr. inversion Hr; subst. finish_kept.
  - unfold add_user in Hr. open_run Hr. inversion Hr; subst. finish_kept.
  - unfold add_group in Hr. open_run Hr. inversion Hr; subst. finish_kept.
  - unfold add_rm_user in Hr. open_run Hr. inversion Hr; subst.
    finish_kept.
  - unfold add_rm_group in Hr. open_run Hr. inversion Hr; subst.
    finish_kept.
  - unfold add_chmod in Hr. open_run Hr. inversion Hr; subst. finish_kept.
  - unfold add_chown in Hr. open_run Hr. inversion Hr; subst. finish_kept.
  - unfold add_chgroup in Hr. open_run Hr. inversion Hr; subst.
    finish_kept.
  - unfold add_launch in Hr. open_run Hr. inversion Hr; subst.
    match goal with
    | E : add_paths _ _ = Ok _ |- _ =>
        apply (add_paths_kept _ _ _ _ Hc) in E
    end.
    finish_kept.
  - unfold add_copy in Hr. open_run Hr.
    destruct (_split target) as [tp tn]. open_run Hr.
    inversion Hr; subst. finish_kept.
  - unfold add_move in Hr. open_run Hr.
    destruct (_split target) as [tp tn]. open_run Hr.
    inversion Hr; subst. finish_kept.
  - unfold add_delete in Hr. open_run Hr. inversion Hr; subst.
    finish_kept.
  - destruct (assemble h fuel b) as [[out b1] | e] eqn:Ha; simpl in Hr;
      [ | discriminate ].
    inversion Hr; subst. eapply assemble_kept; eauto.
Qed.

Lemma reachable_kept (h : Host) (b : Blocks) :
  P new_Blocks -> reachable h b -> P b.
Proof.
  intros H0. induction 1 as [| b b' o Hr IH Hrun]; [ exact H0 | ].
  eapply run_op_kept; eauto.
Qed.

End Kept.

(* ------------------------------------------------------------------ *)
(** ** The string pool *)

Lemma NoDup_snoc {A} (l : list A) (x : A) :
  NoDup l -> ~ In x l -> NoDup (l ++ [x]).
Proof.
  intros Hn Hx. apply (Permutation_NoDup (Permutation_cons_append l x)).
  now constructor.
Qed.

Lemma perm_mid (A H R : list Z) (x : Z) :
  Permutation (x :: A ++ H ++ R) (A ++ (H ++ [x]) ++ R).
Proof.
  rewrite <- app_assoc. simpl. rewrite !app_assoc.
  apply Permutation_middle.
Qed.

Lemma indices_step (old new : list Z) (idx : Z) :
  Permutation (idx :: old) new ->
  NoDup old ->
  (forall i, In i old -> 0 <= i < idx) ->
  len old = idx ->
  NoDup new
  /\ (forall i, In i new -> 0 <= i < idx + 1)
  /\ len new = idx + 1.
Proof.
  intros Hp Hn Hb Hl. split; [ | split ].
  - apply (Permutation_NoDup Hp). constructor; [ | exact Hn ].
    intros Hin. apply Hb in Hin. lia.
  - intros i Hi. apply (Permutation_in _ (Permutation_sym Hp)) in Hi.
    destruct Hi as [<- | Hi]; [ unfold len in Hl; lia | ].
    apply Hb in Hi. lia.
  - unfold len in *. rewrite <- (Permutation_length Hp). simpl length. lia.
Qed.

Lemma dict_set_new {V} (text : str) (v : V) (d : dict str V) :
  dict_get text d = None ->
  dict_set text v d = d ++ [(text, v)] /\ ~ In text (map fst d).
Proof.
  intros H. apply dict_get_None in H. split; [ | exact H ].
  now apply dict_set_absent.
Qed.

Lemma pool_sound_string (text : str) (b : Blocks) :
  pool_sound b ->
  dict_get text (_strings b) = None ->
  pool_sound
    (set_pool b (dict_set text (_string_idx b) (_strings b))
       (_home_replace_strings b) (_rel_paths b) (_string_idx b + 1)).
Proof.
  intros (Hs & Hh & Hr & Hn & Hb & Hl) Hg.
  destruct (dict_set_new text (_string_idx b) _ Hg) as [Hset Hnew].
  unfold pool_sound, pool_indices in *. cbn [set_pool _strings
    _home_replace_strings _rel_paths _string_idx].
  rewrite Hset, !map_app. cbn [map fst snd].
  split; [ now apply NoDup_snoc | ].
  split; [ exact Hh | ]. split; [ exact Hr | ].
  apply (indices_step _ _ _) with (2 := Hn) (3 := Hb) (4 := Hl).
  rewrite <- app_assoc. apply Permutation_middle.
Qed.

Lemma pool_sound_home (text : str) (b : Blocks) :
  pool_sound b ->
  dict_get text (_home_replace_strings b) = None ->
  pool_sound
    (set_pool b (_strings b)
       (dict_set text (_string_idx b) (_home_replace_strings b))
       (_rel_paths b) (_string_idx b + 1)).
Proof.
  intros (Hs & Hh & Hr & Hn & Hb & Hl) Hg.
  destruct (dict_set_new text (_string_idx b) _ Hg) as [Hset Hnew].
  unfold pool_sound, pool_indices in *. cbn [set_pool _strings
    _home_replace_strings _rel_paths _string_idx].
  rewrite Hset, !map_app. cbn [map fst snd].
  split; [ exact Hs | ].
  split; [ now apply NoDup_snoc | ]. split; [ exact Hr | ].
  apply (indices_step _ _ _) with (2 := Hn) (3 := Hb) (4 := Hl).
  apply perm_mid.
Qed.

Lemma pool_sound_rel (text : str) (b : Blocks) :
  pool_sound b ->
  dict_get text (_rel_paths b) = None ->
  pool_sound
    (set_pool b (_strings b) (_home_replace_strings b)
       (dict_set text (_string_idx b) (_rel_paths b)) (_string_idx b + 1)).
Proof.
  intros (Hs & Hh & Hr & Hn & Hb & Hl) Hg.
  destruct (dict_set_new text (_string_idx b) _ Hg) as [Hset Hnew].
  unfold pool_sound, pool_indices in *. cbn [set_pool _strings
    _home_replace_strings _rel_paths _string_idx].
  rewrite Hset, !map_app. cbn [map fst snd].
  split; [ exact Hs | ]. split; [ exact Hh | ].
  split; [ now apply NoDup_snoc | ].
  apply (indices_step _ _ _) with (2 := Hn) (3 := Hb) (4 := Hl).
  rewrite !app_assoc. apply Permutation_cons_append.
Qed.

Lemma pool_sound_add_string (text : str) (b : Blocks) (i : Z) (b' : Blocks) :
  pool_sound b -> _add_string text b = (i, b') -> pool_sound b'.
Proof.
  unfold _add_string. intros Hp H.
  destruct (dict_get text (_strings b)) eqn:Hg; inversion H; subst.
  - exact Hp.
  - now apply pool_sound_string.
Qed.

Lemma pool_sound_add_home (text : str) (b : Blocks) (i : Z) (b' : Blocks) :
  pool_sound b -> _add_home_replace_string text b = (i, b') ->
  pool_sound b'.
Proof.
  unfold _add_home_replace_string. intros Hp H.
  destruct (dict_get text (_home_replace_strings b)) eqn:Hg;
    inversion H; subst.
  - exact Hp.
  - now apply pool_sound_home.
Qed.

Lemma pool_sound_add_path (text : str) (b : Blocks) (i : Z) (b' : Blocks) :
  pool_sound b -> _add_path text b = Ok (i, b') -> pool_sound b'.
Proof.
  unfold _add_path. intros Hp H. destruct_bind H.
  destruct a as [[|] key].
  - destruct (dict_get key (_rel_paths b)) eqn:Hg; inversion H; subst.
    + exact Hp.
    + now apply pool_sound_rel.
  - destruct (dict_get key (_strings b)) eqn:Hg; inversion H; subst.
    + exact Hp.
    + now apply pool_sound_string.
Qed.

Lemma pool_sound_add_folder_rec (fuel : nat) :
  forall (name : str) (b b' : Blocks),
    pool_sound b -> add_folder_rec fuel name b = Ok b' -> pool_sound b'.
Proof.
  induction fuel as [| fuel IH]; simpl; intros name b b' Hp H;
    [ discriminate | ].
  destruct (str_eqb name [47] || str_eqb name [126]);
    [ now inversion H; subst | ].
  destruct (_split name) as [parent nm].
  destruct (str_eqb nm []); [ now inversion H; subst | ].
  match type of H with
  | context [existsb ?f ?l] => destruct (existsb f l)
  end; [ now inversion H; subst | ].
  open_run H. inversion H; subst.
  match goal with
  | E : add_folder_rec _ _ _ = Ok _ |- _ => apply (IH _ _ _ Hp) in E
  end.
  match goal with
  | Hq : pool_sound ?b1, E : _add_path _ ?b1 = Ok _ |- _ =>
      apply (pool_sound_add_path _ _ _ _ Hq) in E
  end.
  match goal with
  | Hq : pool_sound ?b1, E : _add_string _ ?b1 = _ |- _ =>
      apply (pool_sound_add_string _ _ _ _ Hq) in E; exact E
  end.
Qed.

(** In every state that the operations of [Blocks] reach, the string
    pool is sound: within a table no text is listed twice, no index is
    handed out twice over the three tables that share the counter, and
    the indices handed out are exactly the numbers below the counter. *)
Theorem pool_stays_sound (h : Host) (b : Blocks) :
  reachable h b ->
  pool_sound b
  /\ (forall i, 0 <= i < _string_idx b -> In i (pool_indices b)).
Proof.
  intros Hr.
  assert (Hp : pool_sound b).
  { apply (reachable_kept pool_sound pool_sound_add_path
             pool_sound_add_string pool_sound_add_home
             (fun name => pool_sound_add_folder_rec (S (length name)) name)
             (fun b0 fm Hq => Hq) (fun b0 tf bf ub gb eb Hq => Hq)
             (fun b0 Hq => Hq) h b); [ | exact Hr ].
    unfold pool_sound, pool_indices. simpl.
    do 4 (split; [ constructor | ]).
    split; [ intros i [] | reflexivity ]. }
  split; [ exact Hp | ].
  destruct Hp as (_ & _ & _ & Hn & Hb & Hl). intros i Hi.
  apply (NoDup_length_incl Hn
           (l' := map Z.of_nat (seq 0 (length (pool_indices b))))).
  - now rewrite length_map, length_seq.
  - intros j Hj. apply Hb in Hj. apply in_map_iff.
    exists (Z.to_nat j). split; [ lia | ].
    apply in_seq. unfold len in Hl. lia.
  - apply in_map_iff. exists (Z.to_nat i). split; [ lia | ].
    apply in_seq. unfold len in Hl. lia.
Qed.

Lemma pool_stays_sound_witness :
  match add_launch [py "/bin/sh"; py "~/run"] new_Blocks with
  | Ok b =>
      pool_sound b
      /\ (forall i, 0 <= i < _string_idx b -> In i (pool_indices b))
  | Raise _ => True
  end.
Proof.
  destruct (add_launch [py "/bin/sh"; py "~/run"] new_Blocks) as [b | e]
    eqn:E; [ | exact I ].
  apply (pool_stays_sound empty_host b).
  eapply reach_step with (o := OpAddLaunch [py "/bin/sh"; py "~/run"]);
    [ apply reach_new | exact E ].
Defined.
(* ------------------------------------------------------------------ *)
(** ** Paths *)

(** [_normalize] returns a path without a backslash and without a
    double slash, built from the characters of the name, with a slash
    for each backslash; a path that is like that already is returned
    as it is, so normalizing twice changes nothing more. *)
Theorem normalize_is_clean_and_stable (name : str) :
  clean_path (_normalize name)
  /\ (forall c, In c (_normalize name) -> c = 47 \/ In c name)
  /\ _normalize (_normalize name) = _normalize name
  /\ (clean_path name -> _normalize name = name).
Proof.
  split; [ apply normalize_clean | ].
  split.
  - intros c Hc. unfold _normalize in Hc. apply normalize_loop_In in Hc.
    apply in_map_iff in Hc as (x & Hx & Hin).
    destruct (x =? 92); [ now left | right; now subst ].
  - split; [ | apply normalize_of_clean ].
    apply normalize_of_clean, normalize_clean.
Qed.

Lemma normalize_is_clean_and_stable_witness :
  _normalize (py "/usr/bin") = py "/usr/bin".
Proof.
  apply (proj2 (proj2 (proj2 (normalize_is_clean_and_stable
                                (py "/usr/bin"))))).
  split; [ reflexivity | ]. vm_compute. intuition discriminate.
Defined.

(** [_split] cuts the normalized name at its last slash: the two parts
    and the slash give the normalized name back, and the second part
    holds no slash.  A name without any slash is returned whole, with
    an empty second part. *)
Theorem split_cuts_at_last_slash (name parent fname : str) :
  _split name = (parent, fname) ->
  ~ In 47 fname
  /\ (In 47 (_normalize name) -> _normalize name = parent ++ [47] ++ fname)
  /\ (~ In 47 (_normalize name) -> parent = _normalize name /\ fname = []).
Proof.
  intros H. destruct (split_spec _ _ _ H) as (_ & Hf & Hcase).
  split; [ exact Hf | ].
  unfold _split in H.
  destruct (rindex_slash (_normalize name)) as [pos |] eqn:E.
  - split.
    + intros _. destruct Hcase as [(-> & -> & Hn) | Heq]; [ | exact Heq ].
      apply rindex_slash_Some in E as [E _]. exfalso. apply Hn.
      rewrite E. apply in_or_app. right. now left.
    + intros Hn. exfalso. apply Hn.
      apply rindex_slash_Some in E as [E _]. rewrite E.
      apply in_or_app. right. now left.
  - inversion H; subst. split; [ | now intros _ ].
    intros Hin. apply rindex_slash_None in E. contradiction.
Qed.

Lemma split_cuts_at_last_slash_witness :
  ~ In 47 (py "c.src")
  /\ (In 47 (_normalize (py "/a//b\c.src")) ->
      _normalize (py "/a//b\c.src") = py "/a/b" ++ [47] ++ py "c.src")
  /\ (~ In 47 (_normalize (py "/a//b\c.src")) ->
      py "/a/b" = _normalize (py "/a//b\c.src") /\ py "c.src" = []).
Proof.
  apply (split_cuts_at_last_slash (py "/a//b\c.src")). reflexivity.
Defined.

(* ------------------------------------------------------------------ *)
(** ** Interning *)

Lemma add_string_found (text : str) (b b1 : Blocks) (i : Z) :
  _add_string text b = (i, b1) -> dict_get text (_strings b1) = Some i.
Proof.
  unfold _add_string. intros H.
  destruct (dict_get text (_strings b)) eqn:E; inversion H; subst.
  - exact E.
  - simpl. apply dict_get_set_same.
Qed.

Lemma add_home_found (text : str) (b b1 : Blocks) (i : Z) :
  _add_home_replace_string text b = (i, b1) ->
  dict_get text (_home_replace_strings b1) = Some i.
Proof.
  unfold _add_home_replace_string. intros H.
  destruct (dict_get text (_home_replace_strings b)) eqn:E;
    inversion H; subst.
  - exact E.
  - simpl. apply dict_get_set_same.
Qed.

(** A text that was interned keeps its index: interning it once more,
    with the function that interned it, returns the same index and
    leaves the assembler as it is. *)
Theorem interning_twice_changes_nothing (text : str) (b b1 : Blocks)
  (i : Z) :
  (_add_string text b = (i, b1) -> _add_string text b1 = (i, b1))
  /\ (_add_home_replace_string text b = (i, b1) ->
      _add_home_replace_string text b1 = (i, b1))
  /\ (_add_path text b = Ok (i, b1) -> _add_path text b1 = Ok (i, b1)).
Proof.
  split; [ | split ]; intros H.
  - apply add_string_found in H. unfold _add_string. now rewrite H.
  - apply add_home_found in H. unfold _add_home_replace_string.
    now rewrite H.
  - apply add_path_index in H. unfold path_index in H.
    unfold _add_path. destruct (route_path text) as [[rel key] | e];
      [ | discriminate ].
    simpl. now rewrite H.
Qed.

Lemma interning_twice_changes_nothing_witness :
  _add_path (py "~/bin")
    (set_pool new_Blocks [] [] [(py "bin", 0)] 1)
  = Ok (0, set_pool new_Blocks [] [] [(py "bin", 0)] 1).
Proof.
  apply (proj2 (proj2 (interning_twice_changes_nothing (py "~/bin")
                         new_Blocks
                         (set_pool new_Blocks [] [] [(py "bin", 0)] 1) 0))).
  reflexivity.
Defined.

Lemma rev_repeat {A} (x : A) (n : nat) : rev (repeat x n) = repeat x n.
Proof.
  induction n as [| n IH]; [ reflexivity | ].
  simpl. rewrite IH. symmetry. apply repeat_cons.
Qed.

Lemma strip_only_slashes (n : nat) :
  strip_trailing_slashes n (repeat 47 n) = Raise IndexError.
Proof.
  induction n as [| n IH]; [ reflexivity | ].
  cbn [strip_trailing_slashes]. rewrite rev_repeat.
  cbn [repeat]. rewrite Z.eqb_refl, rev_repeat. exact IH.
Qed.

(** [_add_path] takes the trailing slashes off a path one by one and
    looks at the last character without asking whether one is left: on
    a text of two or more slashes it ends in an [IndexError].
    [add_launch] hands its arguments to [_add_path] as they are, so it
    fails in the same way. *)
Theorem add_path_fails_on_slashes (n : nat) (b : Blocks) (rest : list str) :
  (2 <= n)%nat ->
  _add_path (repeat 47 n) b = Raise IndexError
  /\ add_launch (repeat 47 n :: rest) b = Raise IndexError.
Proof.
  intros Hn.
  assert (Hp : _add_path (repeat 47 n) b = Raise IndexError).
  { unfold _add_path, route_path.
    destruct n as [| [| n]]; try lia.
    cbn [repeat firstn]. 
    replace (str_eqb (47 :: 47 :: repeat 47 n) [126]) with false
      by (symmetry; apply str_eqb_neq; discriminate).
    replace (str_eqb [47; 47] (py "~/")) with false by reflexivity.
    replace (str_eqb (47 :: 47 :: repeat 47 n) [47]) with false
      by (symmetry; apply str_eqb_neq; discriminate).
    replace (str_eqb (47 :: 47 :: repeat 47 n) []) with false
      by (symmetry; apply str_eqb_neq; discriminate).
    cbn [negb andb].
    change (47 :: 47 :: repeat 47 n) with (repeat 47 (S (S n))).
    rewrite repeat_length, strip_only_slashes. reflexivity. }
  split; [ exact Hp | ].
  unfold add_launch. cbn [add_paths]. rewrite Hp. reflexivity.
Qed.

Lemma add_path_fails_on_slashes_witness :
  _add_path (repeat 47 2) new_Blocks = Raise IndexError
  /\ add_launch [repeat 47 2; py "-v"] new_Blocks = Raise IndexError.
Proof. apply add_path_fails_on_slashes. lia. Defined.

(* ------------------------------------------------------------------ *)
(** ** Folders *)

(** Asking for a folder a second time changes nothing. *)
Theorem add_folder_twice_changes_nothing (name : str) (b b1 : Blocks) :
  add_folder name b = Ok b1 -> add_folder name b1 = Ok b1.
Proof.
  unfold add_folder. cbn [add_folder_rec]. intros H.
  destruct (str_eqb name [47] || str_eqb name [126]);
    [ now inversion H; subst | ].
  destruct (_split name) as [parent nm].
  destruct (str_eqb nm []); [ now inversion H; subst | ].
  match type of H with
  | context [existsb ?f ?l] => destruct (existsb f l) eqn:Hex
  end.
  - inversion H; subst. now rewrite Hex.
  - open_run H. inversion H; subst. cbn [_folders set_folders].
    rewrite existsb_app. cbn [existsb fst].
    rewrite str_eqb_refl, orb_true_r. reflexivity.
Qed.

Lemma add_folder_twice_changes_nothing_witness :
  match add_folder (py "/usr/local") new_Blocks with
  | Ok b1 => add_folder (py "/usr/local") b1 = Ok b1
  | Raise _ => True
  end.
Proof.
  destruct (add_folder (py "/usr/local") new_Blocks) as [b1 | e] eqn:E;
    [ | exact I ].
  apply (add_folder_twice_changes_nothing (py "/usr/local") new_Blocks).
  exact E.
Defined.
(* ------------------------------------------------------------------ *)
(** ** The error flag *)

Lemma add_path_flag (text : str) (b b' : Blocks) (i : Z) :
  _add_path text b = Ok (i, b') -> _setup_problems b' = _setup_problems b.
Proof.
  unfold _add_path. intros H. destruct_bind H. destruct a as [rel key].
  destruct (dict_get key _); inversion H; subst; [ reflexivity | ].
  now destruct rel.
Qed.

Lemma add_string_flag (text : str) (b b' : Blocks) (i : Z) :
  _add_string text b = (i, b') -> _setup_problems b' = _setup_problems b.
Proof.
  unfold _add_string. intros H.
  destruct (dict_get text _); inversion H; subst; reflexivity.
Qed.

Lemma add_home_flag (text : str) (b b' : Blocks) (i : Z) :
  _add_home_replace_string text b = (i, b') ->
  _setup_problems b' = _setup_problems b.
Proof.
  unfold _add_home_replace_string. intros H.
  destruct (dict_get text _); inversion H; subst; reflexivity.
Qed.

Lemma add_folder_rec_flag (fuel : nat) :
  forall (name : str) (b b' : Blocks),
    add_folder_rec fuel name b = Ok b' ->
    _setup_problems b' = _setup_problems b.
Proof.
  induction fuel as [| fuel IH]; simpl; intros name b b' H;
    [ discriminate | ].
  destruct (str_eqb name [47] || str_eqb name [126]);
    [ now inversion H; subst | ].
  destruct (_split name) as [parent nm].
  destruct (str_eqb nm []); [ now inversion H; subst | ].
  match type of H with
  | context [existsb ?f ?l] => destruct (existsb f l)
  end; [ now inversion H; subst | ].
  open_run H. inversion H; subst. cbn [_setup_problems set_folders].
  repeat match goal with
    | E : add_folder_rec _ _ _ = Ok _ |- _ => apply IH in E
    | E : _add_path _ _ = Ok _ |- _ => apply add_path_flag in E
    | E : _add_string _ _ = _ |- _ => apply add_string_flag in E
    end.
  congruence.
Qed.

Lemma assemble_some_no_problems (h : Host) (fuel : nat) (b b' : Blocks)
  (out : bytes) :
  assemble h fuel b = Ok (Some out, b') -> _setup_problems b' = false.
Proof.
  unfold assemble. intros Ha.
  destruct (process_file_map h fuel (_files b)) as [[files fm] | e];
    simpl in Ha; [ | discriminate ].
  destruct files as [files |]; [ | discriminate ].
  open_run Ha.
  destruct (_setup_problems b1) eqn:Hflag; inversion Ha; subst;
    exact Hflag.
Qed.

(** The error flag is never cleared: once [_setup_problems] is set, it
    stays set through every operation, and [assemble] returns no
    bytes. *)
Theorem setup_problems_is_sticky (h : Host) (b : Blocks) :
  _setup_problems b = true ->
  (forall o b', run_op h o b = Ok b' -> _setup_problems b' = true)
  /\ (forall fuel out b', assemble h fuel b = Ok (out, b') -> out = None).
Proof.
  intros Hset.
  assert (Hkept : forall o b', run_op h o b = Ok b' ->
                               _setup_problems b' = true).
  { intros o b' Hr.
    refine (run_op_kept (fun x => _setup_problems x = true)
              _ _ _ _ _ _ _ h o b b' Hset Hr).
    - intros text b0 i b1 H0 H1. now rewrite (add_path_flag _ _ _ _ H1).
    - intros text b0 i b1 H0 H1. now rewrite (add_string_flag _ _ _ _ H1).
    - intros text b0 i b1 H0 H1. now rewrite (add_home_flag _ _ _ _ H1).
    - intros name b0 b1 H0 H1.
      now rewrite (add_folder_rec_flag _ _ _ _ H1).
    - intros b0 fm H0. exact H0.
    - intros b0 tf bf ub gb eb H0. exact H0.
    - intros b0 H0. reflexivity. }
  split; [ exact Hkept | ].
  intros fuel out b' Ha. destruct out as [out |]; [ | reflexivity ].
  pose proof (assemble_some_no_problems _ _ _ _ _ Ha) as Hno.
  specialize (Hkept (OpAssemble fuel) b'). simpl in Hkept.
  rewrite Ha in Hkept. simpl in Hkept. specialize (Hkept eq_refl).
  congruence.
Qed.

Lemma setup_problems_is_sticky_witness :
  (forall o b',
      run_op empty_host o (set_setup_problems new_Blocks true) = Ok b' ->
      _setup_problems b' = true)
  /\ (forall fuel out b',
        assemble empty_host fuel (set_setup_problems new_Blocks true)
        = Ok (out, b') -> out = None).
Proof.
  apply (setup_problems_is_sticky empty_host
           (set_setup_problems new_Blocks true)).
  reflexivity.
Defined.

(* ------------------------------------------------------------------ *)
(** ** The sections of the assembled bytes *)



(* ------------------------------------------------------------------ *)
(** ** The folders recorded *)

Lemma not_existsb_folder_key (normalized : str)
  (folders : list (str * bytes)) :
  existsb (fun e => str_eqb (fst e) normalized) folders = false ->
  ~ In normalized (map fst folders).
Proof.
  intros Hex Hin. apply in_map_iff in Hin as ([k blk] & Hk & Hin).
  simpl in Hk. subst k.
  assert (Ht : existsb (fun e => str_eqb (fst e) normalized) folders = true).
  { apply existsb_exists. exists (normalized, blk). split; [ exact Hin | ].
    apply str_eqb_refl. }
  congruence.
Qed.

(** The keys that one call of [add_folder] adds: each once, none that
    was there before, and none longer than the normalized name. *)
Lemma add_folder_rec_keys (fuel : nat) :
  forall (name : str) (b b' : Blocks),
    add_folder_rec fuel name b = Ok b' ->
    exists added,
      folder_keys b' = folder_keys b ++ added
      /\ NoDup added
      /\ (forall k, In k added ->
          ~ In k (folder_keys b)
          /\ (length k <= length (_normalize name))%nat).
Proof.
  induction fuel as [| fuel IH]; simpl; intros name b b' H;
    [ discriminate | ].
  assert (Hnone : b' = b ->
            exists added,
              folder_keys b' = folder_keys b ++ added
              /\ NoDup added
              /\ (forall k, In k added ->
                  ~ In k (folder_keys b)
                  /\ (length k <= length (_normalize name))%nat)).
  { intros ->. exists []. rewrite app_nil_r.
    split; [ reflexivity | ]. split; [ constructor | intros k [] ]. }
  destruct (str_eqb name [47] || str_eqb name [126]);
    [ apply Hnone; now inversion H | ].
  destruct (_split name) as [parent nm] eqn:Hsplit.
  destruct (str_eqb nm []) eqn:Hnm; [ apply Hnone; now inversion H | ].
  match type of H with
  | context [existsb ?f ?l] => destruct (existsb f l) eqn:Hex
  end; [ apply Hnone; now inversion H | ].
  clear Hnone. open_run H. inversion H; subst. clear H.
  apply str_eqb_neq in Hnm.
  destruct (split_spec _ _ _ Hsplit) as (Hclean & Hslash & Hcase).
  destruct Hcase as [(Hn & _) | Hnorm]; [ contradiction | ].
  match goal with
  | E : add_folder_rec _ _ _ = Ok _ |- _ =>
      destruct (IH _ _ _ E) as (added & Hkeys & Hnd & Hadded)
  end.
  assert (Hparent : _normalize parent = parent).
  { apply normalize_of_clean. rewrite Hnorm in Hclean.
    now apply clean_path_prefix in Hclean. }
  rewrite Hparent in Hadded.
  repeat match goal with
    | E : _add_path _ _ = Ok _ |- _ => apply add_path_folders in E
    | E : _add_string _ _ = _ |- _ => apply add_string_folders in E
    end.
  unfold folder_keys in *. cbn [_folders set_folders].
  exists (added ++ [parent ++ 47 :: nm]).
  rewrite map_app. cbn [map fst].
  repeat match goal with
    | E : _folders ?x = _folders ?y |- context [_folders ?x] =>
        rewrite E; clear E
    end.
  rewrite Hkeys, <- app_assoc.
  split; [ reflexivity | ]. split.
  - apply NoDup_snoc; [ exact Hnd | ].
    intros Hin. apply Hadded in Hin as [_ Hlen].
    rewrite length_app in Hlen. simpl in Hlen. lia.
  - intros k Hk. apply in_app_or in Hk as [Hk | [<- | []]].
    + destruct (Hadded k Hk) as [Hnot Hlen]. split; [ exact Hnot | ].
      rewrite Hnorm, length_app. simpl. lia.
    + split; [ | rewrite Hnorm; lia ].
      now apply not_existsb_folder_key.
Qed.

Lemma add_folder_rec_once (fuel : nat) (name : str) (b b' : Blocks) :
  NoDup (folder_keys b) ->
  add_folder_rec fuel name b = Ok b' ->
  NoDup (folder_keys b').
Proof.
  intros Hn H.
  destruct (add_folder_rec_keys _ _ _ _ H) as (added & -> & Hnd & Hadded).
  apply NoDup_app; [ exact Hn | exact Hnd | ].
  intros k Hk Hk'. now apply Hadded in Hk'.
Qed.

(** In every state that the operations of [Blocks] reach, a folder path
    is recorded once, so no folder chunk is written twice, and with
    every folder its parent is recorded, unless the parent holds no
    slash. *)
Theorem folders_are_recorded_once (h : Host) (b : Blocks) :
  reachable h b ->
  NoDup (folder_keys b) /\ folders_closed (folder_keys b).
Proof.
  intros Hr. split; [ | eapply reachable_closed; eauto ].
  refine (reachable_kept (fun x => NoDup (folder_keys x))
            _ _ _ _ _ _ _ h b _ Hr).
  - intros text b0 i b1 H0 H1. unfold folder_keys.
    now rewrite (add_path_folders _ _ _ _ H1).
  - intros text b0 i b1 H0 H1. unfold folder_keys.
    now rewrite (add_string_folders _ _ _ _ H1).
  - intros text b0 i b1 H0 H1. unfold folder_keys.
    now rewrite (add_home_replace_string_folders _ _ _ _ H1).
  - intros name b0 b1 H0 H1. eapply add_folder_rec_once; eauto.
  - intros b0 fm H0. exact H0.
  - intros b0 tf bf ub gb eb H0. exact H0.
  - intros b0 H0. exact H0.
  - constructor.
Qed.

Lemma folders_are_recorded_once_witness :
  match add_copy (py "/etc/a") (py "/usr/local/a") new_Blocks with
  | Ok b => NoDup (folder_keys b) /\ folders_closed (folder_keys b)
  | Raise _ => True
  end.
Proof.
  destruct (add_copy (py "/etc/a") (py "/usr/local/a") new_Blocks)
    as [b | e] eqn:E; [ | exact I ].
  apply (folders_are_recorded_once empty_host b).
  eapply reach_step
    with (o := OpAddCopy (py "/etc/a") (py "/usr/local/a"));
    [ apply reach_new | exact E ].
Defined.
